(** * The rule resolver of the cql-proxy: compilation, selection, enforcement

    A shallow embedding of package [resolver] (rule compiler, rule selector,
    update and insert mergers, and the three enforcement operations), and of
    the properties its specification states about them.

    Conventions of the embedding.
    - A Go [map[string]T] is a [gmap string T]; a map variable that the code
      compares with [nil] is an [option] of it, [None] being the nil map.
    - A Go pointer that the code compares with [nil] or dereferences is an
      [option]; dereferencing [None] is the outcome [Panic].
    - A function with results [(x, err)] returns [outcome X]: [Ok x] when
      [err == nil], [Err e] otherwise.
    - A [range] over a map visits its entries in an order the language does
      not fix. The order is a parameter of the model, the class
      [RangeOrder], which gives each map the list of its entries in the
      order of the visit: every theorem that mentions a loop over a map
      holds for each order, and two runs may use two different orders.
      Within one run a map is visited in one order each time.
    - A function of a library whose result the model does not compute is
      a parameter: the variable injector of the enforcer, and what
      [strings.ToLower] makes of a string that is not ASCII (the class
      [UnicodeLower]). A theorem holds for each value of the parameter. *)

From stdpp Require Import gmap strings list fin_maps.

#[local] Open Scope string_scope.
#[local] Open Scope list_scope.
#[local] Set Warnings "-register-all".

(** ** Values, errors, results *)

(** [interface{}] as the JSON decoder and the engine populate it. [VNil] is
    the nil interface (JSON null); [VMap None] is an interface that holds a
    nil [map[string]interface{}]. The engine never looks into a number, and
    an integer stands for it. *)
Inductive value :=
| VNil
| VBool (b : bool)
| VNum (n : Z)
| VStr (s : string)
| VArr (l : list value)
| VMap (m : option (gmap string value)).

(** [map[string]interface{}], also named [enforceObject] in the source. *)
Abbreviation enforceObject := (option (gmap string value)).

(** The errors of the package, one constructor per [errors.New] or
    [errors.Errorf] site, and [EValidation] for whatever the validator
    reports. *)
Inductive error :=
| EInvalidEmptyGroupName
| EUnknownGroup (groupName : string)
| EInvalidEmptyUserName
| EInvalidUserState (userState : string)
| EInvalidEnforceType (enforceSubject : string)
| EValidation
| EDenyState (userState : string)
| EDenyGroup (g : string)
| EDenyUser
| EDenyDefault
| EUpdateMixed
| EOperatorShape
| EUnknownOperator (k : string).

(** The message each error carries in the source; the message of
    [EValidation] is the validator's. *)
Definition Error (e : error) : string :=
  match e with
  | EInvalidEmptyGroupName => "invalid empty group name"
  | EUnknownGroup g => g +:+ ": unknown group"
  | EInvalidEmptyUserName => "invalid empty user name"
  | EInvalidUserState s => "invalid user state " +:+ s
  | EInvalidEnforceType s => s +:+ ": invalid enforce type"
  | EValidation => "validation failed"
  | EDenyState s => "permission denied of user state " +:+ s
  | EDenyGroup g => "permission denied of be in group " +:+ g
  | EDenyUser => "permission denied of user rule"
  | EDenyDefault => "permission denied of default rule"
  | EUpdateMixed => "could not use both normal field update and $ prefixed ops"
  | EOperatorShape => "$ operator needs object argument"
  | EUnknownOperator k => "invalid operator " +:+ k
  end.

Inductive outcome (A : Type) :=
| Ok (a : A)
| Err (e : error)
| Panic.
Arguments Ok {A} a.
Arguments Err {A} e.
Arguments Panic {A}.

#[global] Instance outcome_ret : MRet outcome := λ A a, Ok a.
#[global] Instance outcome_bind : MBind outcome := λ A B f m,
  match m with
  | Ok a => f a
  | Err e => Err e
  | Panic => Panic
  end.

(** A loop with an early [return] on error. *)
Fixpoint foldlM {A S : Type} (f : S → A → outcome S) (l : list A) (s : S)
  : outcome S :=
  match l with
  | [] => Ok s
  | a :: l' => s' ← f s a; foldlM f l' s'
  end.

(** ** The order of [range] over a map *)

Class RangeOrder := {
  range : ∀ {A : Type}, gmap string A → list (string * A);
  range_perm : ∀ (A : Type) (m : gmap string A), range m ≡ₚ map_to_list m
}.

(** [range] over a map variable that may be nil: a nil map has no entry. *)
Definition range_obj `{RangeOrder} {A : Type} (d : option (gmap string A))
  : list (string * A) :=
  match d with
  | None => []
  | Some m => range m
  end.

(** Two orders to run the model with: one visits the keys in the order of
    [map_to_list], the other in the opposite order. *)
Definition range_fwd : RangeOrder :=
  {| range := λ A m, map_to_list m; range_perm := λ A m, reflexivity _ |}.
Definition range_rev : RangeOrder :=
  {| range := λ A m, reverse (map_to_list m);
     range_perm := λ A m, reverse_Permutation (map_to_list m) |}.

(** ** Strings *)

(** [strings.HasPrefix(s, p)]. *)
Definition HasPrefix (s p : string) : bool := String.prefix p s.

(** [s[2:]] for a string known to have at least two bytes. *)
Definition from2 (s : string) : string :=
  String.substring 2 (String.length s - 2) s.

(** [strings.ToLower], a function of the standard library. On a string of
    ASCII bytes only it lowers the letters [A] to [Z], byte by byte. On a
    string that has a byte of 0x80 or more it returns
    [strings.Map(unicode.ToLower, s)], which lowers the letters of all of
    Unicode (the rune U+0130 becomes [i]) and whose tables are not among
    the sources: the model takes this map from the class [UnicodeLower],
    and a theorem that mentions [ToLower] holds for whatever the map is. *)
Class UnicodeLower := {
  Map_unicode_ToLower : string → string
}.

Definition lower_ascii (c : Ascii.ascii) : Ascii.ascii :=
  let n := Ascii.nat_of_ascii c in
  if (65 <=? n)%nat && (n <=? 90)%nat then Ascii.ascii_of_nat (n + 32) else c.

Fixpoint lower_bytes (s : string) : string :=
  match s with
  | EmptyString => EmptyString
  | String c s' => String (lower_ascii c) (lower_bytes s')
  end.

(** No byte of the string is [utf8.RuneSelf], 0x80, or more. *)
Fixpoint isASCII (s : string) : bool :=
  match s with
  | EmptyString => true
  | String c s' => (Ascii.nat_of_ascii c <? 128)%nat && isASCII s'
  end.

Definition ToLower {U : UnicodeLower} (s : string) : string :=
  if isASCII s then lower_bytes s else Map_unicode_ToLower s.

(** ** The data model *)

Abbreviation RuleQueryType := N.
Definition RuleQueryInsert : RuleQueryType := 0%N.
Definition RuleQueryUpdate : RuleQueryType := 1%N.
Definition RuleQueryFind : RuleQueryType := 2%N.
Definition RuleQueryRemove : RuleQueryType := 3%N.
Definition RuleQueryCount : RuleQueryType := 4%N.

Definition UserStateAnonymous := "anonymous".
Definition UserStateLoggedIn := "logged_in".
Definition UserStateWaitSignUpConfirm := "sign_up".
Definition UserStatePreRegistered := "pre_register".
Definition UserStateDisabled := "disabled".

(** [queryEnforces]: subject key to fragment; a JSON [null] fragment decodes
    to the nil map. The code only ranges over these maps, so a nil
    [queryEnforces] is the empty one. *)
Abbreviation queryEnforces := (gmap string enforceObject).

Record updateQueryEnforces := {
  uqe_Filter : queryEnforces;
  uqe_Update : queryEnforces
}.

Record tableEnforces := {
  te_Find : queryEnforces;
  te_Count : queryEnforces;
  te_Remove : queryEnforces;
  te_Update : updateQueryEnforces;
  te_Insert : queryEnforces
}.

(** [cfg_Rules] is the field [Rules] of the source, [table_rules] below the
    field [rules] of [TableRules]. *)
Record RulesConfig := {
  Groups : gmap string (list string);
  cfg_Rules : gmap string tableEnforces
}.

Record QueryRules := {
  groupRules : gmap string enforceObject;
  userRules : gmap string enforceObject;
  userStateRules : gmap string enforceObject;
  defaultRules : enforceObject
}.

Record TableRules := {
  table_rules : gmap N (option QueryRules);
  updateRules : option QueryRules
}.

Record Rules := {
  groups : list string;
  userGroups : gmap string (list string);
  rules : gmap string (option TableRules)
}.

Record updateMergeItem := {
  op : string;
  argument : value
}.

(** ** Rule selector *)

(** The receiver [r] of the methods of [*Rules] is a pointer that nothing
    keeps from being nil: [CompileRawRules] returns nil for the document
    [null], and [RulesManager.Get] for a database without rules. It is an
    [option], and the first read of a field of [None] is the outcome
    [Panic]. *)
Definition findUserRules (r : option Rules) (table : string)
    (qt : RuleQueryType) : outcome (option QueryRules) :=
  match r with
  | None => Panic
  | Some r =>
      match rules r !! table with
      | Some (Some tableRules) =>
          match table_rules tableRules !! qt with
          | Some (Some queryRules) => Ok (Some queryRules)
          | _ => Ok None
          end
      | _ => Ok None
      end
  end.

(** The lookup [rule, ok = m[k]] followed by the test [rule == nil] that the
    selector makes at the state tier and at the user tier: an absent key
    leaves the zero value, the nil map, in [rule] and goes on; a key bound
    to the nil map is the explicit deny. *)
Definition tierRule (m : gmap string enforceObject) (k : string) (deny : error)
  : outcome enforceObject :=
  match m !! k with
  | None => Ok None
  | Some None => Err deny
  | Some (Some rule) => Ok (Some rule)
  end.

(** The loop over the groups of the user. *)
Fixpoint findGroupRules (queryRules : QueryRules) (groups : list string)
    (resultRules : list enforceObject) : outcome (list enforceObject) :=
  match groups with
  | [] => Ok resultRules
  | g :: groups' =>
      match groupRules queryRules !! g with
      | None => findGroupRules queryRules groups' resultRules
      | Some None => Err (EDenyGroup g)
      | Some (Some rule) =>
          findGroupRules queryRules groups' (resultRules ++ [Some rule])
      end
  end.

(** [findRulesToApply] reads [queryRules] first and [r], for the groups of
    the user, after the state tier. Where it fails the Go function returns
    the slots it has appended so far beside the error; no caller reads
    them, and the model returns the error alone. *)
Definition findRulesToApply (r : option Rules) (queryRules : option QueryRules)
    (uid userState : string) : outcome (list enforceObject) :=
  match queryRules with
  | None => Panic
  | Some queryRules =>
      stateRule ← tierRule (userStateRules queryRules) userState
                    (EDenyState userState);
      let resultRules := [] ++ [stateRule] in
      match r with
      | None => Panic
      | Some r =>
          resultRules ← findGroupRules queryRules (userGroups r !!! uid)
                          resultRules;
          rule ← tierRule (userRules queryRules) uid EDenyUser;
          let resultRules := resultRules ++ [rule] in
          if decide (length resultRules = 0) then
            match defaultRules queryRules with
            | None => Err EDenyDefault
            | Some _ => Ok (resultRules ++ [defaultRules queryRules])
            end
          else Ok resultRules
      end
  end.

(** ** Variable injector *)

(** Modelled from the spec: [InjectMagicVars] is called by the enforcer but
    is not among the sources. The specification (4.4, scenario S6) says that
    it walks a nested document, maps and ordered sequences alike, and
    replaces each string leaf that is a magic-variable token, [@@name], by
    the value of [name] in the variable bag; a token the bag does not
    resolve is passed through. A nil document has nothing to walk and stays
    nil. *)
Fixpoint injectValue (vars : enforceObject) (v : value) : value :=
  match v with
  | VStr s =>
      if HasPrefix s "@@" then
        match vars ≫= (λ m, m !! from2 s) with
        | Some w => w
        | None => VStr s
        end
      else VStr s
  | VArr l => VArr (map (injectValue vars) l)
  | VMap (Some m) => VMap (Some (injectValue vars <$> m))
  | _ => v
  end.

(** Modelled from the spec: [InjectMagicVars] itself, the walk of the
    top-level document. *)
Definition InjectMagicVars (q vars : enforceObject) : enforceObject :=
  match q with
  | None => None
  | Some m => Some (injectValue vars <$> m)
  end.

(** ** Insert merger and update merger *)

Section Mergers.
Context `{RangeOrder}.

Definition mergeInsert (q : list enforceObject) : enforceObject :=
  match q with
  | [] => None
  | _ =>
      Some (fold_left
              (λ o d, fold_left (λ o kv, <[kv.1 := kv.2]> o) (range_obj d) o)
              q ∅)
  end.

Definition isUpdateOperator (k : string) : bool :=
  (k =? "$currentDate") || (k =? "$inc") || (k =? "$max") || (k =? "$min")
  || (k =? "$mul") || (k =? "$set").

(** The first statement of the loop over the keys of one fragment: the key
    sets one of the two flags of the fragment, [(useDollarOp, useNormalSet)],
    unless the other one is set. *)
Definition mergeUpdate_flags (k : string) (useDollarOp useNormalSet : bool)
  : outcome (bool * bool) :=
  if HasPrefix k "$" then
    if useNormalSet then Err EUpdateMixed else Ok (true, useNormalSet)
  else
    if useDollarOp then Err EUpdateMixed else Ok (useDollarOp, true).

(** The body of the loop over the keys of one fragment. The state is the
    two flags of the fragment and the table [result]. *)
Definition mergeUpdate_key
    (st : bool * bool * gmap string updateMergeItem) (kv : string * value)
  : outcome (bool * bool * gmap string updateMergeItem) :=
  let '(useDollarOp, useNormalSet, result) := st in
  let '(k, v) := kv in
  flags ← mergeUpdate_flags k useDollarOp useNormalSet;
  let useDollarOp : bool := flags.1 in
  let useNormalSet : bool := flags.2 in
  if useDollarOp then
    if isUpdateOperator k then
      match v with
      | VMap ov =>
          Ok (useDollarOp, useNormalSet,
              fold_left
                (λ result fa,
                   <[fa.1 := {| op := k; argument := fa.2 |}]> result)
                (range_obj ov) result)
      | _ => Err EOperatorShape
      end
    else if k =? "$comment" then Ok (useDollarOp, useNormalSet, result)
    else if HasPrefix k "$" then Err (EUnknownOperator k)
    else Ok (useDollarOp, useNormalSet, result)
  else if useNormalSet then
    Ok (useDollarOp, useNormalSet,
        <[k := {| op := "$set"; argument := v |}]> result)
  else Ok (useDollarOp, useNormalSet, result).

(** One round of the loop over the fragments. *)
Definition mergeUpdate_fragment (result : gmap string updateMergeItem)
    (d : enforceObject) : outcome (gmap string updateMergeItem) :=
  st ← foldlM mergeUpdate_key (range_obj d) (false, false, result);
  Ok st.2.

(** The conversion of the table to the query object. [o] only ever holds
    the field maps that this loop makes, so the model keeps them typed,
    operator to field map, and [mergeUpdate] wraps them as values. The body
    of the loop, for the field and item [fi]: *)
Definition assemble_step (o : gmap string (gmap string value))
    (fi : string * updateMergeItem)
  : gmap string (gmap string value) :=
  let ov := default ∅ (o !! op fi.2) in
  <[op fi.2 := <[fi.1 := argument fi.2]> ov]> o.

Definition mergeUpdate_assemble (result : gmap string updateMergeItem)
  : gmap string (gmap string value) :=
  fold_left assemble_step (range result) ∅.

Definition mergeUpdate (q : list enforceObject) : outcome enforceObject :=
  match q with
  | [] => Ok None
  | _ =>
      result ← foldlM mergeUpdate_fragment q ∅;
      Ok (Some ((λ ov, VMap (Some ov)) <$> mergeUpdate_assemble result))
  end.
End Mergers.

(** ** Enforcer *)

Section Enforcer.
Context `{RangeOrder}.

(** The variable injector the enforcer calls. The enforcer is embedded for
    an arbitrary one; [InjectMagicVars] above is the one the specification
    describes. *)
Variable inject : enforceObject → enforceObject → enforceObject.

(** The argument [r.findUserRules(table, RuleQueryUpdate)] is evaluated
    before the call of [findRulesToApply]. *)
Definition EnforceRulesOnFilter (r : option Rules) (f : enforceObject)
    (table uid userState : string) (vars : enforceObject)
    (qt : RuleQueryType) : outcome enforceObject :=
  resultRules ← (queryRules ← findUserRules r table RuleQueryUpdate;
                 findRulesToApply r queryRules uid userState);
  match resultRules with
  | [] => Ok f
  | _ =>
      let resultAndSubExpr := map (λ r, VMap (inject r vars)) resultRules in
      let resultAndSubExpr := resultAndSubExpr ++ [VMap f] in
      Ok (Some {[ "$and" := VArr resultAndSubExpr ]})
  end.

Definition EnforceRulesOnUpdate (r : option Rules) (d : enforceObject)
    (table uid userState : string) (vars : enforceObject)
  : outcome enforceObject :=
  match r with
  | None => Panic
  | Some r' =>
      match rules r' !! table with
      | Some (Some tableRules) =>
          match updateRules tableRules with
          | None => Ok d
          | Some _ =>
              resultRules ← findRulesToApply r (updateRules tableRules)
                              uid userState;
              update ← mergeUpdate resultRules;
              mergeUpdate [d; inject update vars]
          end
      | _ => Ok d
      end
  end.

Definition EnforceRulesOnInsert (r : option Rules) (d : enforceObject)
    (table uid userState : string) (vars : enforceObject)
  : outcome enforceObject :=
  resultRules ← (queryRules ← findUserRules r table RuleQueryInsert;
                 findRulesToApply r queryRules uid userState);
  match resultRules with
  | [] => Ok d
  | _ => Ok (mergeInsert [d; inject (mergeInsert resultRules) vars])
  end.
End Enforcer.

(** ** Rule compiler *)

Section Compiler.
Context `{RangeOrder} {U : UnicodeLower}.

(** What [validator.New().Struct] checks for the tags of [RulesConfig]: no
    group name, user name or table name is empty. The validator is a library
    outside the repository. It also rejects a group whose list of users is
    the JSON [null]; the lists of the model are never nil. *)
Definition validateStruct (cfg : RulesConfig) : bool :=
  bool_decide (map_Forall (λ groupName userNames,
                 groupName ≠ "" ∧ Forall (λ userName, userName ≠ "") userNames)
                 (Groups cfg))
  && bool_decide (map_Forall (λ tableName (_ : tableEnforces), tableName ≠ "")
                    (cfg_Rules cfg)).

Definition isUserState (userState : string) : bool :=
  (userState =? UserStateAnonymous) || (userState =? UserStateLoggedIn)
  || (userState =? UserStateWaitSignUpConfirm)
  || (userState =? UserStatePreRegistered)
  || (userState =? UserStateDisabled).

(** The body of the loop over the subjects of one [queryEnforces]. *)
Definition compileQueryEnforces_subject (cfg : RulesConfig)
    (queryRules : QueryRules) (e : string * enforceObject)
  : outcome QueryRules :=
  let '(enforceSubject, enforceObject) := e in
  if HasPrefix enforceSubject "g:" then
    let groupName := from2 enforceSubject in
    if groupName =? "" then Err EInvalidEmptyGroupName
    else
      match Groups cfg !! groupName with
      | None => Err (EUnknownGroup groupName)
      | Some _ =>
          Ok {| groupRules := <[groupName := enforceObject]> (groupRules queryRules);
                userRules := userRules queryRules;
                userStateRules := userStateRules queryRules;
                defaultRules := defaultRules queryRules |}
      end
  else if HasPrefix enforceSubject "u:" then
    let userName := from2 enforceSubject in
    if userName =? "" then Err EInvalidEmptyUserName
    else
      Ok {| groupRules := groupRules queryRules;
            userRules := <[userName := enforceObject]> (userRules queryRules);
            userStateRules := userStateRules queryRules;
            defaultRules := defaultRules queryRules |}
  else if HasPrefix enforceSubject "s:" then
    let userState := ToLower (from2 enforceSubject) in
    if isUserState userState then
      Ok {| groupRules := groupRules queryRules;
            userRules := userRules queryRules;
            userStateRules :=
              <[userState := enforceObject]> (userStateRules queryRules);
            defaultRules := defaultRules queryRules |}
    else Err (EInvalidUserState userState)
  else if enforceSubject =? "default" then
    Ok {| groupRules := groupRules queryRules;
          userRules := userRules queryRules;
          userStateRules := userStateRules queryRules;
          defaultRules := enforceObject |}
  else Err (EInvalidEnforceType enforceSubject).

Definition compileQueryEnforces (cfg : RulesConfig) (enforces : queryEnforces)
  : outcome QueryRules :=
  foldlM (compileQueryEnforces_subject cfg) (range enforces)
    {| groupRules := ∅; userRules := ∅; userStateRules := ∅;
       defaultRules := Some ∅ |}.

(** The three loops of [validateUpdateRules] run the same body. *)
Definition validateFragments (m : gmap string enforceObject) : outcome unit :=
  foldlM (λ _ kv, _ ← mergeUpdate [kv.2]; Ok ()) (range m) ().

Definition validateUpdateRules (rules : option QueryRules) : outcome unit :=
  match rules with
  | None => Ok ()
  | Some rules =>
      _ ← validateFragments (userStateRules rules);
      _ ← validateFragments (groupRules rules);
      _ ← validateFragments (userRules rules);
      _ ← mergeUpdate [defaultRules rules];
      Ok ()
  end.

(** The inner loop of the loop over [cfg.Groups], over the users of one
    group. *)
Definition compileGroup (groupName : string) (userNames : list string)
    (r : Rules) : Rules :=
  fold_left
    (λ r userName,
       {| groups := groups r ++ [groupName];
          userGroups :=
            <[userName := (userGroups r !!! userName) ++ [groupName]]>
              (userGroups r);
          rules := rules r |})
    userNames r.

(** The loop over [cfg.Groups]. *)
Definition compileGroups (cfg : RulesConfig) (r : Rules) : Rules :=
  fold_left (λ r gu, compileGroup gu.1 gu.2 r) (range (Groups cfg)) r.

(** The body of the loop over [cfg.Rules]. *)
Definition compileTable (cfg : RulesConfig) (r : Rules)
    (e : string * tableEnforces) : outcome Rules :=
  let '(tableName, tableEnforces) := e in
  find ← compileQueryEnforces cfg (te_Find tableEnforces);
  count ← compileQueryEnforces cfg (te_Count tableEnforces);
  remove ← compileQueryEnforces cfg (te_Remove tableEnforces);
  insert ← compileQueryEnforces cfg (te_Insert tableEnforces);
  filter ← compileQueryEnforces cfg (uqe_Filter (te_Update tableEnforces));
  update ← compileQueryEnforces cfg (uqe_Update (te_Update tableEnforces));
  let tableRules :=
    {| table_rules :=
         <[RuleQueryUpdate := Some filter]>
           (<[RuleQueryInsert := Some insert]>
              (<[RuleQueryRemove := Some remove]>
                 (<[RuleQueryCount := Some count]>
                    (<[RuleQueryFind := Some find]> ∅))));
       updateRules := Some update |} in
  _ ← validateUpdateRules (updateRules tableRules);
  Ok {| groups := groups r; userGroups := userGroups r;
        rules := <[tableName := Some tableRules]> (rules r) |}.

(** [CompileRawRules] past [json.Unmarshal]: [cfg] is the configuration the
    decoder produced, [None] when it left the pointer nil (the document
    [null]). *)
Definition CompileRawRules (cfg : option RulesConfig) : outcome (option Rules) :=
  match cfg with
  | None => Ok None
  | Some cfg =>
      if validateStruct cfg then
        let r := {| groups := []; userGroups := ∅; rules := ∅ |} in
        let r := compileGroups cfg r in
        r ← foldlM (compileTable cfg) (range (cfg_Rules cfg)) r;
        Ok (Some r)
      else Err EValidation
  end.
End Compiler.

(** ** Rules manager *)

(** The cache of [RulesManager], a [sync.Map] from database identifier to
    [*Rules], as one goroutine sees it. [proto.DatabaseID] is a string
    type. *)
Abbreviation RulesManager := (gmap string (option Rules)).

(** [Get]: the entry of the database, nil when there is none. *)
Definition RulesManager_Get (m : RulesManager) (dbID : string) : option Rules :=
  match m !! dbID with
  | Some v => v
  | None => None
  end.

(** [Set] (a reserved word here, hence the longer name). *)
Definition RulesManager_Set (m : RulesManager) (dbID : string)
    (rules : option Rules) : RulesManager :=
  <[dbID := rules]> m.

(** * The session pool of package [rpc] *)

(** ** Connections, calls and channels *)

(** A [net.Conn] is known by its identity: the pool keeps a connection,
    hands it out or closes it, and does nothing else with it. The
    connections that were closed are kept in a set beside the pool. *)
Abbreviation Conn := nat.

(** How a call ends when the goroutine that makes it is the only one that
    runs: it returns, it blocks on a channel and stays there, or it
    panics. The mutexes of the pool and of the sessions are free whenever
    a call begins, and no call locks one twice. *)
Inductive effect (A : Type) :=
| Returns (a : A)
| Blocks
| Panics.
Arguments Returns {A} a.
Arguments Blocks {A}.
Arguments Panics {A}.

#[global] Instance effect_bind : MBind effect := λ A B f m,
  match m with
  | Returns a => f a
  | Blocks => Blocks
  | Panics => Panics
  end.

(** A loop whose body may block or panic. *)
Fixpoint foldlE {A S : Type} (f : S → A → effect S) (l : list A) (s : S)
  : effect S :=
  match l with
  | [] => Returns s
  | a :: l' => s' ← f s a; foldlE f l' s'
  end.

(** A buffered channel of connections: the values it holds, the oldest
    first, its capacity, and whether it was closed. *)
Record chan := {
  buf : list Conn;
  cap : nat;
  closed : bool
}.

(** [make(chan net.Conn, n)]. *)
Definition make_chan (n : nat) : chan :=
  {| buf := []; cap := n; closed := false |}.

(** [v, ok := <-c]: the oldest value; on an empty channel, [ok] is false
    when the channel was closed, and the receive blocks when it was not. *)
Definition receive (c : chan) : effect (option Conn * chan) :=
  match buf c with
  | v :: rest =>
      Returns (Some v, {| buf := rest; cap := cap c; closed := closed c |})
  | [] => if closed c then Returns (None, c) else Blocks
  end.

(** [select { case c <- v: default: }]: the channel after the send where
    the buffer has room, [None] where the default case runs. A send on a
    closed channel panics. *)
Definition trySend (c : chan) (v : Conn) : effect (option chan) :=
  if closed c then Panics
  else if decide (length (buf c) < cap c)%nat then
    Returns (Some {| buf := buf c ++ [v]; cap := cap c; closed := closed c |})
  else Returns None.

(** [close(c)]: closing a closed channel panics. *)
Definition close (c : chan) : effect chan :=
  if closed c then Panics
  else Returns {| buf := buf c; cap := cap c; closed := true |}.

(** ** Sessions *)

(** The field [nodeDialer] of a session is the dialer of the pool that made
    the session; the model leaves the dialer outside the record. *)
Record Session := {
  target : string;
  sess : chan
}.

(** What [Session.Get] returns: a connection of the pool with a nil error,
    or whatever the call [s.newSession()] returns, which dials the
    target. *)
Inductive got :=
| Pooled (conn : Conn)
| NewSession (target : string).

(** [Close]: closes the channel, then closes every connection left in it;
    [shut] is the set of the closed connections. *)
Definition Session_Close (s : Session) (shut : gset Conn)
  : effect (Session * gset Conn) :=
  c ← close (sess s);
  Returns ({| target := target s;
              sess := {| buf := []; cap := cap c; closed := closed c |} |},
           shut ∪ list_to_set (buf c)).

Definition Session_Get (s : Session) : effect (got * Session) :=
  r ← receive (sess s);
  match r.1 with
  | Some conn => Returns (Pooled conn, {| target := target s; sess := r.2 |})
  | None => Returns (NewSession (target s), s)
  end.

Definition Session_Len (s : Session) : nat := length (buf (sess s)).

(** [put]: the result [ok] is never assigned, the method returns false. *)
Definition Session_put (s : Session) (conn : Conn) (shut : gset Conn)
  : effect (bool * Session * gset Conn) :=
  r ← trySend (sess s) conn;
  match r with
  | Some c => Returns (false, {| target := target s; sess := c |}, shut)
  | None => Returns (false, s, shut ∪ {[ conn ]})
  end.

(** ** The pool *)

(** [proto.NodeID] is a string type. *)
Abbreviation SessionMap := (gmap string Session).

Record SessionPool := {
  sessions : SessionMap
}.

Definition newSessionPool : SessionPool := {| sessions := ∅ |}.

Section Pool.
Context `{RangeOrder}.

(** [conf.MaxRPCPoolPhysicalConnection], a constant of a package that is
    not among the sources. *)
Variable MaxRPCPoolPhysicalConnection : nat.

Definition getSession (p : SessionPool) (id : string)
  : Session * bool * SessionPool :=
  match sessions p !! id with
  | Some sess => (sess, true, p)
  | None =>
      let sess := {| target := id;
                     sess := make_chan MaxRPCPoolPhysicalConnection |} in
      (sess, false, {| sessions := <[id := sess]> (sessions p) |})
  end.

(** [Get]: the session is in the map of the pool, so what [sess.Get()]
    does to its channel shows in the pool. *)
Definition SessionPool_Get (p : SessionPool) (id : string)
  : effect (got * SessionPool) :=
  let r := getSession p id in
  g ← Session_Get r.1.1;
  Returns (g.1, {| sessions := <[id := g.2]> (sessions r.2) |}).

Definition SessionPool_Put (p : SessionPool) (id : string) (conn : Conn)
    (shut : gset Conn) : effect (bool * SessionPool * gset Conn) :=
  match sessions p !! id with
  | Some sess =>
      r ← Session_put sess conn shut;
      Returns (true, {| sessions := <[id := r.1.2]> (sessions p) |}, r.2)
  | None => Returns (false, p, shut)
  end.

Definition SessionPool_Remove (p : SessionPool) (id : string)
    (shut : gset Conn) : effect (SessionPool * gset Conn) :=
  match sessions p !! id with
  | Some sess =>
      r ← Session_Close sess shut;
      Returns ({| sessions := delete id (sessions p) |}, r.2)
  | None => Returns (p, shut)
  end.

Definition SessionPool_Close (p : SessionPool) (shut : gset Conn)
  : effect (SessionPool * gset Conn) :=
  shut ← foldlE (λ shut kv, r ← Session_Close kv.2 shut; Returns r.2)
           (range (sessions p)) shut;
  Returns ({| sessions := ∅ |}, shut).

Definition SessionPool_Len (p : SessionPool) : nat :=
  fold_left (λ total kv, (total + Session_Len kv.2)%nat) (range (sessions p))
    0%nat.
End Pool.

(** * Notions that the properties are stated with *)

(** ** Update fragments: forms, entries, and the table they write *)

(** Bare form: no top-level key begins with [$]. *)
Definition bareForm (m : gmap string value) : Prop :=
  map_Forall (λ k _, HasPrefix k "$" = false) m.

(** A top-level entry that the merger accepts in a dollar-form fragment: one
    of the six operators with a map as its argument, or [$comment]. *)
Definition operatorEntry (k : string) (v : value) : Prop :=
  (isUpdateOperator k = true ∧ ∃ ov, v = VMap ov) ∨ k = "$comment".

Definition dollarForm (m : gmap string value) : Prop :=
  map_Forall operatorEntry m.

(** A well-formed update fragment: nil, bare form, or dollar form. *)
Definition wellFormed (d : enforceObject) : Prop :=
  match d with
  | None => True
  | Some m => bareForm m ∨ dollarForm m
  end.

(** The fragment [d] carries the entry [item], operator and argument, for
    the field [x]: [x] is a bare key of [d] bound to the argument, which
    stands for [$set]; or [x] is a key of the argument of an operator of
    [d]. *)
Definition entry (d : enforceObject) (x : string) (item : updateMergeItem)
  : Prop :=
  ∃ m, d = Some m
       ∧ ((HasPrefix x "$" = false ∧ op item = "$set"
           ∧ m !! x = Some (argument item))
          ∨ (isUpdateOperator (op item) = true
             ∧ ∃ ov, m !! op item = Some (VMap (Some ov))
                     ∧ ov !! x = Some (argument item))).

Definition mentions (d : enforceObject) (x : string) : Prop :=
  ∃ item, entry d x item.

(** The document [o] gives the field [f] the argument [arg] under the
    operator [k]. *)
Definition assigns (o : gmap string value) (k f : string) (arg : value)
  : Prop :=
  ∃ ov, o !! k = Some (VMap (Some ov)) ∧ ov !! f = Some arg.

(** The writes to the table, field and item, that the loop body makes for
    one top-level key, in the order it makes them. *)
Definition writes_of_key `{RangeOrder} (kv : string * value)
  : list (string * updateMergeItem) :=
  if HasPrefix kv.1 "$" then
    if isUpdateOperator kv.1 then
      match kv.2 with
      | VMap ov =>
          map (λ fa, (fa.1, {| op := kv.1; argument := fa.2 |})) (range_obj ov)
      | _ => []
      end
    else []
  else [(kv.1, {| op := "$set"; argument := kv.2 |})].

(** The writes of a fragment, and a table after a list of writes. *)
Definition writes `{RangeOrder} (d : enforceObject)
  : list (string * updateMergeItem) :=
  range_obj d ≫= writes_of_key.

Definition apply_writes (ws : list (string * updateMergeItem))
    (result : gmap string updateMergeItem) : gmap string updateMergeItem :=
  fold_left (λ result w, <[w.1 := w.2]> result) ws result.

(** ** Outcomes *)

(** The call returns, with a value or with an error. *)
Definition returns {A : Type} (x : outcome A) : Prop := x ≠ Panic.

(** The call returns an error. *)
Definition fails {A : Type} (x : outcome A) : Prop := ∃ e, x = Err e.

(** ** Configurations and compiled rules *)

(** The groups that list [uid], one for each time they list it, in the
    order of the list of groups [l]. *)
Definition memberships (l : list (string * list string)) (uid : string)
  : list string :=
  l ≫= λ gu, (λ _, gu.1) <$> filter (λ userName, userName = uid) gu.2.


(** What the compiled [queryRules] hold in the place where the compiler puts
    the fragment of the subject key [enforceSubject]. *)
Definition stored {U : UnicodeLower} (queryRules : QueryRules)
    (enforceSubject : string)
  : option enforceObject :=
  if HasPrefix enforceSubject "g:" then
    groupRules queryRules !! from2 enforceSubject
  else if HasPrefix enforceSubject "u:" then
    userRules queryRules !! from2 enforceSubject
  else if HasPrefix enforceSubject "s:" then
    userStateRules queryRules !! ToLower (from2 enforceSubject)
  else if enforceSubject =? "default" then Some (defaultRules queryRules)
  else None.

(** Two state keys that name the same state: [strings.ToLower] makes the
    same string of what follows their prefix. *)
Definition sameState {U : UnicodeLower} (s s' : string) : Prop :=
  HasPrefix s "s:" = true ∧ HasPrefix s' "s:" = true
  ∧ ToLower (from2 s) = ToLower (from2 s').

(** The errors of the update merger. *)
Definition mergeError (e : error) : Prop :=
  e = EUpdateMixed ∨ e = EOperatorShape ∨ ∃ k, e = EUnknownOperator k.

(** A subject key that [compileQueryEnforces] accepts: [g:] with the name
    of a group of the configuration, [u:] with a name, [s:] with a string
    of which [strings.ToLower] makes one of the five states, or
    [default]. *)
Definition validSubject {U : UnicodeLower} (cfg : RulesConfig)
    (enforceSubject : string) : bool :=
  if HasPrefix enforceSubject "g:" then
    negb (from2 enforceSubject =? "")
    && bool_decide (is_Some (Groups cfg !! from2 enforceSubject))
  else if HasPrefix enforceSubject "u:" then negb (from2 enforceSubject =? "")
  else if HasPrefix enforceSubject "s:" then
    isUserState (ToLower (from2 enforceSubject))
  else enforceSubject =? "default".

(** The six sections of the rules of a table. *)
Definition sections (te : tableEnforces) : list queryEnforces :=
  [te_Find te; te_Count te; te_Remove te; te_Insert te;
   uqe_Filter (te_Update te); uqe_Update (te_Update te)].

(** Every fragment of the compiled [queryRules] is the fragment of a
    subject key of its tier in the section [enforces]; the default rule is
    the fragment of [default], or the empty document the compiler starts
    with. *)
Definition fromSection {U : UnicodeLower} (enforces : queryEnforces)
    (queryRules : QueryRules)
  : Prop :=
  (∀ g fragment, groupRules queryRules !! g = Some fragment →
     ∃ s, enforces !! s = Some fragment ∧ HasPrefix s "g:" = true ∧ from2 s = g)
  ∧ (∀ u fragment, userRules queryRules !! u = Some fragment →
       ∃ s, enforces !! s = Some fragment ∧ HasPrefix s "u:" = true
            ∧ from2 s = u)
  ∧ (∀ st fragment, userStateRules queryRules !! st = Some fragment →
       ∃ s, enforces !! s = Some fragment ∧ HasPrefix s "s:" = true
            ∧ ToLower (from2 s) = st)
  ∧ (defaultRules queryRules = Some ∅
     ∨ enforces !! "default" = Some (defaultRules queryRules)).

(** The fragments that [validateUpdateRules] visits are all well-formed. *)
Definition allWellFormed (queryRules : QueryRules) : Prop :=
  map_Forall (λ _, wellFormed) (userStateRules queryRules)
  ∧ map_Forall (λ _, wellFormed) (groupRules queryRules)
  ∧ map_Forall (λ _, wellFormed) (userRules queryRules)
  ∧ wellFormed (defaultRules queryRules).

(** The section of the rules of a table that [CompileRawRules] compiles for
    the kind of query [qt]; the kind [RuleQueryUpdate] holds the filter of
    the update rules. *)
Definition sectionOf (te : tableEnforces) (qt : RuleQueryType)
  : option queryEnforces :=
  if decide (qt = RuleQueryFind) then Some (te_Find te)
  else if decide (qt = RuleQueryCount) then Some (te_Count te)
  else if decide (qt = RuleQueryRemove) then Some (te_Remove te)
  else if decide (qt = RuleQueryInsert) then Some (te_Insert te)
  else if decide (qt = RuleQueryUpdate) then Some (uqe_Filter (te_Update te))
  else None.

(** The table rules [tr] are the rules of the table [te] compiled: each of
    the five kinds of query holds the compiled section of its kind, no
    other kind has an entry, and [updateRules] holds the compiled update
    section, all of its fragments well-formed. *)
Definition compiledTable `{RangeOrder} {U : UnicodeLower} (cfg : RulesConfig)
    (te : tableEnforces)
    (tr : TableRules) : Prop :=
  (∀ qt, match sectionOf te qt with
         | Some enforces =>
             ∃ queryRules, compileQueryEnforces cfg enforces = Ok queryRules
                           ∧ table_rules tr !! qt = Some (Some queryRules)
         | None => table_rules tr !! qt = None
         end)
  ∧ ∃ update, compileQueryEnforces cfg (uqe_Update (te_Update te)) = Ok update
              ∧ updateRules tr = Some update ∧ allWellFormed update.

(** The section [enforces] denies the state of the subject key [s]: the
    key is a state key bound to the nil fragment, and no other key of the
    section names its state. *)
Definition stateDenied {U : UnicodeLower} (enforces : queryEnforces)
    (s : string) : Prop :=
  enforces !! s = Some None ∧ HasPrefix s "s:" = true
  ∧ ∀ s', is_Some (enforces !! s') → sameState s s' → s' = s.

(** The conditions on the rules of one table under which its round of the
    loop of [CompileRawRules] succeeds. *)
Definition tableCompiles `{RangeOrder} {U : UnicodeLower} (cfg : RulesConfig)
    (te : tableEnforces)
  : Prop :=
  Forall (map_Forall (λ s _, validSubject cfg s = true)) (sections te)
  ∧ ∀ update, compileQueryEnforces cfg (uqe_Update (te_Update te)) = Ok update →
              allWellFormed update.

(** ** The session pool *)

(** The session that [getSession] makes for the node [id], with the
    connections [l] in its channel. *)
Definition session_with (n : nat) (id : string) (l : list Conn) : Session :=
  {| target := id; sess := {| buf := l; cap := n; closed := false |} |}.

(** The sessions of the pool are as [getSession] makes them and as the
    calls of the pool leave them: each is under its own node, open, of
    capacity [n], and holds at most [n] connections. *)
Definition poolKept (n : nat) (p : SessionPool) : Prop :=
  map_Forall (λ id s, target s = id ∧ closed (sess s) = false
                      ∧ cap (sess s) = n ∧ (length (buf (sess s)) ≤ n)%nat)
    (sessions p).

(** The pool holds the connection [c]. *)
Definition pooled (p : SessionPool) (c : Conn) : Prop :=
  ∃ id s, sessions p !! id = Some s ∧ c ∈ buf (sess s).

(** ** Denials *)

(** The tier that denies the principal, with its error: the state tier,
    when it binds the state to nil; or, the state tier not denying, the
    first group of the user that the group tier binds to nil; or, no tier
    before it denying, the user tier, when it binds the user to nil. *)
Definition denies (r : Rules) (queryRules : QueryRules)
    (uid userState : string) (e : error) : Prop :=
  (userStateRules queryRules !! userState = Some None
   ∧ e = EDenyState userState)
  ∨ (userStateRules queryRules !! userState ≠ Some None
     ∧ ∃ gs1 g gs2,
         userGroups r !!! uid = gs1 ++ g :: gs2
         ∧ Forall (λ g', groupRules queryRules !! g' ≠ Some None) gs1
         ∧ groupRules queryRules !! g = Some None
         ∧ e = EDenyGroup g)
  ∨ (userStateRules queryRules !! userState ≠ Some None
     ∧ Forall (λ g, groupRules queryRules !! g ≠ Some None)
         (userGroups r !!! uid)
     ∧ userRules queryRules !! uid = Some None
     ∧ e = EDenyUser).

(** * Scenarios of the specification and other examples *)

(** The closed examples below are run with this map for [UnicodeLower].
    Their strings are ASCII, and [ToLower] does not consult the map for
    an ASCII string. *)
Definition unicode_unchanged : UnicodeLower :=
  {| Map_unicode_ToLower := λ s, s |}.

(** The [QueryRules] that [compileQueryEnforces] makes of an empty section. *)
Definition emptyQueryRules : QueryRules :=
  {| groupRules := ∅; userRules := ∅; userStateRules := ∅;
     defaultRules := Some ∅ |}.

Definition noEnforces : queryEnforces := ∅.

(** S1: groups [{"admins":["u1"]}], rules.table1.find
    [{"g:admins":{"tenant":"T"}}]. *)
Definition cfgS1 : RulesConfig :=
  {| Groups := {[ "admins" := ["u1"] ]};
     cfg_Rules :=
       {[ "table1" :=
            {| te_Find := {[ "g:admins" := Some {[ "tenant" := VStr "T" ]} ]};
               te_Count := noEnforces;
               te_Remove := noEnforces;
               te_Update :=
                 {| uqe_Filter := noEnforces; uqe_Update := noEnforces |};
               te_Insert := noEnforces |} ]} |}.

(** What the compiler makes of [cfgS1]. *)
Definition rulesS1 : Rules :=
  {| groups := ["admins"];
     userGroups := {[ "u1" := ["admins"] ]};
     rules :=
       {[ "table1" :=
            Some
              {| table_rules :=
                   {[ RuleQueryFind :=
                        Some
                          {| groupRules :=
                               {[ "admins" := Some {[ "tenant" := VStr "T" ]} ]};
                             userRules := ∅;
                             userStateRules := ∅;
                             defaultRules := Some ∅ |};
                      RuleQueryCount := Some emptyQueryRules;
                      RuleQueryRemove := Some emptyQueryRules;
                      RuleQueryInsert := Some emptyQueryRules;
                      RuleQueryUpdate := Some emptyQueryRules ]};
                 updateRules := Some emptyQueryRules |} ]} |}.

(** The caller's filter of S1 and S2, [{"name":"x"}]. *)
Definition filterS1 : enforceObject := Some {[ "name" := VStr "x" ]}.

(** S3: a state tier that denies and a default that allows,
    [{"s:anonymous":null, "default":{"pub":true}}]. *)
Definition queryRulesS3 : QueryRules :=
  {| groupRules := ∅; userRules := ∅;
     userStateRules := {[ "anonymous" := None ]};
     defaultRules := Some {[ "pub" := VBool true ]} |}.

(** No subject matches, the default allows: [{"default":{"pub":true}}]. *)
Definition queryRulesDefault : QueryRules :=
  {| groupRules := ∅; userRules := ∅; userStateRules := ∅;
     defaultRules := Some {[ "pub" := VBool true ]} |}.

(** A state tier that allows logged-in users, a group tier that denies the
    group [banned] and a user tier that denies [u9]. *)
Definition queryRulesDeny : QueryRules :=
  {| groupRules :=
       {[ "staff" := Some {[ "dept" := VStr "D" ]}; "banned" := None ]};
     userRules := {[ "u9" := None ]};
     userStateRules := {[ "logged_in" := Some {[ "live" := VBool true ]} ]};
     defaultRules := Some ∅ |}.

Definition rulesDeny : Rules :=
  {| groups := ["staff"; "banned"; "staff"];
     userGroups := {[ "u3" := ["staff"; "banned"]; "u9" := ["staff"] ]};
     rules := ∅ |}.

(** Fragments for the examples: [{"$set":{"x":1}}], [{"$inc":{"x":2}}],
    [{"z":3}]. *)
Definition fragSetX : enforceObject :=
  Some {[ "$set" := VMap (Some {[ "x" := VNum 1 ]}) ]}.
Definition fragIncX : enforceObject :=
  Some {[ "$inc" := VMap (Some {[ "x" := VNum 2 ]}) ]}.
Definition fragBareZ : enforceObject := Some {[ "z" := VNum 3 ]}.

(** A configuration in which [u] is in the groups [a] and [b], what the
    compiler makes of it when it ranges over [a] first, and what it makes of
    it when it ranges over [b] first. *)
Definition cfgTwoGroups : RulesConfig :=
  {| Groups := {[ "a" := ["u"]; "b" := ["u"] ]}; cfg_Rules := ∅ |}.

Definition rulesAB : Rules :=
  {| groups := ["a"; "b"]; userGroups := {[ "u" := ["a"; "b"] ]}; rules := ∅ |}.

Definition rulesBA : Rules :=
  {| groups := ["b"; "a"]; userGroups := {[ "u" := ["b"; "a"] ]}; rules := ∅ |}.

(** Query rules that deny both groups. *)
Definition queryRulesDenyAB : QueryRules :=
  {| groupRules := {[ "a" := None; "b" := None ]};
     userRules := ∅; userStateRules := ∅; defaultRules := Some ∅ |}.

(** S5: updateRules [{"default":{"$set":{"x":1},"y":2}}]. *)
Definition fragMixed : gmap string value :=
  {[ "$set" := VMap (Some {[ "x" := VNum 1 ]}); "y" := VNum 2 ]}.






(** Query rules in which no tier denies: the state tier and the group
    [staff] contribute a fragment, the user tier contributes one for [u3]. *)
Definition queryRulesAllow : QueryRules :=
  {| groupRules := {[ "staff" := Some {[ "dept" := VStr "D" ]} ]};
     userRules := {[ "u3" := Some {[ "owner" := VStr "u3" ]} ]};
     userStateRules := {[ "logged_in" := Some {[ "live" := VBool true ]} ]};
     defaultRules := Some ∅ |}.

(** Rules with one table [t] whose insert rules are [queryRulesAllow], and a
    caller's document [{"name":"x","dept":"X"}]. *)
Definition rulesInsert : Rules :=
  {| groups := ["staff"];
     userGroups := {[ "u3" := ["staff"] ]};
     rules :=
       {[ "t" := Some {| table_rules :=
                           {[ RuleQueryInsert := Some queryRulesAllow ]};
                         updateRules := None |} ]} |}.

Definition docCaller : enforceObject :=
  Some {[ "name" := VStr "x"; "dept" := VStr "X" ]}.

(** S4 as rules: the update rules of the table [t] force [role] for the
    group [admins]; the caller's update is
    [{"$set":{"role":"guest","name":"n"}}]. *)
Definition queryRulesS4 : QueryRules :=
  {| groupRules :=
       {[ "admins" := Some {[ "$set" := VMap (Some {[ "role" := VStr "admin" ]}) ]} ]};
     userRules := ∅; userStateRules := ∅; defaultRules := Some ∅ |}.

Definition tableRulesS4 : TableRules :=
  {| table_rules := ∅; updateRules := Some queryRulesS4 |}.

Definition rulesS4 : Rules :=
  {| groups := ["admins"];
     userGroups := {[ "u1" := ["admins"] ]};
     rules := {[ "t" := Some tableRulesS4 ]} |}.

Definition updateS4 : enforceObject :=
  Some {[ "$set" := VMap (Some {[ "role" := VStr "guest"; "name" := VStr "n" ]}) ]}.

(** The rule document of S4, [{"$set":{"role":"admin"}}]. *)
Definition ruleDocS4 : enforceObject :=
  Some {[ "$set" := VMap (Some {[ "role" := VStr "admin" ]}) ]}.

(** A configuration with the group [staff] of the users [u1] and [u2] and
    the table [t]. The insert rules and the filter of the update rules deny
    disabled users; the update rules deny them too and make [u1] set the
    field [by]. *)
Definition tableDeny : tableEnforces :=
  {| te_Find := noEnforces; te_Count := noEnforces; te_Remove := noEnforces;
     te_Update :=
       {| uqe_Filter := {[ "s:disabled" := None ]};
          uqe_Update :=
            {[ "s:disabled" := None;
               "u:u1" :=
                 Some {[ "$set" := VMap (Some {[ "by" := VStr "u1" ]}) ]} ]} |};
     te_Insert := {[ "s:Disabled" := None ]} |}.

Definition cfgDeny : RulesConfig :=
  {| Groups := {[ "staff" := ["u1"; "u2"] ]};
     cfg_Rules := {[ "t" := tableDeny ]} |}.

Definition queryRulesDisabled : QueryRules :=
  {| groupRules := ∅; userRules := ∅;
     userStateRules := {[ "disabled" := None ]};
     defaultRules := Some ∅ |}.

Definition updateRulesDeny : QueryRules :=
  {| groupRules := ∅;
     userRules :=
       {[ "u1" := Some {[ "$set" := VMap (Some {[ "by" := VStr "u1" ]}) ]} ]};
     userStateRules := {[ "disabled" := None ]};
     defaultRules := Some ∅ |}.

Definition tableRulesDeny : TableRules :=
  {| table_rules :=
       {[ RuleQueryFind := Some emptyQueryRules;
          RuleQueryCount := Some emptyQueryRules;
          RuleQueryRemove := Some emptyQueryRules;
          RuleQueryInsert := Some queryRulesDisabled;
          RuleQueryUpdate := Some queryRulesDisabled ]};
     updateRules := Some updateRulesDeny |}.

(** What the compiler makes of [cfgDeny]. *)
Definition rulesDenied : Rules :=
  {| groups := ["staff"; "staff"];
     userGroups := {[ "u1" := ["staff"]; "u2" := ["staff"] ]};
     rules := {[ "t" := Some tableRulesDeny ]} |}.

(** A section with a subject key of no tier. *)
Definition enforcesInvalid : queryEnforces :=
  {[ "u:u1" := Some ∅; "everyone" := Some ∅ ]}.

(** A section with a subject key of each tier, and what the compiler makes
    of it for [cfgDeny]. *)
Definition enforcesStaff : queryEnforces :=
  {[ "g:staff" := Some {[ "dept" := VStr "D" ]};
     "u:u1" := Some ∅;
     "s:Disabled" := None ]}.

Definition queryRulesStaff : QueryRules :=
  {| groupRules := {[ "staff" := Some {[ "dept" := VStr "D" ]} ]};
     userRules := {[ "u1" := Some ∅ ]};
     userStateRules := {[ "disabled" := None ]};
     defaultRules := Some ∅ |}.

(** A pool of capacity 2 with a session for the node [n1] that holds the
    connections 7 and 8, and a session for [n2] that holds none. *)
Definition poolTwo : SessionPool :=
  {| sessions := {[ "n1" := session_with 2 "n1" [7; 8];
                    "n2" := session_with 2 "n2" [] ]} |}.

(** The groups of [rulesDeny] and a table [t] that has [queryRulesDeny] as
    its rules of every kind and as its update rules. *)
Definition tableRulesDenyAll : TableRules :=
  {| table_rules :=
       {[ RuleQueryFind := Some queryRulesDeny;
          RuleQueryCount := Some queryRulesDeny;
          RuleQueryRemove := Some queryRulesDeny;
          RuleQueryInsert := Some queryRulesDeny;
          RuleQueryUpdate := Some queryRulesDeny ]};
     updateRules := Some queryRulesDeny |}.

Definition rulesDenyTable : Rules :=
  {| groups := ["staff"; "banned"; "staff"];
     userGroups := {[ "u3" := ["staff"; "banned"]; "u9" := ["staff"] ]};
     rules := {[ "t" := Some tableRulesDenyAll ]} |}.

(** Rules with one table [t] whose update-filter rules are
    [queryRulesAllow]. *)
Definition rulesFilter : Rules :=
  {| groups := ["staff"];
     userGroups := {[ "u3" := ["staff"] ]};
     rules :=
       {[ "t" := Some {| table_rules :=
                           {[ RuleQueryUpdate := Some queryRulesAllow ]};
                         updateRules := None |} ]} |}.

(** * Properties *)

(** ** Outcomes of loops *)

Lemma foldlM_cons {A S : Type} (f : S → A → outcome S) (a : A) (l : list A)
    (s : S) :
  foldlM f (a :: l) s = f s a ≫= foldlM f l.
Proof. reflexivity. Qed.

(** Case analysis on the outcome that a bind or a match is waiting for. *)
Ltac case_outcome :=
  match goal with
  | |- context [mbind _ ?x] => destruct x as [?| |] eqn:?
  | |- context [match ?x with Ok _ => _ | Err _ => _ | Panic => _ end] =>
      destruct x as [?| |] eqn:?
  end.

Lemma bind_returns {A B : Type} (x : outcome A) (f : A → outcome B) :
  returns x → (∀ a, returns (f a)) → returns (x ≫= f).
Proof. destruct x; simpl; [by intros _ Hf|done..]. Qed.



Lemma foldlM_returns {A S : Type} (f : S → A → outcome S) (l : list A) (s : S) :
  (∀ s a, returns (f s a)) → returns (foldlM f l s).
Proof.
  intros Hf. revert s. induction l as [|a l IH]; intros s; simpl; [done|].
  by apply bind_returns.
Qed.


(** ** Properties of strings *)

Section Strings.

(** On an ASCII string [ToLower] does not consult the map of Unicode. *)
Lemma ToLower_ASCII (U1 U2 : UnicodeLower) (s : string) :
  isASCII s = true → ToLower (U := U1) s = ToLower (U := U2) s.
Proof. unfold ToLower. by intros ->. Qed.

Lemma substring_all (s : string) : String.substring 0 (String.length s) s = s.
Proof. induction s as [|c s IH]; simpl; [done|by rewrite IH]. Qed.

(** A string is its first two bytes followed by [from2] of it. *)
Lemma from2_inj (p s s' : string) :
  String.length p = 2%nat →
  HasPrefix s p = true → HasPrefix s' p = true →
  from2 s = from2 s' → s = s'.
Proof.
  destruct p as [|c1 [|c2 [|c3 p]]]; try done. intros _.
  unfold HasPrefix, from2.
  destruct s as [|a [|b s0]]; simpl; try done;
    [by destruct (Ascii.ascii_dec c1 a)|].
  destruct s' as [|a' [|b' s0']]; simpl; try done;
    [by destruct (Ascii.ascii_dec c1 a), (Ascii.ascii_dec c2 b),
          (Ascii.ascii_dec c1 a')|].
  destruct (Ascii.ascii_dec c1 a) as [<-|]; [|done].
  destruct (Ascii.ascii_dec c2 b) as [<-|]; [|done].
  destruct (Ascii.ascii_dec c1 a') as [<-|]; [|done].
  destruct (Ascii.ascii_dec c2 b') as [<-|]; [|done].
  rewrite !Nat.sub_0_r, !substring_all. by intros _ _ ->.
Qed.
End Strings.

(** ** Properties of [range] *)

Section Range.
Context `{RangeOrder} {A : Type}.
Implicit Types (m : gmap string A).

Lemma elem_of_range m k v : (k, v) ∈ range m ↔ m !! k = Some v.
Proof. rewrite (range_perm A m). apply elem_of_map_to_list. Qed.

Lemma NoDup_fst_range m : NoDup (range m).*1.
Proof. rewrite (range_perm A m). apply NoDup_fst_map_to_list. Qed.

Lemma range_singleton k (v : A) : range ({[ k := v ]} : gmap string A) = [(k, v)].
Proof.
  apply Permutation_singleton_r. rewrite (range_perm A).
  by rewrite map_to_list_singleton.
Qed.

Lemma range_empty : range (∅ : gmap string A) = [].
Proof.
  apply Permutation_nil_r. rewrite (range_perm A ∅).
  by rewrite map_to_list_empty.
Qed.
End Range.

(** ** Properties of the rule selector *)

Section Selector.
Implicit Types (r : Rules) (queryRules : QueryRules).
Implicit Types (resultRules : list enforceObject).

(** A group that has no entry in [groupRules] is skipped. *)
Lemma findGroupRules_absent queryRules groups resultRules :
  Forall (λ g, groupRules queryRules !! g = None) groups →
  findGroupRules queryRules groups resultRules = Ok resultRules.
Proof.
  induction 1 as [|g groups Hg _ IH]; simpl; [done|].
  by rewrite Hg.
Qed.

(** The loop only appends: what it was given stays in front. *)
Lemma findGroupRules_prefix queryRules groups resultRules l :
  findGroupRules queryRules groups resultRules = Ok l →
  ∃ l', l = resultRules ++ l'.
Proof.
  revert resultRules.
  induction groups as [|g groups IH]; simpl; intros resultRules Hl.
  - exists []. rewrite app_nil_r. congruence.
  - destruct (groupRules queryRules !! g) as [[rule|]|]; [|done|by apply IH].
    destruct (IH _ Hl) as [l' ->].
    exists (Some rule :: l'). by rewrite <- app_assoc.
Qed.

(** The first group bound to the nil map stops the loop with its error. *)
Lemma findGroupRules_deny queryRules gs1 g gs2 resultRules :
  Forall (λ g', groupRules queryRules !! g' ≠ Some None) gs1 →
  groupRules queryRules !! g = Some None →
  findGroupRules queryRules (gs1 ++ g :: gs2) resultRules = Err (EDenyGroup g).
Proof.
  intros Hgs1 Hg. revert resultRules.
  induction Hgs1 as [|g' gs1 Hg' _ IH]; simpl; intros resultRules.
  - by rewrite Hg.
  - destruct (groupRules queryRules !! g') as [[rule|]|]; [apply IH|done|apply IH].
Qed.

(** Without a deny the loop runs to its end. *)
Lemma findGroupRules_allow queryRules groups resultRules :
  Forall (λ g, groupRules queryRules !! g ≠ Some None) groups →
  ∃ l, findGroupRules queryRules groups resultRules = Ok l.
Proof.
  intros Hgs. revert resultRules.
  induction Hgs as [|g groups Hg _ IH]; simpl; intros resultRules; [by eexists|].
  destruct (groupRules queryRules !! g) as [[rule|]|]; [apply IH|done|apply IH].
Qed.

(** The loop ends in one of two ways: no group of the list is denied and
    it returns a selection, or it fails with the error of a denied group of
    the list. *)
Lemma findGroupRules_cases queryRules groups resultRules :
  (Forall (λ g, groupRules queryRules !! g ≠ Some None) groups
   ∧ ∃ l, findGroupRules queryRules groups resultRules = Ok l)
  ∨ (∃ g, g ∈ groups ∧ groupRules queryRules !! g = Some None
          ∧ findGroupRules queryRules groups resultRules = Err (EDenyGroup g)).
Proof.
  revert resultRules.
  induction groups as [|g groups IH]; intros resultRules; simpl.
  - left. split; [constructor|by eexists].
  - destruct (groupRules queryRules !! g) as [[rule|]|] eqn:Hg.
    + destruct (IH (resultRules ++ [Some rule]))
        as [[Hall Hok]|(g' & Hin & Hg' & Herr)].
      * left. split; [|done]. constructor; [by rewrite Hg|done].
      * right. exists g'. split_and!; [by right|done..].
    + right. exists g. split_and!; [by left|done..].
    + destruct (IH resultRules) as [[Hall Hok]|(g' & Hin & Hg' & Herr)].
      * left. split; [|done]. constructor; [by rewrite Hg|done].
      * right. exists g'. split_and!; [by right|done..].
Qed.

(** The loop reads the group rules only. *)
Lemma findGroupRules_ext queryRules queryRules' groups resultRules :
  groupRules queryRules = groupRules queryRules' →
  findGroupRules queryRules groups resultRules
  = findGroupRules queryRules' groups resultRules.
Proof.
  intros Heq. revert resultRules.
  induction groups as [|g groups IH]; simpl; intros resultRules; [done|].
  rewrite Heq. destruct (groupRules queryRules' !! g) as [[rule|]|]; by rewrite ?IH.
Qed.

(** A selection that succeeds holds at least the slot of the state tier and
    the slot of the user tier, so it is never empty. *)
Lemma findRulesToApply_length r q uid userState resultRules :
  findRulesToApply (Some r) q uid userState = Ok resultRules →
  (2 ≤ length resultRules)%nat.
Proof.
  unfold findRulesToApply. destruct q as [queryRules|]; [|done].
  destruct (tierRule (userStateRules queryRules) userState _)
    as [stateRule| |]; simpl; [|done..].
  destruct (findGroupRules queryRules _ _) as [l| |] eqn:Hl; simpl; [|done..].
  destruct (tierRule (userRules queryRules) uid _) as [rule| |]; simpl; [|done..].
  apply findGroupRules_prefix in Hl as [l' ->].
  case_decide as Hlen.
  - rewrite !length_app in Hlen. simpl in Hlen. lia.
  - intros [= <-]. simpl. rewrite length_app. simpl. lia.
Qed.

(** The selection of [EnforceRulesOnFilter] and [EnforceRulesOnInsert] on a
    receiver that is not nil: [findUserRules] returns, and the selection is
    made from what it returns. *)
Lemma findUserRules_selection r table qt uid userState :
  ∃ q, findUserRules (Some r) table qt = Ok q
       ∧ (queryRules ← findUserRules (Some r) table qt;
          findRulesToApply (Some r) queryRules uid userState)
         = findRulesToApply (Some r) q uid userState.
Proof.
  unfold findUserRules.
  destruct (rules r !! table) as [[tableRules|]|]; [|by eexists..].
  destruct (table_rules tableRules !! qt) as [[queryRules|]|]; by eexists.
Qed.

Lemma findUserRules_selection_length r table qt uid userState resultRules :
  (queryRules ← findUserRules (Some r) table qt;
   findRulesToApply (Some r) queryRules uid userState) = Ok resultRules →
  (2 ≤ length resultRules)%nat.
Proof.
  destruct (findUserRules_selection r table qt uid userState) as (q & _ & ->).
  apply findRulesToApply_length.
Qed.

(** When no tier has an entry for the principal, the selection is the two
    nil slots of the state tier and of the user tier, whatever
    [defaultRules] holds. *)
Lemma findRulesToApply_no_subject r queryRules uid userState :
  userStateRules queryRules !! userState = None →
  Forall (λ g, groupRules queryRules !! g = None) (userGroups r !!! uid) →
  userRules queryRules !! uid = None →
  findRulesToApply (Some r) (Some queryRules) uid userState = Ok [None; None].
Proof.
  intros Hstate Hgroups Huser. unfold findRulesToApply, tierRule.
  rewrite Hstate. simpl.
  rewrite (findGroupRules_absent _ _ _ Hgroups). simpl.
  by rewrite Huser.
Qed.
End Selector.

(** ** The selector on an explicit deny *)

(** An explicit deny, a subject key bound to the nil fragment, makes the
    selector fail with the error of its tier: at the state tier always; at
    the group tier for the first denied group of the user, whether the
    state tier contributed a fragment or not; at the user tier whatever
    the state tier and the group tier contributed. And whenever some tier
    denies, the selector fails, with the error of a tier that denies. *)
Lemma findRulesToApply_explicit_deny (r : Rules) (queryRules : QueryRules)
    (uid userState : string) :
  (userStateRules queryRules !! userState = Some None →
   findRulesToApply (Some r) (Some queryRules) uid userState
   = Err (EDenyState userState))
  ∧ (∀ gs1 g gs2,
       userStateRules queryRules !! userState ≠ Some None →
       userGroups r !!! uid = gs1 ++ g :: gs2 →
       Forall (λ g', groupRules queryRules !! g' ≠ Some None) gs1 →
       groupRules queryRules !! g = Some None →
       findRulesToApply (Some r) (Some queryRules) uid userState
       = Err (EDenyGroup g))
  ∧ (userStateRules queryRules !! userState ≠ Some None →
     Forall (λ g, groupRules queryRules !! g ≠ Some None) (userGroups r !!! uid) →
     userRules queryRules !! uid = Some None →
     findRulesToApply (Some r) (Some queryRules) uid userState = Err EDenyUser)
  ∧ (userStateRules queryRules !! userState = Some None
     ∨ Exists (λ g, groupRules queryRules !! g = Some None) (userGroups r !!! uid)
     ∨ userRules queryRules !! uid = Some None →
     ∃ e, findRulesToApply (Some r) (Some queryRules) uid userState = Err e
          ∧ (e = EDenyState userState
             ∨ (∃ g, e = EDenyGroup g ∧ g ∈ userGroups r !!! uid
                     ∧ groupRules queryRules !! g = Some None)
             ∨ e = EDenyUser)).
Proof.
  unfold findRulesToApply, tierRule. split_and!.
  - by intros ->.
  - intros gs1 g gs2 Hstate -> Hgs1 Hg.
    destruct (userStateRules queryRules !! userState) as [[stateRule|]|];
      [|done|]; simpl; by rewrite (findGroupRules_deny _ _ _ _ _ Hgs1 Hg).
  - intros Hstate Hgroups ->.
    destruct (userStateRules queryRules !! userState) as [[stateRule|]|];
      [|done|]; simpl.
    + destruct (findGroupRules_allow queryRules _ [Some stateRule] Hgroups)
        as [l ->]; done.
    + destruct (findGroupRules_allow queryRules _ [None] Hgroups)
        as [l ->]; done.
  - intros Hdeny.
    destruct (userStateRules queryRules !! userState) as [[stateRule|]|]
      eqn:Hstate; simpl; [|by eauto|];
      (match goal with
       | |- context [findGroupRules queryRules ?gs ?acc] =>
           destruct (findGroupRules_cases queryRules gs acc)
             as [[Hall [l ->]]|(g & Hin & Hg & ->)]
       end; simpl; [|by eauto 10];
       destruct Hdeny as [?|[Hex|Huser]]; [done| |];
       [apply Exists_exists in Hex as (g & Hin & Hg);
        rewrite Forall_forall in Hall; by destruct (Hall g Hin)
       |rewrite Huser; simpl; by eauto]).
Qed.

(** The first of the groups of a list that is denied. *)
Lemma first_denied_group (queryRules : QueryRules) (groups : list string) :
  Exists (λ g, groupRules queryRules !! g = Some None) groups →
  ∃ gs1 g gs2,
    groups = gs1 ++ g :: gs2
    ∧ Forall (λ g', groupRules queryRules !! g' ≠ Some None) gs1
    ∧ groupRules queryRules !! g = Some None.
Proof.
  induction groups as [|g groups IH]; intros Hex;
    [by apply Exists_nil in Hex|].
  destruct (groupRules queryRules !! g) as [[rule|]|] eqn:Hg.
  - apply Exists_cons in Hex as [Hd|Hex]; [congruence|].
    destruct (IH Hex) as (gs1 & g' & gs2 & -> & Hall & Hg').
    exists (g :: gs1), g', gs2.
    split_and!; [done| |done]. constructor; [congruence|done].
  - by exists [], g, groups.
  - apply Exists_cons in Hex as [Hd|Hex]; [congruence|].
    destruct (IH Hex) as (gs1 & g' & gs2 & -> & Hall & Hg').
    exists (g :: gs1), g', gs2.
    split_and!; [done| |done]. constructor; [congruence|done].
Qed.

(** The error of the tier that denies is the error of the selector. *)
Lemma denies_selector (r : Rules) (queryRules : QueryRules)
    (uid userState : string) (e : error) :
  denies r queryRules uid userState e →
  findRulesToApply (Some r) (Some queryRules) uid userState = Err e.
Proof.
  destruct (findRulesToApply_explicit_deny r queryRules uid userState)
    as (Hstate & Hgroup & Huser & _).
  intros [[Hs ->]|[(Hs & gs1 & g & gs2 & Hgs & Hall & Hg & ->)
                  |(Hs & Hall & Hu & ->)]].
  - by apply Hstate.
  - by apply (Hgroup gs1 g gs2).
  - by apply Huser.
Qed.

(** Where some tier denies, there is a first tier that does. *)
Lemma some_tier_denies (r : Rules) (queryRules : QueryRules)
    (uid userState : string) :
  userStateRules queryRules !! userState = Some None
  ∨ Exists (λ g, groupRules queryRules !! g = Some None) (userGroups r !!! uid)
  ∨ userRules queryRules !! uid = Some None →
  ∃ e, denies r queryRules uid userState e.
Proof.
  intros Hdeny. unfold denies.
  destruct (userStateRules queryRules !! userState) as [[stateRule|]|]
    eqn:Hstate; [|by eauto|].
  - destruct Hdeny as [?|[Hex|Huser]]; [done| |].
    + apply first_denied_group in Hex as (gs1 & g & gs2 & Hgs & Hall & Hg).
      exists (EDenyGroup g). right. left. split; [done|].
      by exists gs1, g, gs2.
    + destruct (findGroupRules_cases queryRules (userGroups r !!! uid) [])
        as [[Hall _]|(g & Hin & Hg & _)].
      * exists EDenyUser. by right; right.
      * assert (Exists (λ g, groupRules queryRules !! g = Some None)
                  (userGroups r !!! uid)) as Hex
          by (apply Exists_exists; by exists g).
        apply first_denied_group in Hex as (gs1 & g' & gs2 & Hgs & Hall & Hg').
        exists (EDenyGroup g'). right. left. split; [done|].
        by exists gs1, g', gs2.
  - destruct Hdeny as [?|[Hex|Huser]]; [done| |].
    + apply first_denied_group in Hex as (gs1 & g & gs2 & Hgs & Hall & Hg).
      exists (EDenyGroup g). right. left. split; [done|].
      by exists gs1, g, gs2.
    + destruct (findGroupRules_cases queryRules (userGroups r !!! uid) [])
        as [[Hall _]|(g & Hin & Hg & _)].
      * exists EDenyUser. by right; right.
      * assert (Exists (λ g, groupRules queryRules !! g = Some None)
                  (userGroups r !!! uid)) as Hex
          by (apply Exists_exists; by exists g).
        apply first_denied_group in Hex as (gs1 & g' & gs2 & Hgs & Hall & Hg').
        exists (EDenyGroup g'). right. left. split; [done|].
        by exists gs1, g', gs2.
Qed.

(** ** Claims on the rule selector *)

(** C3. The default rule is never applied. The selector appends the slot of
    the state tier and the slot of the user tier whether or not the tier has
    an entry, so the test [len(resultRules) == 0] that guards the default
    rule never holds: the selection does not depend on [defaultRules], and
    for a principal that no tier has an entry for it is the two nil slots,
    where the specification applies the default rule. *)
Theorem default_rule_never_applied (r : Rules) (queryRules : QueryRules)
    (uid userState : string) :
  (∀ defaultRules',
     findRulesToApply (Some r) (Some queryRules) uid userState
     = findRulesToApply (Some r)
         (Some {| groupRules := groupRules queryRules;
                  userRules := userRules queryRules;
                  userStateRules := userStateRules queryRules;
                  defaultRules := defaultRules' |})
         uid userState)
  ∧ (userStateRules queryRules !! userState = None →
     Forall (λ g, groupRules queryRules !! g = None) (userGroups r !!! uid) →
     userRules queryRules !! uid = None →
     findRulesToApply (Some r) (Some queryRules) uid userState = Ok [None; None]).
Proof.
  split; [|apply findRulesToApply_no_subject].
  intros defaultRules'. unfold findRulesToApply. simpl.
  destruct (tierRule (userStateRules queryRules) userState _)
    as [stateRule| |]; simpl; [|done..].
  rewrite (findGroupRules_ext
             {| groupRules := groupRules queryRules;
                userRules := userRules queryRules;
                userStateRules := userStateRules queryRules;
                defaultRules := defaultRules' |} queryRules) by done.
  destruct (findGroupRules queryRules _ _) as [l| |] eqn:Hl; simpl; [|done..].
  destruct (tierRule (userRules queryRules) uid _) as [rule| |]; simpl; [|done..].
  apply findGroupRules_prefix in Hl as [l' ->].
  case_decide as Hlen; [|done].
  rewrite !length_app in Hlen. simpl in Hlen. lia.
Qed.

(** A logged-in user [u2] under rules whose only entry is the default
    [{"pub":true}]: the selection is the two nil slots, not the default
    fragment; and it stays so when the default is the explicit deny. *)
Lemma default_rule_never_applied_witness :
  findRulesToApply (Some rulesS1) (Some queryRulesDefault) "u2" "logged_in"
  = Ok [None; None]
  ∧ findRulesToApply (Some rulesS1) (Some queryRulesDefault) "u2" "logged_in"
    = findRulesToApply (Some rulesS1)
        (Some {| groupRules := ∅; userRules := ∅; userStateRules := ∅;
                 defaultRules := None |})
        "u2" "logged_in".
Proof.
  split.
  - apply (proj2 (default_rule_never_applied
                    rulesS1 queryRulesDefault "u2" "logged_in")).
    + reflexivity.
    + vm_compute. constructor.
    + reflexivity.
  - apply (proj1 (default_rule_never_applied
                    rulesS1 queryRulesDefault "u2" "logged_in") None).
Defined.

(** ** Claims on the enforcer *)

Section EnforcerClaims.
Context `{RangeOrder}.
Variable inject : enforceObject → enforceObject → enforceObject.

(** What [EnforceRulesOnFilter] returns for a selection that succeeded. *)
Lemma EnforceRulesOnFilter_selected (r : Rules) (f : enforceObject)
    (table uid userState : string) (vars : enforceObject) (qt : RuleQueryType)
    (resultRules : list enforceObject) :
  (queryRules ← findUserRules (Some r) table RuleQueryUpdate;
     findRulesToApply (Some r) queryRules uid userState)
  = Ok resultRules →
  EnforceRulesOnFilter inject (Some r) f table uid userState vars qt
  = Ok (Some {[ "$and" :=
                  VArr (map (λ r, VMap (inject r vars)) resultRules
                        ++ [VMap f]) ]}).
Proof.
  intros Hsel. unfold EnforceRulesOnFilter. rewrite Hsel. simpl.
  apply findUserRules_selection_length in Hsel.
  destruct resultRules; [simpl in Hsel; lia|done].
Qed.

(** C8. Every filter that [EnforceRulesOnFilter] returns is the single-key
    document [{"$and": l}] where [l] is the injected fragments of the
    selection, of which there is at least one, followed by the caller's
    filter [f] itself as its last element. *)
Theorem filter_appended_last (r : Rules) (f : enforceObject)
    (table uid userState : string) (vars : enforceObject) (qt : RuleQueryType)
    (filter : enforceObject) :
  EnforceRulesOnFilter inject (Some r) f table uid userState vars qt = Ok filter →
  ∃ resultRules l,
    (queryRules ← findUserRules (Some r) table RuleQueryUpdate;
     findRulesToApply (Some r) queryRules uid userState)
    = Ok resultRules
    ∧ resultRules ≠ []
    ∧ l = map (λ r, VMap (inject r vars)) resultRules ++ [VMap f]
    ∧ last l = Some (VMap f)
    ∧ filter = Some {[ "$and" := VArr l ]}.
Proof.
  intros Hf.
  destruct (queryRules ← findUserRules (Some r) table RuleQueryUpdate;
            findRulesToApply (Some r) queryRules uid userState)
    as [resultRules| |] eqn:Hsel.
  - rewrite (EnforceRulesOnFilter_selected _ _ _ _ _ _ _ _ Hsel) in Hf.
    injection Hf as <-.
    exists resultRules, (map (λ r, VMap (inject r vars)) resultRules ++ [VMap f]).
    split_and!; [done| |done|by rewrite last_snoc|done].
    apply findUserRules_selection_length in Hsel. intros ->.
    simpl in Hsel. lia.
  - unfold EnforceRulesOnFilter in Hf. by rewrite Hsel in Hf.
  - unfold EnforceRulesOnFilter in Hf. by rewrite Hsel in Hf.
Qed.

(** C2. When the rules have nothing for the table, or for the query kind,
    [findUserRules] returns the nil [QueryRules]; [EnforceRulesOnFilter]
    and [EnforceRulesOnInsert] hand it to [findRulesToApply], which reads
    its fields: the call panics where the specification returns the
    caller's query. Only [EnforceRulesOnUpdate], which tests for nil
    itself, returns the caller's document. *)
Theorem unknown_table_panics (r : Rules) (q : enforceObject)
    (table uid userState : string) (vars : enforceObject) (qt : RuleQueryType) :
  (rules r !! table = None →
   ∀ qt', findUserRules (Some r) table qt' = Ok None)
  ∧ (findUserRules (Some r) table RuleQueryUpdate = Ok None →
     EnforceRulesOnFilter inject (Some r) q table uid userState vars qt = Panic)
  ∧ (findUserRules (Some r) table RuleQueryInsert = Ok None →
     EnforceRulesOnInsert inject (Some r) q table uid userState vars = Panic)
  ∧ (rules r !! table = None →
     EnforceRulesOnUpdate inject (Some r) q table uid userState vars = Ok q).
Proof.
  unfold EnforceRulesOnFilter, EnforceRulesOnInsert, EnforceRulesOnUpdate.
  split_and!.
  - intros Htable qt'. unfold findUserRules. by rewrite Htable.
  - by intros ->.
  - by intros ->.
  - by intros ->.
Qed.

(** C4. When the table has update-filter rules and no tier has an entry for
    the principal, [EnforceRulesOnFilter] wraps the caller's filter:
    it returns [{"$and": [i, i, f]}], [i] being what the injector makes of
    the nil fragment, not [f]. *)
Theorem no_subject_filter_wrapped (r : Rules) (queryRules : QueryRules)
    (f : enforceObject) (table uid userState : string) (vars : enforceObject)
    (qt : RuleQueryType) :
  findUserRules (Some r) table RuleQueryUpdate = Ok (Some queryRules) →
  userStateRules queryRules !! userState = None →
  Forall (λ g, groupRules queryRules !! g = None) (userGroups r !!! uid) →
  userRules queryRules !! uid = None →
  EnforceRulesOnFilter inject (Some r) f table uid userState vars qt
  = Ok (Some {[ "$and" :=
                  VArr [VMap (inject None vars); VMap (inject None vars);
                        VMap f] ]}).
Proof.
  intros Hqr Hstate Hgroups Huser.
  rewrite (EnforceRulesOnFilter_selected r f table uid userState vars qt
             [None; None]); [done|].
  rewrite Hqr. by apply findRulesToApply_no_subject.
Qed.

(** An error of the selector is the error of the enforcement call: no
    rewritten query is returned. *)
Lemma selector_error_reaches_caller (r : Rules) (tableRules : TableRules)
    (q : enforceObject) (table uid userState : string) (vars : enforceObject)
    (qt : RuleQueryType) (e : error) :
  ((queryRules ← findUserRules (Some r) table RuleQueryUpdate;
     findRulesToApply (Some r) queryRules uid userState)
   = Err e →
   EnforceRulesOnFilter inject (Some r) q table uid userState vars qt = Err e)
  ∧ ((queryRules ← findUserRules (Some r) table RuleQueryInsert;
     findRulesToApply (Some r) queryRules uid userState)
     = Err e →
     EnforceRulesOnInsert inject (Some r) q table uid userState vars = Err e)
  ∧ (rules r !! table = Some (Some tableRules) →
     findRulesToApply (Some r) (updateRules tableRules) uid userState = Err e →
     EnforceRulesOnUpdate inject (Some r) q table uid userState vars = Err e).
Proof.
  unfold EnforceRulesOnFilter, EnforceRulesOnInsert, EnforceRulesOnUpdate.
  split_and!.
  - by intros ->.
  - by intros ->.
  - intros -> Hsel. rewrite Hsel.
    destruct (updateRules tableRules); [done|]. by simpl in Hsel.
Qed.

(** The query kind is not used: the selection is always made from the
    update-filter rules of the table. *)
Lemma EnforceRulesOnFilter_kind (r : Rules) (f : enforceObject)
    (table uid userState : string) (vars : enforceObject) (qt : RuleQueryType) :
  EnforceRulesOnFilter inject (Some r) f table uid userState vars qt
  = EnforceRulesOnFilter inject (Some r) f table uid userState vars RuleQueryUpdate.
Proof. reflexivity. Qed.

(** C5. An explicit deny, a subject key bound to the nil fragment, makes the
    call fail with the error of its tier, and no rewritten query is
    returned: when a tier denies the principal, the selector fails with the
    error of that tier, and so does each enforcement call that selects from
    these query rules, [EnforceRulesOnFilter], [EnforceRulesOnInsert] and
    [EnforceRulesOnUpdate], whatever the caller's query is. The state tier
    denies whenever it binds the state to nil; the first denied group of
    the user denies whether the state tier and the groups before it
    contributed a fragment or not; the user tier denies whatever the state
    tier and the groups contributed. And whenever some tier binds its
    subject to nil, one of the tiers denies. *)
Theorem explicit_deny_short_circuits (r : Rules) (queryRules : QueryRules)
    (uid userState : string) :
  (∀ e, denies r queryRules uid userState e →
        findRulesToApply (Some r) (Some queryRules) uid userState = Err e
        ∧ (∀ q table vars qt,
             findUserRules (Some r) table RuleQueryUpdate
             = Ok (Some queryRules) →
             EnforceRulesOnFilter inject (Some r) q table uid userState vars qt
             = Err e)
        ∧ (∀ q table vars,
             findUserRules (Some r) table RuleQueryInsert
             = Ok (Some queryRules) →
             EnforceRulesOnInsert inject (Some r) q table uid userState vars
             = Err e)
        ∧ (∀ q table vars tableRules,
             rules r !! table = Some (Some tableRules) →
             updateRules tableRules = Some queryRules →
             EnforceRulesOnUpdate inject (Some r) q table uid userState vars
             = Err e))
  ∧ (userStateRules queryRules !! userState = Some None
     ∨ Exists (λ g, groupRules queryRules !! g = Some None)
         (userGroups r !!! uid)
     ∨ userRules queryRules !! uid = Some None →
     ∃ e, denies r queryRules uid userState e).
Proof.
  split; [|apply some_tier_denies].
  intros e Hsel%denies_selector. split_and!; [done|..].
  - intros q table vars qt Hfind. unfold EnforceRulesOnFilter.
    rewrite Hfind. cbn [mbind outcome_bind]. by rewrite Hsel.
  - intros q table vars Hfind. unfold EnforceRulesOnInsert.
    rewrite Hfind. cbn [mbind outcome_bind]. by rewrite Hsel.
  - intros q table vars tableRules Htable Hupdate.
    unfold EnforceRulesOnUpdate. cbv beta iota.
    rewrite Htable, Hupdate. by rewrite Hsel.
Qed.
End EnforcerClaims.

(** The user [u3] is logged in and in the groups [staff] and [banned]: the
    state tier and [staff] have contributed their fragments when [banned]
    denies, and the selector and the three enforcement calls on the table
    [t] fail with the error of the group. The user [u9] holds the fragments
    of the state tier and of [staff] and is denied as a user. An anonymous
    user under the rules of S3 is denied by the state tier, whose default
    allows. *)
Lemma explicit_deny_short_circuits_witness :
  findRulesToApply (Some rulesDenyTable) (Some queryRulesDeny)
    "u3" "logged_in" = Err (EDenyGroup "banned")
  ∧ EnforceRulesOnFilter InjectMagicVars (Some rulesDenyTable) filterS1
      "t" "u3" "logged_in" (Some ∅) RuleQueryFind = Err (EDenyGroup "banned")
  ∧ EnforceRulesOnInsert (H := range_fwd) InjectMagicVars
      (Some rulesDenyTable) docCaller "t" "u3" "logged_in" (Some ∅)
    = Err (EDenyGroup "banned")
  ∧ EnforceRulesOnUpdate (H := range_fwd) InjectMagicVars
      (Some rulesDenyTable) fragSetX "t" "u3" "logged_in" (Some ∅)
    = Err (EDenyGroup "banned")
  ∧ EnforceRulesOnFilter InjectMagicVars (Some rulesDenyTable) filterS1
      "t" "u9" "logged_in" (Some ∅) RuleQueryFind = Err EDenyUser
  ∧ findRulesToApply (Some rulesDenyTable) (Some queryRulesS3)
      "u1" "anonymous" = Err (EDenyState "anonymous").
Proof.
  destruct (proj1 (explicit_deny_short_circuits (H := range_fwd)
                     InjectMagicVars rulesDenyTable queryRulesDeny
                     "u3" "logged_in") (EDenyGroup "banned"))
    as (Hsel & Hfilter & Hinsert & Hupdate).
  { right. left. split; [vm_compute; discriminate|].
    exists ["staff"], "banned", [].
    split_and!; [reflexivity| |reflexivity..].
    apply Forall_cons. split; [vm_compute; discriminate|apply Forall_nil_2]. }
  destruct (proj1 (explicit_deny_short_circuits (H := range_fwd)
                     InjectMagicVars rulesDenyTable queryRulesDeny
                     "u9" "logged_in") EDenyUser)
    as (_ & Hfilter9 & _).
  { right. right. split_and!; [vm_compute; discriminate| |reflexivity..].
    apply Forall_cons. split; [vm_compute; discriminate|apply Forall_nil_2]. }
  split_and!.
  - exact Hsel.
  - apply Hfilter. reflexivity.
  - apply Hinsert. reflexivity.
  - apply (Hupdate _ _ _ tableRulesDenyAll); reflexivity.
  - apply Hfilter9. reflexivity.
  - apply (proj1 (explicit_deny_short_circuits (H := range_fwd)
                    InjectMagicVars rulesDenyTable queryRulesS3
                    "u1" "anonymous") (EDenyState "anonymous")).
    left. split; reflexivity.
Defined.

(** The filter of S1 on a table that the rules of S1 do not have. *)
Lemma unknown_table_panics_witness :
  findUserRules (Some rulesS1) "table2" RuleQueryFind = Ok None
  ∧ EnforceRulesOnFilter InjectMagicVars (Some rulesS1) filterS1
      "table2" "u1" "logged_in" (Some ∅) RuleQueryFind = Panic
  ∧ EnforceRulesOnInsert (H := range_fwd) InjectMagicVars (Some rulesS1) filterS1
      "table2" "u1" "logged_in" (Some ∅) = Panic
  ∧ EnforceRulesOnUpdate (H := range_fwd) InjectMagicVars (Some rulesS1) filterS1
      "table2" "u1" "logged_in" (Some ∅) = Ok filterS1.
Proof.
  destruct (unknown_table_panics (H := range_fwd) InjectMagicVars rulesS1
              filterS1 "table2" "u1" "logged_in" (Some ∅) RuleQueryFind)
    as (Hnone & Hfilter & Hinsert & Hupdate).
  split_and!.
  - apply Hnone. reflexivity.
  - apply Hfilter. reflexivity.
  - apply Hinsert. reflexivity.
  - apply Hupdate. reflexivity.
Defined.

(** The user [u3] of the group [staff], logged in, filters the table [t] of
    [rulesFilter] with the filter of S1: the result has the fragments of
    the state tier, of the group and of the user, and the caller's filter
    last. *)
Lemma filter_appended_last_witness :
  ∃ resultRules l,
    (queryRules ← findUserRules (Some rulesFilter) "t" RuleQueryUpdate;
     findRulesToApply (Some rulesFilter) queryRules "u3" "logged_in")
    = Ok resultRules
    ∧ resultRules ≠ []
    ∧ l = map (λ r, VMap (InjectMagicVars r (Some ∅))) resultRules
          ++ [VMap filterS1]
    ∧ last l = Some (VMap filterS1)
    ∧ (Some {[ "$and" :=
                 VArr [VMap (Some {[ "live" := VBool true ]});
                       VMap (Some {[ "dept" := VStr "D" ]});
                       VMap (Some {[ "owner" := VStr "u3" ]});
                       VMap filterS1] ]}
       : enforceObject)
      = Some {[ "$and" := VArr l ]}.
Proof.
  apply (filter_appended_last InjectMagicVars rulesFilter filterS1
           "t" "u3" "logged_in" (Some ∅) RuleQueryFind).
  by vm_compute.
Defined.

(** S2: the user [u2], in no group, on [table1]; the specification expects
    the caller's filter [{"name":"x"}] back. *)
Lemma no_subject_filter_wrapped_witness :
  EnforceRulesOnFilter InjectMagicVars (Some rulesS1) filterS1
    "table1" "u2" "logged_in" (Some ∅) RuleQueryFind
  = Ok (Some {[ "$and" := VArr [VMap None; VMap None; VMap filterS1] ]})
  ∧ EnforceRulesOnFilter InjectMagicVars (Some rulesS1) filterS1
      "table1" "u2" "logged_in" (Some ∅) RuleQueryFind
    ≠ Ok filterS1.
Proof.
  assert (EnforceRulesOnFilter InjectMagicVars (Some rulesS1) filterS1
            "table1" "u2" "logged_in" (Some ∅) RuleQueryFind
          = Ok (Some {[ "$and" := VArr [VMap None; VMap None; VMap filterS1] ]}))
    as Hrun.
  { apply (no_subject_filter_wrapped InjectMagicVars rulesS1 emptyQueryRules
             filterS1 "table1" "u2" "logged_in" (Some ∅) RuleQueryFind).
    - reflexivity.
    - reflexivity.
    - vm_compute. constructor.
    - reflexivity. }
  split; [exact Hrun|].
  rewrite Hrun. intros Heq.
  apply (f_equal (λ o : outcome enforceObject,
                    match o with
                    | Ok (Some m) => m !! "name"
                    | _ => None
                    end)) in Heq.
  vm_compute in Heq. discriminate.
Defined.

(** The configuration of S1 has no map of two entries: it compiles to
    [rulesS1] in whatever order the maps are ranged over. *)
Lemma CompileRawRules_S1 `{RangeOrder} {U : UnicodeLower} :
  CompileRawRules (Some cfgS1) = Ok (Some rulesS1).
Proof.
  unfold CompileRawRules.
  change (validateStruct cfgS1) with true. cbv iota.
  unfold compileGroups, cfgS1, noEnforces. cbn [Groups cfg_Rules].
  rewrite !range_singleton. cbn [fold_left foldlM fst snd].
  unfold compileTable, compileQueryEnforces.
  cbn [te_Find te_Count te_Remove te_Insert te_Update uqe_Filter uqe_Update].
  rewrite !range_singleton, !range_empty. cbn [foldlM mbind outcome_bind].
  unfold validateUpdateRules, validateFragments.
  cbn [userStateRules groupRules userRules defaultRules updateRules].
  rewrite !range_empty. cbn [foldlM mbind outcome_bind].
  unfold mergeUpdate, mergeUpdate_fragment, mergeUpdate_assemble, range_obj.
  cbn [foldlM mbind outcome_bind].
  rewrite !range_empty. cbn [foldlM mbind outcome_bind fold_left].
  by vm_compute.
Qed.

(** C1. Scenario S1 on the code. The compiler makes [rulesS1] of the
    configuration, with the fragment [{"tenant":"T"}] under the find rules
    of [table1]; called with the kind [find], [EnforceRulesOnFilter] selects
    from the update-filter rules instead, which are empty, and returns
    [{"$and": [i, i, {"name":"x"}]}], [i] being what the injector makes of
    the nil fragment. The fragment of the find rules is not in it, and the
    result is not the [{"$and":[{"tenant":"T"},{"name":"x"}]}] of the
    specification. *)
Theorem filter_S1_consults_update_rules `{RangeOrder} {U : UnicodeLower}
    (inject : enforceObject → enforceObject → enforceObject) :
  CompileRawRules (Some cfgS1) = Ok (Some rulesS1)
  ∧ findUserRules (Some rulesS1) "table1" RuleQueryFind
    = Ok (Some {| groupRules :=
                    {[ "admins" := Some {[ "tenant" := VStr "T" ]} ]};
                  userRules := ∅; userStateRules := ∅;
                  defaultRules := Some ∅ |})
  ∧ EnforceRulesOnFilter inject (Some rulesS1) filterS1
      "table1" "u1" "logged_in" (Some ∅) RuleQueryFind
    = Ok (Some {[ "$and" :=
                    VArr [VMap (inject None (Some ∅));
                          VMap (inject None (Some ∅)); VMap filterS1] ]})
  ∧ EnforceRulesOnFilter inject (Some rulesS1) filterS1
      "table1" "u1" "logged_in" (Some ∅) RuleQueryFind
    ≠ Ok (Some {[ "$and" :=
                    VArr [VMap (Some {[ "tenant" := VStr "T" ]});
                          VMap filterS1] ]}).
Proof.
  assert (EnforceRulesOnFilter inject (Some rulesS1) filterS1
            "table1" "u1" "logged_in" (Some ∅) RuleQueryFind
          = Ok (Some {[ "$and" :=
                          VArr [VMap (inject None (Some ∅));
                                VMap (inject None (Some ∅)); VMap filterS1] ]}))
    as Hrun.
  { apply (EnforceRulesOnFilter_selected inject rulesS1 filterS1 "table1" "u1"
             "logged_in" (Some ∅) RuleQueryFind [None; None]).
    reflexivity. }
  split_and!; [apply CompileRawRules_S1|reflexivity|exact Hrun|].
  rewrite Hrun. intros Heq.
  apply (f_equal (λ o : outcome enforceObject,
                    match o with
                    | Ok (Some m) => m !! "$and"
                    | _ => None
                    end)) in Heq.
  rewrite !lookup_singleton_eq in Heq. discriminate.
Qed.

(** ** Properties of the table *)

Section Table.
Implicit Types (ws : list (string * updateMergeItem)).
Implicit Types (t : gmap string updateMergeItem).

Lemma apply_writes_app ws1 ws2 t :
  apply_writes (ws1 ++ ws2) t = apply_writes ws2 (apply_writes ws1 t).
Proof. apply fold_left_app. Qed.

(** A field that no write names keeps its entry. *)
Lemma apply_writes_untouched ws t x :
  Forall (λ w, w.1 ≠ x) ws → apply_writes ws t !! x = t !! x.
Proof.
  intros Hws. revert t.
  induction Hws as [|w ws Hw _ IH]; intros t; simpl; [done|].
  unfold apply_writes in IH. rewrite IH. by apply lookup_insert_ne.
Qed.

(** A field that some write names holds the item of one of these writes,
    the last one. *)
Lemma apply_writes_written ws t x :
  Exists (λ w, w.1 = x) ws →
  ∃ item, (x, item) ∈ ws ∧ apply_writes ws t !! x = Some item.
Proof.
  induction ws as [|w ws IH] using rev_ind; intros Hex.
  - by apply Exists_nil in Hex.
  - rewrite apply_writes_app. simpl.
    destruct (decide (w.1 = x)) as [<-|Hne].
    + exists w.2. rewrite lookup_insert_eq. split; [|done].
      apply elem_of_app. right. destruct w. apply list_elem_of_singleton. done.
    + rewrite lookup_insert_ne by done.
      apply Exists_app in Hex as [Hex|Hex].
      * destruct (IH Hex) as (item & Hin & Hlook).
        exists item. split; [|done]. apply elem_of_app. by left.
      * apply Exists_cons in Hex as [Hex|Hex]; [done|].
        by apply Exists_nil in Hex.
Qed.

(** Every entry of the table was put there by a write or was there before. *)
Lemma apply_writes_origin ws t x item :
  apply_writes ws t !! x = Some item → (x, item) ∈ ws ∨ t !! x = Some item.
Proof.
  destruct (decide (Exists (λ w, w.1 = x) ws)) as [Hex|Hnex].
  - destruct (apply_writes_written ws t x Hex) as (item' & Hin & ->).
    intros [= <-]. by left.
  - apply not_Exists_Forall in Hnex; [|intros w; apply _].
    rewrite apply_writes_untouched; [by right|].
    eapply Forall_impl; [exact Hnex|]. simpl. intros w Hw Heq. by apply Hw.
Qed.
End Table.

(** ** Properties of the update merger *)

Section MergeUpdate.
Context `{RangeOrder}.
Implicit Types (d : enforceObject) (m : gmap string value).
Implicit Types (t : gmap string updateMergeItem).

Lemma isUpdateOperator_prefix k : isUpdateOperator k = true → HasPrefix k "$" = true.
Proof.
  unfold isUpdateOperator. rewrite !orb_true_iff, !String.eqb_eq.
  intros [[[[[->| ->]| ->]| ->]| ->]| ->]; reflexivity.
Qed.

Lemma operatorEntry_prefix k v : operatorEntry k v → HasPrefix k "$" = true.
Proof. intros [[Hop _]| ->]; [by apply isUpdateOperator_prefix|reflexivity]. Qed.

(** The inner loop of an operator is the table after its writes. *)
Lemma operator_writes k (l : list (string * value)) t :
  fold_left (λ result fa, <[fa.1 := {| op := k; argument := fa.2 |}]> result) l t
  = apply_writes (map (λ fa, (fa.1, {| op := k; argument := fa.2 |})) l) t.
Proof. revert t. induction l as [|fa l IH]; intros t; simpl; [done|apply IH]. Qed.

(** The loop over the keys of a bare-form fragment does not fail. *)
Lemma mergeUpdate_keys_bare (l : list (string * value)) useNormalSet t :
  Forall (λ kv, HasPrefix kv.1 "$" = false) l →
  ∃ useNormalSet',
    foldlM mergeUpdate_key l (false, useNormalSet, t)
    = Ok (false, useNormalSet', apply_writes (l ≫= writes_of_key) t).
Proof.
  intros Hl. revert useNormalSet t.
  induction Hl as [|[k v] l Hk _ IH]; intros useNormalSet t; simpl in *.
  - by eexists.
  - unfold mergeUpdate_flags, writes_of_key. simpl. rewrite Hk. simpl.
    apply IH.
Qed.

(** The loop over the keys of a dollar-form fragment does not fail. *)
Lemma mergeUpdate_keys_dollar (l : list (string * value)) useDollarOp t :
  Forall (λ kv, operatorEntry kv.1 kv.2) l →
  ∃ useDollarOp',
    foldlM mergeUpdate_key l (useDollarOp, false, t)
    = Ok (useDollarOp', false, apply_writes (l ≫= writes_of_key) t).
Proof.
  intros Hl. revert useDollarOp t.
  induction Hl as [|[k v] l Hk _ IH]; intros useDollarOp t; simpl in *.
  - by eexists.
  - unfold mergeUpdate_flags, writes_of_key. simpl.
    rewrite (operatorEntry_prefix _ _ Hk). simpl.
    destruct Hk as [[Hop [ov ->]]| ->].
    + rewrite Hop. simpl. rewrite operator_writes, apply_writes_app. apply IH.
    + simpl. apply IH.
Qed.

(** One round over a well-formed fragment makes the writes of the
    fragment. *)
Lemma mergeUpdate_fragment_wf t d :
  wellFormed d →
  mergeUpdate_fragment t d = Ok (apply_writes (writes d) t).
Proof.
  unfold mergeUpdate_fragment, writes. destruct d as [m|]; simpl; [|done].
  intros [Hbare|Hdollar].
  - destruct (mergeUpdate_keys_bare (range m) false t) as [b ->]; [|done].
    apply Forall_forall. intros [k v] Hkv. apply elem_of_range in Hkv.
    exact (Hbare _ _ Hkv).
  - destruct (mergeUpdate_keys_dollar (range m) false t) as [b ->]; [|done].
    apply Forall_forall. intros [k v] Hkv. apply elem_of_range in Hkv.
    exact (Hdollar _ _ Hkv).
Qed.

(** The loop over well-formed fragments makes their writes one fragment
    after the other. *)
Lemma mergeUpdate_fragments_wf (q : list enforceObject) t :
  Forall wellFormed q →
  foldlM mergeUpdate_fragment q t = Ok (apply_writes (q ≫= writes) t).
Proof.
  intros Hq. revert t.
  induction Hq as [|d q Hd _ IH]; intros t; simpl; [done|].
  rewrite (mergeUpdate_fragment_wf _ _ Hd). simpl.
  rewrite apply_writes_app. apply IH.
Qed.

(** The writes of a fragment are its entries. *)
Lemma elem_of_writes d x item : (x, item) ∈ writes d ↔ entry d x item.
Proof.
  unfold writes, entry. rewrite list_elem_of_bind. split.
  - intros ([k v] & Hw & Hkv). destruct d as [m|]; simpl in Hkv; [|inversion Hkv].
    apply elem_of_range in Hkv. exists m. split; [done|].
    unfold writes_of_key in Hw. simpl in Hw.
    destruct (HasPrefix k "$") eqn:Hk.
    + destruct (isUpdateOperator k) eqn:Hop; [|inversion Hw].
      destruct v as [| | | | |ov]; try by inversion Hw.
      apply list_elem_of_fmap in Hw as ([f a] & [= -> ->] & Hfa). simpl in *.
      destruct ov as [ov|]; simpl in Hfa; [|inversion Hfa].
      apply elem_of_range in Hfa. right. eauto.
    + apply list_elem_of_singleton in Hw as [= -> ->]. simpl. by left.
  - intros (m & -> & [(Hx & Hop & Hm)|(Hop & ov & Hm & Hov)]).
    + exists (x, argument item). split; [|by apply elem_of_range].
      unfold writes_of_key. simpl. rewrite Hx.
      apply list_elem_of_singleton. destruct item; simpl in *. by subst.
    + exists (op item, VMap (Some ov)). split; [|by apply elem_of_range].
      unfold writes_of_key. simpl.
      rewrite (isUpdateOperator_prefix _ Hop), Hop.
      apply list_elem_of_fmap. exists (x, argument item).
      split; [by destruct item|]. by apply elem_of_range.
Qed.

Lemma mentions_writes d x : mentions d x ↔ Exists (λ w, w.1 = x) (writes d).
Proof.
  unfold mentions. rewrite Exists_exists. split.
  - intros [item Hitem]. exists (x, item). by rewrite elem_of_writes.
  - intros ([x' item] & Hin & Hx). simpl in Hx. subst x'.
    exists item. by apply elem_of_writes.
Qed.

(** Fragments that do not mention a field leave its entry as it is. *)
Lemma apply_writes_not_mentioned (q : list enforceObject) t x :
  Forall (λ d, ¬ mentions d x) q →
  apply_writes (q ≫= writes) t !! x = t !! x.
Proof.
  intros Hq. apply apply_writes_untouched, Forall_forall.
  intros [x' item] Hin Hx. simpl in Hx. subst x'.
  apply list_elem_of_bind in Hin as (d & Hin & Hd).
  rewrite Forall_forall in Hq. apply (Hq d Hd).
  exists item. by apply elem_of_writes.
Qed.
End MergeUpdate.

(** ** Properties of the final assembly *)

Section Assemble.
Context `{RangeOrder}.
Implicit Types (o : gmap string (gmap string value)).
Implicit Types (l : list (string * updateMergeItem)).

(** The loop puts every item of the list under its operator and keeps what
    the document held, as long as the fields of the list are distinct and
    new to the document. *)
Lemma assemble_lookup l o k f arg :
  NoDup l.*1 →
  (∀ f' item, (f', item) ∈ l → ∀ k' ov, o !! k' = Some ov → ov !! f' = None) →
  (∃ ov, fold_left assemble_step l o !! k = Some ov ∧ ov !! f = Some arg)
  ↔ ((∃ ov, o !! k = Some ov ∧ ov !! f = Some arg)
     ∨ (f, {| op := k; argument := arg |}) ∈ l).
Proof.
  revert o. induction l as [|[f0 [k0 a0]] l IH]; intros o Hdup Hfresh; simpl.
  - split; [by left|]. intros [?|Hin]; [done|inversion Hin].
  - apply NoDup_cons in Hdup as [Hf0 Hdup]. rewrite IH; [|done|].
    + unfold assemble_step. simpl. rewrite elem_of_cons. split.
      * intros [(ov & Hk & Hf)|Hin]; [|by right; right].
        destruct (decide (k0 = k)) as [->|Hne].
        -- rewrite lookup_insert_eq in Hk. injection Hk as <-.
           destruct (decide (f0 = f)) as [->|Hnef].
           ++ rewrite lookup_insert_eq in Hf. injection Hf as <-.
              right. by left.
           ++ rewrite lookup_insert_ne in Hf by done. left.
              destruct (o !! k) as [ov|]; simpl in Hf; [by eauto|].
              by rewrite lookup_empty in Hf.
        -- rewrite lookup_insert_ne in Hk by done. left. by eauto.
      * intros [(ov & Hk & Hf)|[[= -> -> ->]|Hin]]; [| |by right].
        -- left. destruct (decide (k0 = k)) as [->|Hne].
           ++ rewrite lookup_insert_eq, Hk. simpl. eexists. split; [done|].
              rewrite lookup_insert_ne; [done|]. intros ->.
              assert (ov !! f = None) as Hnone; [|by rewrite Hnone in Hf].
              apply (Hfresh f (Build_updateMergeItem k a0)) with k; [by left|done].
           ++ rewrite lookup_insert_ne by done. by eauto.
        -- left. rewrite lookup_insert_eq. eexists. split; [done|].
           by rewrite lookup_insert_eq.
    + intros f' item Hin k' ov. unfold assemble_step. simpl.
      assert (f0 ≠ f') as Hnef.
      { intros ->. apply Hf0. apply list_elem_of_fmap. by exists (f', item). }
      destruct (decide (k0 = k')) as [->|Hne].
      * rewrite lookup_insert_eq. intros [= <-].
        rewrite lookup_insert_ne by done.
        destruct (o !! k') as [ov|] eqn:Hk'; simpl; [|apply lookup_empty].
        apply (Hfresh f' item) with k'; [by right|done].
      * rewrite lookup_insert_ne by done.
        apply (Hfresh f' item). by right.
Qed.

(** No operator of the document is left without a field. *)
Lemma assemble_nonempty l o k ov :
  (∀ k' ov', o !! k' = Some ov' → ov' ≠ ∅) →
  fold_left assemble_step l o !! k = Some ov → ov ≠ ∅.
Proof.
  revert o. induction l as [|[f0 [k0 a0]] l IH]; intros o Ho; simpl.
  - apply Ho.
  - apply IH. intros k' ov'. unfold assemble_step. simpl.
    destruct (decide (k0 = k')) as [->|Hne].
    + rewrite lookup_insert_eq. intros [= <-]. apply insert_non_empty.
    + rewrite lookup_insert_ne by done. apply Ho.
Qed.

Lemma mergeUpdate_assemble_fold (t : gmap string updateMergeItem) :
  mergeUpdate_assemble t = fold_left assemble_step (range t) ∅.
Proof. reflexivity. Qed.

(** The query object made of a table holds the items of the table, each
    under its operator, and nothing else. *)
Lemma mergeUpdate_assemble_lookup (t : gmap string updateMergeItem) k f arg :
  (∃ ov, mergeUpdate_assemble t !! k = Some ov ∧ ov !! f = Some arg)
  ↔ t !! f = Some {| op := k; argument := arg |}.
Proof.
  rewrite mergeUpdate_assemble_fold, assemble_lookup.
  - rewrite elem_of_range. split; [|by right].
    intros [(ov & Hk & _)|Ht]; [|done]. by rewrite lookup_empty in Hk.
  - apply NoDup_fst_range.
  - intros f' item _ k' ov Hk'. by rewrite lookup_empty in Hk'.
Qed.

Lemma mergeUpdate_assemble_nonempty (t : gmap string updateMergeItem) k ov :
  mergeUpdate_assemble t !! k = Some ov → ov ≠ ∅.
Proof.
  rewrite mergeUpdate_assemble_fold. apply assemble_nonempty.
  intros k' ov' Hk'. by rewrite lookup_empty in Hk'.
Qed.

Lemma mergeUpdate_assemble_empty : mergeUpdate_assemble ∅ = ∅.
Proof. rewrite mergeUpdate_assemble_fold. by rewrite range_empty. Qed.

(** The same for the document that [mergeUpdate] returns. *)
Lemma assigns_assemble (t : gmap string updateMergeItem) k f arg :
  assigns ((λ ov, VMap (Some ov)) <$> mergeUpdate_assemble t) k f arg
  ↔ t !! f = Some {| op := k; argument := arg |}.
Proof.
  rewrite <- mergeUpdate_assemble_lookup. unfold assigns.
  setoid_rewrite lookup_fmap. split.
  - intros (ov & Hk & Hf).
    destruct (mergeUpdate_assemble t !! k) as [ov'|]; simpl in Hk; [|done].
    injection Hk as ->. by eauto.
  - intros (ov & Hk & Hf). exists ov. by rewrite Hk.
Qed.

(** [mergeUpdate] does not fail on well-formed fragments: it returns the
    query object of the table after all their writes. *)
Lemma mergeUpdate_wf (q : list enforceObject) :
  q ≠ [] → Forall wellFormed q →
  mergeUpdate q
  = Ok (Some ((λ ov, VMap (Some ov))
              <$> mergeUpdate_assemble (apply_writes (q ≫= writes) ∅))).
Proof.
  intros Hne Hq. unfold mergeUpdate. destruct q as [|d q]; [done|].
  by rewrite (mergeUpdate_fragments_wf _ _ Hq).
Qed.
End Assemble.

(** ** Bare-form documents through the merger *)

Section BareForm.
Context `{RangeOrder}.

(** The table that a bare-form document writes: every field under [$set]. *)
Lemma bare_table (m : gmap string value) :
  bareForm m →
  apply_writes (writes (Some m)) ∅
  = (λ v, {| op := "$set"; argument := v |}) <$> m.
Proof.
  intros Hbare.
  assert (∀ f item, entry (Some m) f item →
            item = {| op := "$set"; argument := argument item |}
            ∧ m !! f = Some (argument item)) as Hentry.
  { intros f item (m' & [= <-] & [(_ & Hop & Hm)|(Hop & ov & Hm & _)]).
    - destruct item; simpl in *. by subst.
    - apply isUpdateOperator_prefix in Hop.
      rewrite (Hbare _ _ Hm) in Hop. discriminate. }
  apply map_eq. intros f. rewrite lookup_fmap. apply option_eq. intros item.
  split.
  - intros Hf. apply apply_writes_origin in Hf as [Hin|Hf];
      [|by rewrite lookup_empty in Hf].
    apply elem_of_writes, Hentry in Hin as [-> ->]. done.
  - destruct (m !! f) as [a|] eqn:Hm; simpl; [|done]. intros [= <-].
    destruct (apply_writes_written (writes (Some m)) ∅ f)
      as (item & Hin & ->).
    + apply mentions_writes. exists {| op := "$set"; argument := a |}.
      exists m. split; [done|]. left. split_and!; [|done..].
      exact (Hbare _ _ Hm).
    + apply elem_of_writes, Hentry in Hin as [-> Hm'].
      rewrite Hm in Hm'. by injection Hm' as <-.
Qed.

(** The query object of that table: the document under [$set], and nothing
    when the document has no field. *)
Lemma bare_assemble (m : gmap string value) :
  (λ ov, VMap (Some ov))
  <$> mergeUpdate_assemble ((λ v, {| op := "$set"; argument := v |}) <$> m)
  = if decide (m = ∅) then ∅ else {[ "$set" := VMap (Some m) ]}.
Proof.
  set (t := (λ v, {| op := "$set"; argument := v |}) <$> m).
  case_decide as Hm.
  - subst t m. by rewrite fmap_empty, mergeUpdate_assemble_empty, fmap_empty.
  - assert (∀ k ov, mergeUpdate_assemble t !! k = Some ov → k = "$set" ∧ ov = m)
      as Hov.
    { intros k ov Hk.
      assert (∀ f arg, ov !! f = Some arg
                       ↔ t !! f = Some {| op := k; argument := arg |}) as Hf.
      { intros f arg. rewrite <- mergeUpdate_assemble_lookup. split; [by eauto|].
        intros (ov' & Hk' & Hf). rewrite Hk in Hk'. by injection Hk' as <-. }
      assert (k = "$set") as ->.
      { apply mergeUpdate_assemble_nonempty in Hk.
        apply map_choose in Hk as (f & arg & Hfa). apply Hf in Hfa.
        subst t. rewrite lookup_fmap in Hfa.
        destruct (m !! f); simpl in Hfa; [|done]. by injection Hfa. }
      split; [done|]. apply map_eq. intros f. apply option_eq. intros arg.
      rewrite Hf. subst t. rewrite lookup_fmap.
      destruct (m !! f) as [a|]; simpl; [|done].
      split; [by intros [= ->]|by intros [= ->]]. }
    apply map_eq. intros k. rewrite lookup_fmap.
    destruct (mergeUpdate_assemble t !! k) as [ov|] eqn:Hk; simpl.
    + apply Hov in Hk as [-> ->]. by rewrite lookup_singleton_eq.
    + destruct (decide (k = "$set")) as [->|Hne];
        [|by rewrite lookup_singleton_ne].
      apply map_choose in Hm as (f & a & Hfa).
      assert (∃ ov, mergeUpdate_assemble t !! "$set" = Some ov
                    ∧ ov !! f = Some a) as (ov & Hset & _).
      { apply mergeUpdate_assemble_lookup. subst t.
        by rewrite lookup_fmap, Hfa. }
      by rewrite Hset in Hk.
Qed.

(** A bare-form document merged with an empty one. *)
Lemma mergeUpdate_bare (m : gmap string value) :
  bareForm m →
  mergeUpdate [Some m; Some ∅]
  = Ok (Some (if decide (m = ∅) then ∅ else {[ "$set" := VMap (Some m) ]})).
Proof.
  intros Hbare. rewrite mergeUpdate_wf; [|done|].
  - simpl. unfold writes at 2. simpl. rewrite range_empty. simpl.
    rewrite !app_nil_r. by rewrite bare_table, bare_assemble.
  - apply Forall_cons. split; [by left|].
    apply Forall_cons. split; [|done]. left. apply map_Forall_empty.
Qed.

(** Nil fragments merge to the empty document. *)
Lemma mergeUpdate_nil_nil : mergeUpdate [None; None] = Ok (Some ∅).
Proof.
  rewrite mergeUpdate_wf; [|done|by apply Forall_cons; split; [|apply Forall_cons]].
  simpl. unfold apply_writes. simpl.
  by rewrite mergeUpdate_assemble_empty, fmap_empty.
Qed.

(** A nil document merged with an empty one. *)
Lemma mergeUpdate_nil_empty : mergeUpdate [None; Some ∅] = Ok (Some ∅).
Proof.
  rewrite mergeUpdate_wf; [|done|].
  - simpl. unfold writes. simpl. rewrite range_empty. simpl.
    unfold apply_writes. simpl.
    by rewrite mergeUpdate_assemble_empty, fmap_empty.
  - apply Forall_cons. split; [done|].
    apply Forall_cons. split; [|done]. left. apply map_Forall_empty.
Qed.
End BareForm.

(** ** The scenarios S4 and S6 on the model *)

(** S4: the caller's [{"$set":{"role":"guest","name":"n"}}] merged with the
    rule's [{"$set":{"role":"admin"}}]. *)
Example mergeUpdate_S4 :
  mergeUpdate (H := range_fwd)
    [Some {[ "$set" := VMap (Some {[ "role" := VStr "guest";
                                     "name" := VStr "n" ]}) ]};
     Some {[ "$set" := VMap (Some {[ "role" := VStr "admin" ]}) ]}]
  = Ok (Some {[ "$set" := VMap (Some {[ "role" := VStr "admin";
                                        "name" := VStr "n" ]}) ]}).
Proof. by vm_compute. Qed.

(** S6: the token [@@uid] with the variables [{uid:"u7"}]. *)
Example InjectMagicVars_S6 :
  InjectMagicVars (Some {[ "owner" := VStr "@@uid" ]})
    (Some {[ "uid" := VStr "u7" ]})
  = Some {[ "owner" := VStr "u7" ]}.
Proof. by vm_compute. Qed.

(** ** Claims on the update merger *)

(** C6. Last writer wins per field, whatever the operators. Take well-formed
    fragments [q1 ++ b :: q2] where [b] carries an entry for the field [x]
    and no fragment after [b] mentions [x]; the fragments [q1] before [b]
    are arbitrary, so any of them may carry an entry for [x] under any
    operator. Then in whatever order the maps are ranged over, [mergeUpdate]
    returns a document [o], made of the table [result] of the surviving
    entries, in which [x] is assigned under exactly one operator, with the
    operator and argument of an entry that [b] carries for [x]; and [o]
    groups the table by operator: it assigns [f] the argument [arg] under
    the operator [k] exactly when the table holds [(k, arg)] for [f]. *)
Theorem mergeUpdate_last_writer_wins `{RangeOrder}
    (q1 q2 : list enforceObject) (b : enforceObject) (x : string) :
  Forall wellFormed (q1 ++ b :: q2) →
  mentions b x →
  Forall (λ d, ¬ mentions d x) q2 →
  ∃ result o,
    foldlM mergeUpdate_fragment (q1 ++ b :: q2) ∅ = Ok result
    ∧ mergeUpdate (q1 ++ b :: q2) = Ok (Some o)
    ∧ (∃ item,
         entry b x item
         ∧ result !! x = Some item
         ∧ ∀ k arg, assigns o k x arg ↔ k = op item ∧ arg = argument item)
    ∧ (∀ k f arg,
         assigns o k f arg ↔ result !! f = Some {| op := k; argument := arg |}).
Proof.
  intros Hwf Hb Hq2.
  exists (apply_writes ((q1 ++ b :: q2) ≫= writes) ∅).
  eexists. split_and!.
  - by apply mergeUpdate_fragments_wf.
  - apply mergeUpdate_wf; [by destruct q1|done].
  - rewrite bind_app, bind_cons, !apply_writes_app.
    rewrite (apply_writes_not_mentioned _ _ _ Hq2).
    apply mentions_writes in Hb.
    destruct (apply_writes_written (writes b) (apply_writes (q1 ≫= writes) ∅)
                x Hb) as (item & Hin & Hx).
    exists item. split_and!; [by apply elem_of_writes|done|].
    intros k arg. rewrite assigns_assemble.
    rewrite ?bind_app, ?bind_cons, ?apply_writes_app.
    rewrite ?(apply_writes_not_mentioned _ _ _ Hq2), Hx.
    destruct item as [k0 a0]. simpl. split; [by intros [= -> ->]|].
    by intros [-> ->].
  - intros k f arg. apply assigns_assemble.
Qed.

(** [{"$set":{"x":1}}], then [{"$inc":{"x":2}}], then [{"z":3}]: the field
    [x] ends under the operator of the second fragment. *)
Lemma mergeUpdate_last_writer_wins_witness :
  ∃ result o,
    foldlM (mergeUpdate_fragment (H := range_fwd))
      ([fragSetX] ++ fragIncX :: [fragBareZ]) ∅ = Ok result
    ∧ mergeUpdate (H := range_fwd) ([fragSetX] ++ fragIncX :: [fragBareZ])
      = Ok (Some o)
    ∧ (∃ item,
         entry fragIncX "x" item
         ∧ result !! "x" = Some item
         ∧ ∀ k arg, assigns o k "x" arg ↔ k = op item ∧ arg = argument item)
    ∧ (∀ k f arg,
         assigns o k f arg ↔ result !! f = Some {| op := k; argument := arg |}).
Proof.
  apply (mergeUpdate_last_writer_wins (H := range_fwd)
           [fragSetX] [fragBareZ] fragIncX "x").
  - repeat (apply Forall_cons; split); [| | |apply Forall_nil_2].
    + right. apply map_Forall_singleton. left. split; [reflexivity|by eexists].
    + right. apply map_Forall_singleton. left. split; [reflexivity|by eexists].
    + left. apply map_Forall_singleton. reflexivity.
  - exists {| op := "$inc"; argument := VNum 2 |}. eexists. split; [reflexivity|].
    right. split; [reflexivity|]. eexists. split; reflexivity.
  - apply Forall_cons. split; [|apply Forall_nil_2].
    intros (item & m & [= <-] & [(_ & _ & Hz)|(_ & ov & Hz & _)]).
    + vm_compute in Hz. discriminate.
    + apply lookup_singleton_Some in Hz as [_ Hz]. discriminate.
Defined.

(** ** Claims on [EnforceRulesOnUpdate] *)

(** When no tier has an entry for the principal, the update is the caller's
    document merged with what the injector makes of the empty document. *)
Lemma EnforceRulesOnUpdate_no_subject `{RangeOrder}
    (inject : enforceObject → enforceObject → enforceObject)
    (r : Rules) (tableRules : TableRules) (queryRules : QueryRules)
    (d : enforceObject) (table uid userState : string) (vars : enforceObject) :
  rules r !! table = Some (Some tableRules) →
  updateRules tableRules = Some queryRules →
  userStateRules queryRules !! userState = None →
  Forall (λ g, groupRules queryRules !! g = None) (userGroups r !!! uid) →
  userRules queryRules !! uid = None →
  EnforceRulesOnUpdate inject (Some r) d table uid userState vars
  = mergeUpdate [d; inject (Some ∅) vars].
Proof.
  intros Htable Hupdate Hstate Hgroups Huser. unfold EnforceRulesOnUpdate.
  rewrite Htable, Hupdate.
  rewrite (findRulesToApply_no_subject _ _ _ _ Hstate Hgroups Huser).
  change ((mergeUpdate [None; None]
           ≫= λ update, mergeUpdate [d; inject update vars])
          = mergeUpdate [d; inject (Some ∅) vars]).
  by rewrite mergeUpdate_nil_nil.
Qed.

(** C10, amended. For a table that has compiled update rules and a principal
    that no tier has an entry for, the caller's update goes through the
    merger: a bare-form document [m] with at least one field comes back as
    [{"$set": m}]; the empty document and the nil document come back as the
    empty document. *)
Theorem update_of_no_subject_lifted `{RangeOrder}
    (r : Rules) (tableRules : TableRules) (queryRules : QueryRules)
    (table uid userState : string) (vars : enforceObject) :
  rules r !! table = Some (Some tableRules) →
  updateRules tableRules = Some queryRules →
  userStateRules queryRules !! userState = None →
  Forall (λ g, groupRules queryRules !! g = None) (userGroups r !!! uid) →
  userRules queryRules !! uid = None →
  (∀ m : gmap string value,
     bareForm m → m ≠ ∅ →
     EnforceRulesOnUpdate InjectMagicVars (Some r) (Some m) table uid userState vars
     = Ok (Some {[ "$set" := VMap (Some m) ]}))
  ∧ EnforceRulesOnUpdate InjectMagicVars (Some r) (Some ∅) table uid userState vars
    = Ok (Some ∅)
  ∧ EnforceRulesOnUpdate InjectMagicVars (Some r) None table uid userState vars
    = Ok (Some ∅).
Proof.
  intros Htable Hupdate Hstate Hgroups Huser.
  assert (∀ d, EnforceRulesOnUpdate InjectMagicVars (Some r) d table uid userState vars
               = mergeUpdate [d; Some ∅]) as Hrun.
  { intros d.
    rewrite (EnforceRulesOnUpdate_no_subject InjectMagicVars r tableRules
               queryRules d table uid userState vars) by done.
    simpl. by rewrite fmap_empty. }
  split_and!.
  - intros m Hbare Hm. rewrite Hrun, (mergeUpdate_bare m Hbare).
    by rewrite decide_False.
  - rewrite Hrun, (mergeUpdate_bare ∅); [|apply map_Forall_empty].
    by rewrite decide_True.
  - rewrite Hrun. apply mergeUpdate_nil_empty.
Qed.

(** On the rules of S1, whose [table1] has update rules that are empty, the
    user [u2] sends the bare-form update [{"name":"x"}]. *)
Lemma update_of_no_subject_lifted_witness :
  EnforceRulesOnUpdate (H := range_fwd) InjectMagicVars (Some rulesS1)
    (Some {[ "name" := VStr "x" ]}) "table1" "u2" "logged_in" (Some ∅)
  = Ok (Some {[ "$set" := VMap (Some {[ "name" := VStr "x" ]}) ]}).
Proof.
  refine (proj1 (update_of_no_subject_lifted (H := range_fwd) rulesS1
                   {| table_rules := _; updateRules := Some emptyQueryRules |}
                   emptyQueryRules "table1" "u2" "logged_in" (Some ∅)
                   _ _ _ _ _) {[ "name" := VStr "x" ]} _ _).
  - reflexivity.
  - reflexivity.
  - reflexivity.
  - vm_compute. constructor.
  - reflexivity.
  - apply map_Forall_singleton. reflexivity.
  - apply insert_non_empty.
Defined.

(** C10 as stated fails for the empty document, which is bare-form: on the
    rules of S1, the update [{}] of the user [u2] on [table1] comes back as
    [{}], not as [{"$set": {}}]. *)
Lemma update_of_empty_not_lifted :
  bareForm ∅
  ∧ findRulesToApply (Some rulesS1) (Some emptyQueryRules) "u2" "logged_in"
    = Ok [None; None]
  ∧ EnforceRulesOnUpdate (H := range_fwd) InjectMagicVars (Some rulesS1)
      (Some ∅) "table1" "u2" "logged_in" (Some ∅)
    = Ok (Some ∅)
  ∧ EnforceRulesOnUpdate (H := range_fwd) InjectMagicVars (Some rulesS1)
      (Some ∅) "table1" "u2" "logged_in" (Some ∅)
    ≠ Ok (Some {[ "$set" := VMap (Some ∅) ]}).
Proof.
  split_and!; [apply map_Forall_empty|reflexivity|by vm_compute|].
  intros Heq.
  apply (f_equal (λ o : outcome enforceObject,
                    match o with
                    | Ok (Some m) => m !! "$set"
                    | _ => None
                    end)) in Heq.
  vm_compute in Heq. discriminate.
Qed.

(** ** Properties of the rule compiler: the groups index *)

Section GroupsIndex.
Context `{RangeOrder} {U : UnicodeLower}.
Implicit Types (cfg : RulesConfig) (r : Rules).

Lemma compileGroup_userGroups groupName userNames r uid :
  userGroups (compileGroup groupName userNames r) !!! uid
  = userGroups r !!! uid
    ++ ((λ _, groupName) <$> filter (λ userName, userName = uid) userNames).
Proof.
  unfold compileGroup.
  revert r. induction userNames as [|u userNames IH]; intros r; simpl.
  - by rewrite app_nil_r.
  - rewrite IH. simpl.
    destruct (decide (u = uid)) as [->|Hne].
    + rewrite lookup_total_insert_eq, filter_cons_True by done.
      by rewrite <- app_assoc.
    + by rewrite lookup_total_insert_ne, filter_cons_False.
Qed.

Lemma compileGroups_userGroups cfg r uid :
  userGroups (compileGroups cfg r) !!! uid
  = userGroups r !!! uid ++ memberships (range (Groups cfg)) uid.
Proof.
  unfold compileGroups, memberships.
  generalize (range (Groups cfg)). intros l. revert r.
  induction l as [|[g us] l IH]; intros r; simpl.
  - by rewrite app_nil_r.
  - rewrite IH. simpl.
    by rewrite compileGroup_userGroups, <- app_assoc.
Qed.

(** The loop over the tables leaves the groups index as it is. *)
Lemma compileTable_userGroups cfg r e r' :
  compileTable cfg r e = Ok r' → userGroups r' = userGroups r.
Proof.
  unfold compileTable. destruct e as [tableName tableEnforces].
  repeat (case_outcome; simpl; [|done..]).
  by intros [= <-].
Qed.

Lemma compileTables_userGroups cfg (l : list (string * tableEnforces)) r r' :
  foldlM (compileTable cfg) l r = Ok r' → userGroups r' = userGroups r.
Proof.
  revert r. induction l as [|e l IH]; intros r; simpl; [by intros [= <-]|].
  destruct (compileTable cfg r e) as [r1| |] eqn:He; simpl; [|done..].
  intros Hl. rewrite (IH _ Hl). by apply compileTable_userGroups in He.
Qed.

Lemma CompileRawRules_userGroups cfg r uid :
  CompileRawRules (Some cfg) = Ok (Some r) →
  userGroups r !!! uid = memberships (range (Groups cfg)) uid.
Proof.
  unfold CompileRawRules. destruct (validateStruct cfg); [|done].
  destruct (foldlM _ _ _) as [r'| |] eqn:Hr'; simpl; [|done..].
  intros [= <-]. apply compileTables_userGroups in Hr'.
  rewrite Hr', compileGroups_userGroups. simpl.
  by rewrite lookup_total_empty.
Qed.
End GroupsIndex.

(** ** Claims on the rule compiler: the groups index *)

(** C9, amended. The list [userGroups[uid]] of a compiled Rules object
    enumerates the groups that list [uid] in the order in which this
    compilation ranged over the groups of the configuration. Two
    compilations of one configuration give lists with the same groups, the
    same number of times, and give the same list when they range over the
    groups in the same order. *)
Theorem userGroups_follow_range {U : UnicodeLower} (order1 order2 : RangeOrder)
    (cfg : RulesConfig) (r1 r2 : Rules) (uid : string) :
  CompileRawRules (H := order1) (Some cfg) = Ok (Some r1) →
  CompileRawRules (H := order2) (Some cfg) = Ok (Some r2) →
  userGroups r1 !!! uid = memberships (range (RangeOrder := order1) (Groups cfg)) uid
  ∧ userGroups r2 !!! uid = memberships (range (RangeOrder := order2) (Groups cfg)) uid
  ∧ userGroups r1 !!! uid ≡ₚ userGroups r2 !!! uid
  ∧ (range (RangeOrder := order1) (Groups cfg)
     = range (RangeOrder := order2) (Groups cfg) →
     userGroups r1 !!! uid = userGroups r2 !!! uid).
Proof.
  intros Hr1 Hr2.
  apply (CompileRawRules_userGroups (H := order1)) with (uid := uid) in Hr1.
  apply (CompileRawRules_userGroups (H := order2)) with (uid := uid) in Hr2.
  split_and!; [done|done| |].
  - rewrite Hr1, Hr2. unfold memberships.
    apply bind_Permutation.
    by rewrite (range_perm (RangeOrder := order1)),
      (range_perm (RangeOrder := order2)).
  - intros Heq. by rewrite Hr1, Hr2, Heq.
Qed.

(** The user [u] of two groups, compiled in one order and in the other. *)
Lemma userGroups_follow_range_witness :
  userGroups rulesAB !!! "u" = memberships [("a", ["u"]); ("b", ["u"])] "u"
  ∧ userGroups rulesBA !!! "u" = memberships [("b", ["u"]); ("a", ["u"])] "u"
  ∧ userGroups rulesAB !!! "u" ≡ₚ userGroups rulesBA !!! "u"
  ∧ (range (RangeOrder := range_fwd) (Groups cfgTwoGroups)
     = range (RangeOrder := range_rev) (Groups cfgTwoGroups) →
     userGroups rulesAB !!! "u" = userGroups rulesBA !!! "u").
Proof.
  apply (userGroups_follow_range (U := unicode_unchanged) range_fwd range_rev
           cfgTwoGroups).
  - by vm_compute.
  - by vm_compute.
Defined.

(** C9 as stated fails: two compilations of [cfgTwoGroups], which differ in
    the order of their range over the groups only, give [u] the groups
    [a, b] and the groups [b, a]; under rules that deny both groups the
    selector then fails on [a] with the one and on [b] with the other. *)
Lemma userGroups_order_differs :
  CompileRawRules (H := range_fwd) (U := unicode_unchanged) (Some cfgTwoGroups)
  = Ok (Some rulesAB)
  ∧ CompileRawRules (H := range_rev) (U := unicode_unchanged)
      (Some cfgTwoGroups)
    = Ok (Some rulesBA)
  ∧ userGroups rulesAB !!! "u" = ["a"; "b"]
  ∧ userGroups rulesBA !!! "u" = ["b"; "a"]
  ∧ userGroups rulesAB !!! "u" ≠ userGroups rulesBA !!! "u"
  ∧ findRulesToApply (Some rulesAB) (Some queryRulesDenyAB) "u" "logged_in"
    = Err (EDenyGroup "a")
  ∧ findRulesToApply (Some rulesBA) (Some queryRulesDenyAB) "u" "logged_in"
    = Err (EDenyGroup "b").
Proof.
  split_and!; [by vm_compute..| |reflexivity|reflexivity].
  vm_compute. discriminate.
Qed.

(** ** Properties of the rule compiler: validation of update rules *)

Section Validation.
Context `{RangeOrder} {U : UnicodeLower}.
Implicit Types (cfg : RulesConfig) (queryRules : QueryRules).
Implicit Types (t : gmap string updateMergeItem).

(** *** The merger on a mixed fragment *)

Lemma mergeUpdate_key_returns st kv : returns (mergeUpdate_key st kv).
Proof.
  destruct st as [[useDollarOp useNormalSet] t], kv as [k v].
  unfold mergeUpdate_key, mergeUpdate_flags.
  destruct (HasPrefix k "$"), useDollarOp, useNormalSet; simpl; try done;
    destruct (isUpdateOperator k); try done;
    try (by destruct v); by destruct (k =? "$comment").
Qed.

(** What a round that does not fail tells about the flags before it and
    leaves in the flags after it. *)
Lemma mergeUpdate_key_flags useDollarOp useNormalSet t k v
    useDollarOp' useNormalSet' t' :
  mergeUpdate_key (useDollarOp, useNormalSet, t) (k, v)
  = Ok (useDollarOp', useNormalSet', t') →
  if HasPrefix k "$"
  then useNormalSet = false ∧ useDollarOp' = true ∧ useNormalSet' = false
  else useDollarOp = false ∧ useDollarOp' = false ∧ useNormalSet' = true.
Proof.
  unfold mergeUpdate_key, mergeUpdate_flags.
  destruct (HasPrefix k "$") eqn:Hk, useDollarOp, useNormalSet; simpl;
    try done.
  - destruct (isUpdateOperator k); [by destruct v; intros [= <- <- _]|].
    destruct (k =? "$comment"); [by intros [= <- <- _]|done].
  - destruct (isUpdateOperator k); [by destruct v; intros [= <- <- _]|].
    destruct (k =? "$comment"); [by intros [= <- <- _]|done].
  - by intros [= <- <- _].
  - by intros [= <- <- _].
Qed.




Lemma mergeUpdate_fragment_returns t d : returns (mergeUpdate_fragment t d).
Proof.
  apply bind_returns; [|done].
  apply foldlM_returns, mergeUpdate_key_returns.
Qed.

Lemma mergeUpdate_returns (q : list enforceObject) : returns (mergeUpdate q).
Proof.
  unfold mergeUpdate. destruct q as [|d q]; [done|].
  apply bind_returns; [|done].
  apply foldlM_returns, mergeUpdate_fragment_returns.
Qed.


(** *** [validateUpdateRules] *)

Lemma validateFragments_returns (m : gmap string enforceObject) :
  returns (validateFragments m).
Proof.
  apply foldlM_returns. intros [] kv.
  apply bind_returns; [apply mergeUpdate_returns|done].
Qed.


Lemma validateUpdateRules_returns (q : option QueryRules) :
  returns (validateUpdateRules q).
Proof.
  destruct q as [queryRules|]; [|done]. unfold validateUpdateRules.
  repeat (apply bind_returns; [apply validateFragments_returns|intros _]).
  apply bind_returns; [apply mergeUpdate_returns|done].
Qed.

End Validation.

Section CompileSubjects.
Context `{RangeOrder} {U : UnicodeLower}.
Implicit Types (cfg : RulesConfig) (queryRules : QueryRules).

Lemma compileQueryEnforces_subject_returns cfg queryRules e :
  returns (compileQueryEnforces_subject cfg queryRules e).
Proof.
  destruct e as [enforceSubject enforceObject].
  unfold compileQueryEnforces_subject.
  repeat first [done | case_match].
Qed.

Lemma compileQueryEnforces_returns cfg (enforces : queryEnforces) :
  returns (compileQueryEnforces cfg enforces).
Proof. apply foldlM_returns, compileQueryEnforces_subject_returns. Qed.

(** The round of a subject key puts its fragment in its place. *)
Lemma compileQueryEnforces_subject_stores cfg queryRules s fragment queryRules' :
  compileQueryEnforces_subject cfg queryRules (s, fragment) = Ok queryRules' →
  stored queryRules' s = Some fragment.
Proof.
  unfold compileQueryEnforces_subject, stored.
  destruct (HasPrefix s "g:").
  { destruct (from2 s =? ""); [done|].
    destruct (Groups cfg !! from2 s); [|done].
    intros [= <-]. simpl. apply lookup_insert_eq. }
  destruct (HasPrefix s "u:").
  { destruct (from2 s =? ""); [done|].
    intros [= <-]. simpl. apply lookup_insert_eq. }
  destruct (HasPrefix s "s:").
  { destruct (isUserState _); [|done].
    intros [= <-]. simpl. apply lookup_insert_eq. }
  destruct (s =? "default"); [|done].
  by intros [= <-].
Qed.

(** The round of another subject key leaves it there, unless both are state
    keys of the same state. *)
Lemma compileQueryEnforces_subject_keeps cfg queryRules s s' fragment'
    queryRules' :
  compileQueryEnforces_subject cfg queryRules (s', fragment') = Ok queryRules' →
  s' ≠ s → ¬ sameState s s' →
  stored queryRules' s = stored queryRules s.
Proof.
  unfold compileQueryEnforces_subject, stored, sameState.
  intros Hrun Hne Hstate.
  destruct (HasPrefix s' "g:") eqn:Hg'.
  { destruct (from2 s' =? ""); [done|].
    destruct (Groups cfg !! from2 s'); [|done].
    injection Hrun as <-. simpl.
    destruct (HasPrefix s "g:") eqn:Hg; [|done].
    apply lookup_insert_ne. intros Heq. apply Hne.
    by apply (from2_inj "g:"). }
  destruct (HasPrefix s' "u:") eqn:Hu'.
  { destruct (from2 s' =? ""); [done|].
    injection Hrun as <-. simpl.
    destruct (HasPrefix s "g:") eqn:Hg; [done|].
    destruct (HasPrefix s "u:") eqn:Hu; [|done].
    apply lookup_insert_ne. intros Heq. apply Hne.
    by apply (from2_inj "u:"). }
  destruct (HasPrefix s' "s:") eqn:Hs'.
  { destruct (isUserState _); [|done].
    injection Hrun as <-. simpl.
    destruct (HasPrefix s "g:") eqn:Hg; [done|].
    destruct (HasPrefix s "u:") eqn:Hu; [done|].
    destruct (HasPrefix s "s:") eqn:Hs; [|done].
    apply lookup_insert_ne. intros Heq. by apply Hstate. }
  destruct (s' =? "default") eqn:Hd'; [|done].
  injection Hrun as <-. simpl.
  destruct (HasPrefix s "g:") eqn:Hg; [done|].
  destruct (HasPrefix s "u:") eqn:Hu; [done|].
  destruct (HasPrefix s "s:") eqn:Hs; [done|].
  destruct (s =? "default") eqn:Hd; [|done].
  apply String.eqb_eq in Hd, Hd'. congruence.
Qed.

Lemma compileQueryEnforces_subjects_keep cfg (l : list (string * enforceObject))
    queryRules queryRules' s :
  foldlM (compileQueryEnforces_subject cfg) l queryRules = Ok queryRules' →
  Forall (λ e, e.1 ≠ s ∧ ¬ sameState s e.1) l →
  stored queryRules' s = stored queryRules s.
Proof.
  intros Hrun Hl. revert queryRules Hrun.
  induction Hl as [|[s' fragment'] l [Hne Hstate] _ IH]; intros queryRules;
    [by intros [= <-]|].
  rewrite foldlM_cons.
  destruct (compileQueryEnforces_subject cfg queryRules (s', fragment'))
    as [queryRules1| |] eqn:Hs'; simpl; [|done..].
  intros Hrun. rewrite (IH _ Hrun).
  by apply (compileQueryEnforces_subject_keeps _ _ _ _ _ _ Hs').
Qed.

Lemma compileQueryEnforces_subjects_store cfg (l : list (string * enforceObject))
    queryRules queryRules' s fragment :
  foldlM (compileQueryEnforces_subject cfg) l queryRules = Ok queryRules' →
  NoDup l.*1 → (s, fragment) ∈ l →
  (∀ e, e ∈ l → sameState s e.1 → e.1 = s) →
  stored queryRules' s = Some fragment.
Proof.
  revert queryRules.
  induction l as [|[s' fragment'] l IH]; intros queryRules Hrun Hdup Hin Hl;
    [by inversion Hin|].
  rewrite foldlM_cons in Hrun.
  destruct (compileQueryEnforces_subject cfg queryRules (s', fragment'))
    as [queryRules1| |] eqn:Hs'; simpl in Hrun; [|done..].
  apply NoDup_cons in Hdup as [Hfresh Hdup].
  apply elem_of_cons in Hin as [[= <- <-]|Hin].
  - rewrite (compileQueryEnforces_subjects_keep _ _ _ _ _ Hrun).
    + by apply (compileQueryEnforces_subject_stores _ _ _ _ _ Hs').
    + apply Forall_forall. intros [s' fragment'] Hin'. simpl.
      assert (s' ≠ s) as Hne.
      { intros ->. apply Hfresh. apply list_elem_of_fmap.
        by exists (s, fragment'). }
      split; [done|]. intros Hstate. apply Hne.
      apply (Hl (s', fragment')); [by right|done].
  - apply (IH queryRules1); [done..|].
    intros e He. apply Hl. by right.
Qed.

(** A subject key of the section that shares its state with no other key of
    the section has its fragment in the compiled rules. *)
Lemma compileQueryEnforces_stores cfg (enforces : queryEnforces) queryRules
    s fragment :
  compileQueryEnforces cfg enforces = Ok queryRules →
  enforces !! s = Some fragment →
  (∀ s', is_Some (enforces !! s') → sameState s s' → s' = s) →
  stored queryRules s = Some fragment.
Proof.
  intros Hrun Hs Hstate.
  apply (compileQueryEnforces_subjects_store _ _ _ _ _ _ Hrun).
  - apply NoDup_fst_range.
  - by apply elem_of_range.
  - intros [s' fragment'] Hin. apply Hstate. exists fragment'.
    by apply elem_of_range.
Qed.

(** *** The loop over the tables *)


End CompileSubjects.

(** ** Claims on the rule compiler: validation of update rules *)




(** * Further properties of the package *)

(** ** Loops that return *)

Lemma foldlM_ok_cons {A S : Type} (f : S → A → outcome S) (a : A) (l : list A)
    (s s' : S) :
  foldlM f (a :: l) s = Ok s' → ∃ s1, f s a = Ok s1 ∧ foldlM f l s1 = Ok s'.
Proof.
  rewrite foldlM_cons. destruct (f s a) as [s1| |]; simpl; [|done..].
  intros Hl. by exists s1.
Qed.

(** A property of the state that every round keeps holds at the end. *)
Lemma foldlM_invariant {A S : Type} (I : S → Prop) (f : S → A → outcome S)
    (l : list A) (s s' : S) :
  (∀ s a s', a ∈ l → I s → f s a = Ok s' → I s') →
  I s → foldlM f l s = Ok s' → I s'.
Proof.
  revert s. induction l as [|a l IH]; intros s Hf Hs; [by intros [= <-]|].
  intros (s1 & Ha & Hl)%foldlM_ok_cons.
  apply (IH s1); [|by apply (Hf s a s1); [left|..]|done].
  intros s2 a2 s3 Hin. apply Hf. by right.
Qed.

(** ** The selection in closed form *)

Section Selection.
Implicit Types (r : Rules) (queryRules : QueryRules).

Lemma findGroupRules_selected queryRules groups resultRules :
  Forall (λ g, groupRules queryRules !! g ≠ Some None) groups →
  findGroupRules queryRules groups resultRules
  = Ok (resultRules ++ omap (λ g, groupRules queryRules !! g) groups).
Proof.
  intros Hgs. revert resultRules.
  induction Hgs as [|g groups Hg _ IH]; intros resultRules; simpl.
  - by rewrite app_nil_r.
  - destruct (groupRules queryRules !! g) as [[rule|]|]; [|done|apply IH].
    rewrite IH. by rewrite <- app_assoc.
Qed.

(** X1. When no tier denies, the selection is the slot of the state tier
    (nil when the state has no rule), then the fragments of the groups of
    the user that have a rule, in the order of [userGroups[uid]], then the
    slot of the user tier (nil when the user has no rule). *)
Theorem selection_in_tier_order r queryRules uid userState :
  userStateRules queryRules !! userState ≠ Some None →
  Forall (λ g, groupRules queryRules !! g ≠ Some None) (userGroups r !!! uid) →
  userRules queryRules !! uid ≠ Some None →
  findRulesToApply (Some r) (Some queryRules) uid userState
  = Ok ([default None (userStateRules queryRules !! userState)]
        ++ omap (λ g, groupRules queryRules !! g) (userGroups r !!! uid)
        ++ [default None (userRules queryRules !! uid)]).
Proof.
  intros Hstate Hgroups Huser. unfold findRulesToApply, tierRule.
  destruct (userStateRules queryRules !! userState) as [[stateRule|]|];
    [|done|];
    (destruct (userRules queryRules !! uid) as [[rule|]|]; [|done|]);
    simpl; by rewrite (findGroupRules_selected _ _ _ Hgroups).
Qed.
End Selection.

(** The user [u3] of the groups [staff] and [banned], logged in, under
    rules that have a fragment for the state, for [staff] and for [u3]. *)
Lemma selection_in_tier_order_witness :
  findRulesToApply (Some rulesDeny) (Some queryRulesAllow) "u3" "logged_in"
  = Ok [Some {[ "live" := VBool true ]}; Some {[ "dept" := VStr "D" ]};
        Some {[ "owner" := VStr "u3" ]}].
Proof.
  apply (selection_in_tier_order rulesDeny queryRulesAllow "u3" "logged_in").
  - vm_compute. discriminate.
  - repeat constructor; vm_compute; discriminate.
  - vm_compute. discriminate.
Defined.

(** ** The insert merger *)

Section MergeInsert.
Context `{RangeOrder}.

(** Copying the entries of a map into another one, in whatever order, is
    the union that prefers the copied map. *)
Lemma insert_all_union {A : Type} (l : list (string * A)) (o : gmap string A) :
  NoDup l.*1 →
  fold_left (λ o kv, <[kv.1 := kv.2]> o) l o = list_to_map l ∪ o.
Proof.
  revert o. induction l as [|[k v] l IH]; intros o Hdup; simpl.
  - by rewrite (left_id_L ∅ (∪)).
  - apply NoDup_cons in Hdup as [Hk Hdup]. rewrite IH by done.
    rewrite <- insert_union_l. apply symmetry, insert_union_r.
    by apply not_elem_of_list_to_map_1.
Qed.

Lemma insert_range_union {A : Type} (m o : gmap string A) :
  fold_left (λ o kv, <[kv.1 := kv.2]> o) (range m) o = m ∪ o.
Proof.
  rewrite insert_all_union by apply NoDup_fst_range.
  rewrite (list_to_map_proper (range m) (map_to_list m));
    [|apply NoDup_fst_range|apply range_perm].
  by rewrite list_to_map_to_list.
Qed.

Lemma mergeInsert_fold (q : list enforceObject) (o : gmap string value) :
  fold_left (λ o d, fold_left (λ o kv, <[kv.1 := kv.2]> o) (range_obj d) o) q o
  = fold_left (λ o d, default ∅ d ∪ o) q o.
Proof.
  revert o. induction q as [|d q IH]; intros o; simpl; [done|].
  rewrite IH. f_equal. destruct d as [m|]; simpl.
  - apply insert_range_union.
  - by rewrite (left_id_L ∅ (∪)).
Qed.

Lemma mergeInsert_pair (d e : enforceObject) :
  mergeInsert [d; e] = Some (default ∅ e ∪ default ∅ d).
Proof.
  unfold mergeInsert. rewrite mergeInsert_fold. simpl.
  by rewrite (right_id_L ∅ (∪)).
Qed.

(** X2. [mergeInsert] of no document is nil; of documents [d :: q] it is
    the union of the documents in which a later document is preferred to
    an earlier one, a nil document counting as empty. The order in which
    the maps are ranged over does not show in the result. *)
Theorem mergeInsert_union (d : enforceObject) (q : list enforceObject) :
  mergeInsert [] = None
  ∧ mergeInsert (d :: q)
    = Some (fold_left (λ o d, default ∅ d ∪ o) (d :: q) ∅)
  ∧ ∀ e, mergeInsert [d; e] = Some (default ∅ e ∪ default ∅ d).
Proof.
  unfold mergeInsert. split_and!; [done|by rewrite mergeInsert_fold|].
  intros e. rewrite mergeInsert_fold. simpl.
  by rewrite (right_id_L ∅ (∪)).
Qed.

Lemma mergeInsert_nonempty (q : list enforceObject) :
  q ≠ [] → mergeInsert q = Some (fold_left (λ o d, default ∅ d ∪ o) q ∅).
Proof. destruct q; [done|]. intros _. unfold mergeInsert. by rewrite mergeInsert_fold. Qed.

Lemma union_all_untouched (q : list enforceObject) (o : gmap string value) k :
  Forall (λ d : enforceObject, default ∅ d !! k = None) q →
  fold_left (λ o d, default ∅ d ∪ o) q o !! k = o !! k.
Proof.
  intros Hq. revert o. induction Hq as [|d q Hd _ IH]; intros o; simpl; [done|].
  rewrite IH. by rewrite lookup_union_r.
Qed.

(** X3. Last writer wins in [mergeInsert]: a key has the value of the last
    document that holds it, and a key that no document holds is not in the
    result, whatever the documents are, nil ones included. *)
Theorem mergeInsert_last_writer_wins (q1 q2 : list enforceObject)
    (m : gmap string value) (k : string) (v : value) :
  (m !! k = Some v →
   Forall (λ d : enforceObject, default ∅ d !! k = None) q2 →
   ∃ o, mergeInsert (q1 ++ Some m :: q2) = Some o ∧ o !! k = Some v)
  ∧ (∀ q : list enforceObject,
       q ≠ [] →
       Forall (λ d : enforceObject, default ∅ d !! k = None) q →
       ∃ o, mergeInsert q = Some o ∧ o !! k = None).
Proof.
  split.
  - intros Hk Hq2. eexists. split.
    + apply mergeInsert_nonempty. by destruct q1.
    + rewrite fold_left_app. simpl.
      rewrite union_all_untouched by done.
      by apply lookup_union_Some_l.
  - intros q Hne Hq. eexists. split; [by apply mergeInsert_nonempty|].
    rewrite union_all_untouched by done.
    apply lookup_empty.
Qed.
End MergeInsert.

(** [{"a":1,"k":1}], then [{"k":2}], then [{"b":3}]: the key [k] has the
    value of the second document. A nil document, then [{"k":2}], then
    [{"b":3}]: the key [c] is absent. *)
Lemma mergeInsert_last_writer_wins_witness :
  (∃ o, mergeInsert (H := range_fwd)
          ([Some {[ "a" := VNum 1; "k" := VNum 1 ]}]
           ++ Some {[ "k" := VNum 2 ]} :: [Some {[ "b" := VNum 3 ]}]) = Some o
        ∧ o !! "k" = Some (VNum 2))
  ∧ (∃ o, mergeInsert (H := range_fwd)
            [None; Some {[ "k" := VNum 2 ]}; Some {[ "b" := VNum 3 ]}] = Some o
          ∧ o !! "c" = None).
Proof.
  split.
  - apply (proj1 (mergeInsert_last_writer_wins (H := range_fwd)
                    [Some {[ "a" := VNum 1; "k" := VNum 1 ]}]
                    [Some {[ "b" := VNum 3 ]}]
                    {[ "k" := VNum 2 ]} "k" (VNum 2))).
    + reflexivity.
    + apply Forall_cons. split; [reflexivity|apply Forall_nil_2].
  - apply (proj2 (mergeInsert_last_writer_wins (H := range_fwd)
                    [] [] {[ "k" := VNum 2 ]} "c" (VNum 2))).
    + discriminate.
    + apply Forall_cons. split; [reflexivity|].
      apply Forall_cons. split; [reflexivity|].
      apply Forall_cons. split; [reflexivity|apply Forall_nil_2].
Defined.

(** ** [EnforceRulesOnInsert] *)

(** X4. Every document that [EnforceRulesOnInsert] returns is the union of
    the injected rule document and the caller's document that prefers the
    rule document: a field that the rules set has the value of the rules,
    every other field of the caller is kept. The rule document is
    [mergeInsert] of the selection. *)
Theorem insert_rules_override_caller `{RangeOrder}
    (inject : enforceObject → enforceObject → enforceObject)
    (r : Rules) (d : enforceObject) (table uid userState : string)
    (vars insert : enforceObject) :
  EnforceRulesOnInsert inject (Some r) d table uid userState vars = Ok insert →
  ∃ resultRules o,
    (queryRules ← findUserRules (Some r) table RuleQueryInsert;
     findRulesToApply (Some r) queryRules uid userState)
    = Ok resultRules
    ∧ insert = Some o
    ∧ o = default ∅ (inject (mergeInsert resultRules) vars) ∪ default ∅ d
    ∧ ∀ k, o !! k
           = match default ∅ (inject (mergeInsert resultRules) vars) !! k with
             | Some v => Some v
             | None => default ∅ d !! k
             end.
Proof.
  unfold EnforceRulesOnInsert.
  destruct (queryRules ← findUserRules (Some r) table RuleQueryInsert;
            findRulesToApply (Some r) queryRules uid userState)
    as [resultRules| |] eqn:Hsel; simpl; [|done..].
  apply findUserRules_selection_length in Hsel as Hlen.
  destruct resultRules as [|d1 resultRules]; [simpl in Hlen; lia|].
  intros [= <-]. eexists _, _. split_and!; [done| |done|].
  - apply mergeInsert_pair.
  - intros k. rewrite lookup_union.
    destruct (default ∅ (inject _ vars) !! k) as [v|]; simpl.
    + by destruct (default ∅ d !! k).
    + by destruct (default ∅ d !! k).
Qed.

(** The user [u3] inserts [{"name":"x","dept":"X"}] on the table [t] of
    [rulesInsert]: the field [dept] is forced to the value of the rules. *)
Lemma insert_rules_override_caller_witness :
  ∃ resultRules o,
    (queryRules ← findUserRules (Some rulesInsert) "t" RuleQueryInsert;
     findRulesToApply (Some rulesInsert) queryRules "u3" "logged_in")
    = Ok resultRules
    ∧ (Some {[ "name" := VStr "x"; "dept" := VStr "D"; "live" := VBool true;
               "owner" := VStr "u3" ]} : enforceObject) = Some o
    ∧ o = default ∅ (InjectMagicVars (mergeInsert (H := range_fwd) resultRules)
                       (Some ∅))
          ∪ default ∅ docCaller
    ∧ ∀ k, o !! k
           = match default ∅ (InjectMagicVars
                                (mergeInsert (H := range_fwd) resultRules)
                                (Some ∅)) !! k with
             | Some v => Some v
             | None => default ∅ docCaller !! k
             end.
Proof.
  apply (insert_rules_override_caller (H := range_fwd) InjectMagicVars
           rulesInsert docCaller "t" "u3" "logged_in" (Some ∅)).
  by vm_compute.
Defined.

(** ** The update merger: when it fails, and the shape of what it returns *)

Lemma foldlM_error {A S : Type} (P : error → Prop) (f : S → A → outcome S)
    (l : list A) (s : S) (e : error) :
  (∀ s a e, f s a = Err e → P e) → foldlM f l s = Err e → P e.
Proof.
  intros Hf. revert s. induction l as [|a l IH]; intros s; [done|].
  rewrite foldlM_cons. destruct (f s a) as [s1|e1|] eqn:Ha; simpl; [|by intros [= <-]; eauto|done].
  apply IH.
Qed.

Section MergeUpdateOutcome.
Context `{RangeOrder}.
Implicit Types (d : enforceObject) (m : gmap string value).
Implicit Types (t : gmap string updateMergeItem).

(** A round on a [$] key that does not fail was on an entry that the merger
    accepts. *)
Lemma mergeUpdate_key_dollar_ok useDollarOp useNormalSet t k v st' :
  HasPrefix k "$" = true →
  mergeUpdate_key (useDollarOp, useNormalSet, t) (k, v) = Ok st' →
  operatorEntry k v.
Proof.
  intros Hk. unfold mergeUpdate_key, mergeUpdate_flags. rewrite Hk.
  destruct useNormalSet; simpl; [done|].
  destruct (isUpdateOperator k) eqn:Hop.
  - destruct v; try done. intros _. left. by eauto.
  - destruct (k =? "$comment") eqn:Hc; [|done].
    intros _. right. by apply String.eqb_eq.
Qed.

Lemma mergeUpdate_key_error st kv e :
  mergeUpdate_key st kv = Err e → mergeError e.
Proof.
  destruct st as [[useDollarOp useNormalSet] t], kv as [k v].
  unfold mergeUpdate_key, mergeUpdate_flags, mergeError.
  destruct (HasPrefix k "$"), useDollarOp, useNormalSet; simpl;
    try (by intros [= <-]; eauto); try done;
    (destruct (isUpdateOperator k);
     [destruct v; try done; by intros [= <-]; eauto|]);
    (destruct (k =? "$comment"); [done|by intros [= <-]; eauto]).
Qed.

(** The keys of a loop that does not fail are all bare or all accepted
    operator entries, in agreement with the flags it started from. *)
Lemma mergeUpdate_keys_ok (l : list (string * value)) useDollarOp useNormalSet
    t st' :
  foldlM mergeUpdate_key l (useDollarOp, useNormalSet, t) = Ok st' →
  (useDollarOp = true → Forall (λ kv, operatorEntry kv.1 kv.2) l)
  ∧ (useNormalSet = true → Forall (λ kv, HasPrefix kv.1 "$" = false) l)
  ∧ (Forall (λ kv, HasPrefix kv.1 "$" = false) l
     ∨ Forall (λ kv, operatorEntry kv.1 kv.2) l).
Proof.
  revert useDollarOp useNormalSet t.
  induction l as [|[k v] l IH]; intros useDollarOp useNormalSet t.
  - intros _. split_and!; [constructor..|left; constructor].
  - intros ([[uD uN] t1] & Hkv & Hl)%foldlM_ok_cons.
    destruct (IH _ _ _ Hl) as (HuD & HuN & _).
    pose proof (mergeUpdate_key_flags _ _ _ _ _ _ _ _ Hkv) as Hflags.
    destruct (HasPrefix k "$") eqn:Hk.
    + destruct Hflags as (-> & -> & ->).
      apply (mergeUpdate_key_dollar_ok _ _ _ _ _ _ Hk) in Hkv.
      assert (Forall (λ kv, operatorEntry kv.1 kv.2) ((k, v) :: l))
        by (constructor; [done|by apply HuD]).
      split_and!; [done|done|by right].
    + destruct Hflags as (-> & -> & ->).
      assert (Forall (λ kv, HasPrefix kv.1 "$" = false) ((k, v) :: l))
        by (constructor; [done|by apply HuN]).
      split_and!; [done|done|by left].
Qed.

Lemma mergeUpdate_fragment_ok t d t' :
  mergeUpdate_fragment t d = Ok t' → wellFormed d.
Proof.
  unfold mergeUpdate_fragment. destruct d as [m|]; [|done]. simpl.
  destruct (foldlM mergeUpdate_key (range m) (false, false, t))
    as [st'| |] eqn:Hl; simpl; [|done..].
  intros _. apply mergeUpdate_keys_ok in Hl as (_ & _ & [Hbare|Hdollar]).
  - left. intros k v Hkv. rewrite Forall_forall in Hbare.
    by apply (Hbare (k, v)), elem_of_range.
  - right. intros k v Hkv. rewrite Forall_forall in Hdollar.
    by apply (Hdollar (k, v)), elem_of_range.
Qed.

Lemma mergeUpdate_fragments_ok (q : list enforceObject) t t' :
  foldlM mergeUpdate_fragment q t = Ok t' → Forall wellFormed q.
Proof.
  revert t. induction q as [|d q IH]; intros t; [constructor|].
  intros (t1 & Hd & Hq)%foldlM_ok_cons. constructor.
  - by apply mergeUpdate_fragment_ok in Hd.
  - by apply IH in Hq.
Qed.

Lemma mergeUpdate_ok_wf (q : list enforceObject) o :
  mergeUpdate q = Ok o → Forall wellFormed q.
Proof.
  unfold mergeUpdate. destruct q as [|d q]; [constructor|].
  destruct (foldlM mergeUpdate_fragment (d :: q) ∅) as [t| |] eqn:Hq;
    simpl; [|done..].
  intros _. by apply mergeUpdate_fragments_ok in Hq.
Qed.

(** X5. [mergeUpdate] returns a document exactly when every fragment is
    well-formed: nil, bare form, or dollar form with the six operators on
    map arguments and [$comment]. Otherwise it returns one of its three
    errors; it never panics. *)
Theorem mergeUpdate_succeeds_iff_wellFormed (q : list enforceObject) :
  ((∃ o, mergeUpdate q = Ok o) ↔ Forall wellFormed q)
  ∧ (¬ Forall wellFormed q → ∃ e, mergeUpdate q = Err e ∧ mergeError e).
Proof.
  assert ((∃ o, mergeUpdate q = Ok o) ↔ Forall wellFormed q) as Hiff.
  { split; [by intros [o Ho%mergeUpdate_ok_wf]|].
    intros Hq. destruct q as [|d q]; [by eexists|].
    rewrite mergeUpdate_wf by done. by eexists. }
  split; [done|]. intros Hq.
  destruct (mergeUpdate q) as [o|e|] eqn:Hrun.
  - destruct Hq. apply Hiff. by eexists.
  - exists e. split; [done|]. revert Hrun. unfold mergeUpdate.
    destruct q as [|d q]; [done|].
    destruct (foldlM mergeUpdate_fragment (d :: q) ∅) as [t|e'|] eqn:Hl;
      simpl; [done| |done].
    intros [= <-]. revert Hl. apply foldlM_error.
    intros t d' e'' Hd'. unfold mergeUpdate_fragment in Hd'.
    destruct (foldlM mergeUpdate_key (range_obj d') (false, false, t))
      as [st|e3|] eqn:Hk; simpl in Hd'; [done| |done].
    injection Hd' as <-. revert Hk. apply foldlM_error.
    intros st kv e4. apply mergeUpdate_key_error.
  - by apply mergeUpdate_returns in Hrun.
Qed.

(** Every item of the table of well-formed fragments is under one of the
    six operators. *)
Lemma table_operators (q : list enforceObject) f item :
  apply_writes (q ≫= writes) ∅ !! f = Some item →
  isUpdateOperator (op item) = true.
Proof.
  intros [Hin|Hf]%apply_writes_origin; [|by rewrite lookup_empty in Hf].
  apply list_elem_of_bind in Hin as (d & Hin & _).
  apply elem_of_writes in Hin as (m & _ & [(_ & -> & _)|(Hop & _)]); done.
Qed.

(** What [mergeUpdate] returns, when it returns a document. *)
Lemma mergeUpdate_ok_table (q : list enforceObject) (o : gmap string value) :
  mergeUpdate q = Ok (Some o) →
  Forall wellFormed q
  ∧ o = (λ ov, VMap (Some ov))
        <$> mergeUpdate_assemble (apply_writes (q ≫= writes) ∅).
Proof.
  intros Hrun. pose proof (mergeUpdate_ok_wf _ _ Hrun) as Hwf.
  split; [done|]. destruct q as [|d q]; [done|].
  rewrite mergeUpdate_wf in Hrun by done. by injection Hrun as <-.
Qed.

(** The keys of a returned document are operators bound to maps that are
    neither nil nor empty. *)
Lemma mergeUpdate_result_keys (q : list enforceObject) (o : gmap string value) :
  mergeUpdate q = Ok (Some o) →
  ∀ k v, o !! k = Some v →
         isUpdateOperator k = true ∧ ∃ ov, v = VMap (Some ov) ∧ ov ≠ ∅.
Proof.
  intros (Hwf & ->)%mergeUpdate_ok_table k v. rewrite lookup_fmap.
  destruct (mergeUpdate_assemble _ !! k) as [ov|] eqn:Hk; simpl; [|done].
  intros [= <-].
  pose proof (mergeUpdate_assemble_nonempty _ _ _ Hk) as Hne.
  split; [|by eauto].
  apply map_choose in Hne as (f & arg & Hf).
  assert (apply_writes (q ≫= writes) ∅ !! f
          = Some {| op := k; argument := arg |}) as Ht
    by (apply mergeUpdate_assemble_lookup; eauto).
  by apply table_operators in Ht.
Qed.

(** X6. A document that [mergeUpdate] returns is in dollar form: its keys
    are among the six operators, never [$comment]; each is bound to a map
    that is neither nil nor empty; and no field is under two operators. *)
Theorem mergeUpdate_result_shape (q : list enforceObject)
    (o : gmap string value) :
  mergeUpdate q = Ok (Some o) →
  (∀ k v, o !! k = Some v →
          isUpdateOperator k = true ∧ ∃ ov, v = VMap (Some ov) ∧ ov ≠ ∅)
  ∧ (∀ k k' f arg arg',
       assigns o k f arg → assigns o k' f arg' → k = k' ∧ arg = arg')
  ∧ dollarForm o.
Proof.
  intros Hrun. pose proof (mergeUpdate_result_keys q o Hrun) as Hkeys.
  apply mergeUpdate_ok_table in Hrun as (Hwf & ->).
  split_and!; [done| |].
  - intros k k' f arg arg' Hk%assigns_assemble Hk'%assigns_assemble.
    rewrite Hk in Hk'. by injection Hk' as -> ->.
  - intros k v Hkv. destruct (Hkeys k v Hkv) as (Hop & ov & -> & _).
    left. by eauto.
Qed.

(** The table that a returned document writes when it is merged again is
    the table it was made of. *)
Lemma table_of_result (q : list enforceObject) :
  Forall wellFormed q →
  apply_writes
    (writes (Some ((λ ov, VMap (Some ov))
                   <$> mergeUpdate_assemble (apply_writes (q ≫= writes) ∅))))
    ∅
  = apply_writes (q ≫= writes) ∅.
Proof.
  intros Hwf.
  set (t := apply_writes (q ≫= writes) ∅).
  set (o := (λ ov, VMap (Some ov)) <$> mergeUpdate_assemble t).
  assert (∀ f item, entry (Some o) f item → t !! f = Some item) as Hentry.
  { intros f item (m & [= <-] & [(Hf & _ & Ho)|(_ & ov & Ho & Hov)]).
    - subst o. rewrite lookup_fmap in Ho.
      destruct (mergeUpdate_assemble t !! f) as [ov|] eqn:Hk; [|done].
      pose proof (mergeUpdate_assemble_nonempty _ _ _ Hk) as Hne.
      apply map_choose in Hne as (f' & arg & Hf').
      assert (t !! f' = Some {| op := f; argument := arg |}) as Ht
        by (apply mergeUpdate_assemble_lookup; eauto).
      apply table_operators, isUpdateOperator_prefix in Ht. simpl in Ht.
      congruence.
    - assert (assigns o (op item) f (argument item)) as Ha by (exists ov; done).
      apply assigns_assemble in Ha. by destruct item. }
  apply map_eq. intros f. apply option_eq. intros item. split.
  - intros [Hin|Hf]%apply_writes_origin; [|by rewrite lookup_empty in Hf].
    by apply Hentry, elem_of_writes.
  - intros Ht.
    destruct (apply_writes_written (writes (Some o)) ∅ f) as (item' & Hin & ->).
    + apply mentions_writes. exists item.
      pose proof (table_operators _ _ _ Ht) as Hop.
      assert (assigns o (op item) f (argument item)) as (ov & Ho & Hov)
        by (apply assigns_assemble; by destruct item).
      exists o. split; [done|]. right. by eauto.
    + apply elem_of_writes, Hentry in Hin. congruence.
Qed.

(** X7. A document that [mergeUpdate] returns is a fixed point of the
    merger: merged again, alone, it comes back as it is. *)
Theorem mergeUpdate_idempotent (q : list enforceObject)
    (o : gmap string value) :
  mergeUpdate q = Ok (Some o) → mergeUpdate [Some o] = Ok (Some o).
Proof.
  intros Hrun. pose proof (mergeUpdate_result_keys _ _ Hrun) as Hkeys.
  assert (dollarForm o) as Hd.
  { intros k v Hkv. destruct (Hkeys k v Hkv) as (Hop & ov & -> & _).
    left. by eauto. }
  apply mergeUpdate_ok_table in Hrun as (Hwf & Ho).
  rewrite mergeUpdate_wf; [|done|by constructor; [right|]].
  simpl. rewrite app_nil_r. rewrite Ho at 1.
  rewrite (table_of_result q Hwf). by rewrite <- Ho.
Qed.
End MergeUpdateOutcome.

(** [{"$set":{"x":1},"y":2}] is rejected; [{"$set":{"x":1}}] then
    [{"$inc":{"x":2}}] is merged. *)
Lemma mergeUpdate_succeeds_iff_wellFormed_witness :
  (∃ e, mergeUpdate (H := range_fwd) [Some fragMixed] = Err e ∧ mergeError e)
  ∧ ∃ o, mergeUpdate (H := range_fwd) [fragSetX; fragIncX] = Ok o.
Proof.
  split.
  - apply (proj2 (mergeUpdate_succeeds_iff_wellFormed (H := range_fwd)
                    [Some fragMixed])).
    intros [[Hbare|Hdollar] _]%Forall_cons.
    + specialize (Hbare "$set" _ eq_refl). discriminate.
    + destruct (Hdollar "y" _ eq_refl) as [[Hop _]|Hc]; discriminate.
  - apply (proj1 (mergeUpdate_succeeds_iff_wellFormed (H := range_fwd)
                    [fragSetX; fragIncX])).
    repeat (apply Forall_cons; split); [| |apply Forall_nil_2].
    + right. apply map_Forall_singleton. left. split; [reflexivity|by eexists].
    + right. apply map_Forall_singleton. left. split; [reflexivity|by eexists].
Defined.

(** [{"$set":{"x":1},"$comment":"c"}] then [{"$inc":{"x":2}}]: the result
    [{"$inc":{"x":2}}] has the shape, and merged again it is itself. *)
Lemma mergeUpdate_result_shape_witness :
  (∀ k v, ({[ "$inc" := VMap (Some {[ "x" := VNum 2 ]}) ]}
           : gmap string value) !! k = Some v →
          isUpdateOperator k = true ∧ ∃ ov, v = VMap (Some ov) ∧ ov ≠ ∅)
  ∧ (∀ k k' f arg arg',
       assigns {[ "$inc" := VMap (Some {[ "x" := VNum 2 ]}) ]} k f arg →
       assigns {[ "$inc" := VMap (Some {[ "x" := VNum 2 ]}) ]} k' f arg' →
       k = k' ∧ arg = arg')
  ∧ dollarForm {[ "$inc" := VMap (Some {[ "x" := VNum 2 ]}) ]}.
Proof.
  apply (mergeUpdate_result_shape (H := range_fwd)
           [Some {[ "$set" := VMap (Some {[ "x" := VNum 1 ]});
                    "$comment" := VStr "c" ]}; fragIncX]).
  by vm_compute.
Defined.

Lemma mergeUpdate_idempotent_witness :
  mergeUpdate (H := range_fwd)
    [Some {[ "$inc" := VMap (Some {[ "x" := VNum 2 ]}) ]}]
  = Ok (Some {[ "$inc" := VMap (Some {[ "x" := VNum 2 ]}) ]}).
Proof.
  apply (mergeUpdate_idempotent (H := range_fwd)
           [Some {[ "$set" := VMap (Some {[ "x" := VNum 1 ]});
                    "$comment" := VStr "c" ]}; fragIncX]).
  by vm_compute.
Defined.

(** ** [EnforceRulesOnUpdate]: the rules override the caller *)

Section UpdateOverride.
Context `{RangeOrder}.
Variable inject : enforceObject → enforceObject → enforceObject.

(** [EnforceRulesOnUpdate] past the selection and the merge of the selected
    fragments. *)
Lemma EnforceRulesOnUpdate_selected (r : Rules) (tableRules : TableRules)
    (d : enforceObject) (table uid userState : string) (vars : enforceObject)
    (resultRules : list enforceObject) (update : enforceObject) :
  rules r !! table = Some (Some tableRules) →
  is_Some (updateRules tableRules) →
  findRulesToApply (Some r) (updateRules tableRules) uid userState = Ok resultRules →
  mergeUpdate resultRules = Ok update →
  EnforceRulesOnUpdate inject (Some r) d table uid userState vars
  = mergeUpdate [d; inject update vars].
Proof.
  intros Htable [queryRules Hupdate] Hsel Hmerge.
  unfold EnforceRulesOnUpdate. rewrite Htable.
  destruct (updateRules tableRules) as [queryRules'|]; [|done].
  rewrite Hsel.
  change ((mergeUpdate resultRules
           ≫= λ update, mergeUpdate [d; inject update vars])
          = mergeUpdate [d; inject update vars]).
  by rewrite Hmerge.
Qed.

(** X8. When the selection and the merge of the selected fragments succeed
    and the caller's update and the injected rule document are well-formed,
    [EnforceRulesOnUpdate] returns a document in which a field that the
    rule document mentions has operator and argument of an entry of the
    rule document, a field that only the caller's update mentions has
    those of an entry of the caller, and no other field is assigned. *)
Theorem update_rules_override_caller (r : Rules) (tableRules : TableRules)
    (d : enforceObject) (table uid userState : string) (vars : enforceObject)
    (resultRules : list enforceObject) (update : enforceObject) :
  rules r !! table = Some (Some tableRules) →
  is_Some (updateRules tableRules) →
  findRulesToApply (Some r) (updateRules tableRules) uid userState = Ok resultRules →
  mergeUpdate resultRules = Ok update →
  wellFormed d → wellFormed (inject update vars) →
  ∃ o,
    EnforceRulesOnUpdate inject (Some r) d table uid userState vars = Ok (Some o)
    ∧ ∀ x,
        (mentions (inject update vars) x →
         ∃ item, entry (inject update vars) x item
                 ∧ ∀ k arg, assigns o k x arg
                            ↔ k = op item ∧ arg = argument item)
        ∧ (¬ mentions (inject update vars) x → mentions d x →
           ∃ item, entry d x item
                   ∧ ∀ k arg, assigns o k x arg
                              ↔ k = op item ∧ arg = argument item)
        ∧ (¬ mentions (inject update vars) x → ¬ mentions d x →
           ∀ k arg, ¬ assigns o k x arg).
Proof.
  intros Htable Hupdate Hsel Hmerge Hd Hrule.
  assert (Forall wellFormed [d; inject update vars]) as Hwf
    by (repeat (apply Forall_cons; split); [done|done|apply Forall_nil_2]).
  exists ((λ ov, VMap (Some ov))
          <$> mergeUpdate_assemble
                (apply_writes ([d; inject update vars] ≫= writes) ∅)).
  split.
  { rewrite (EnforceRulesOnUpdate_selected r tableRules d table uid userState
               vars resultRules update) by done.
    by apply mergeUpdate_wf. }
  assert (∀ item : updateMergeItem, ∀ k arg,
            Some item = Some {| op := k; argument := arg |}
            ↔ k = op item ∧ arg = argument item) as Hitem.
  { intros [k0 a0] k arg. simpl. split; [by intros [= -> ->]|by intros [-> ->]]. }
  intros x. simpl. rewrite app_nil_r, apply_writes_app.
  split_and!.
  - intros Hx%mentions_writes.
    destruct (apply_writes_written (writes (inject update vars))
                (apply_writes (writes d) ∅) x Hx) as (item & Hin & Hlook).
    exists item. split; [by apply elem_of_writes|].
    intros k arg. by rewrite assigns_assemble, ?apply_writes_app, Hlook.
  - intros Hnx Hx%mentions_writes.
    destruct (apply_writes_written (writes d) ∅ x Hx) as (item & Hin & Hlook).
    exists item. split; [by apply elem_of_writes|].
    intros k arg. rewrite assigns_assemble, ?apply_writes_app.
    pose proof (apply_writes_not_mentioned [inject update vars]
                  (apply_writes (writes d) ∅) x) as Hkeep.
    simpl in Hkeep. rewrite app_nil_r in Hkeep.
    rewrite Hkeep by (by repeat constructor). by rewrite Hlook.
  - intros Hnx Hnd k arg. rewrite assigns_assemble, ?apply_writes_app.
    pose proof (apply_writes_not_mentioned [d; inject update vars] ∅ x)
      as Hkeep.
    simpl in Hkeep. rewrite app_nil_r, apply_writes_app in Hkeep.
    rewrite Hkeep by (by repeat constructor). by rewrite lookup_empty.
Qed.
End UpdateOverride.

(** S4: the user [u1] of the group [admins] sends
    [{"$set":{"role":"guest","name":"n"}}]. *)
Lemma update_rules_override_caller_witness :
  ∃ o,
    EnforceRulesOnUpdate (H := range_fwd) InjectMagicVars (Some rulesS4) updateS4
      "t" "u1" "logged_in" (Some ∅) = Ok (Some o)
    ∧ ∀ x,
        (mentions (InjectMagicVars ruleDocS4 (Some ∅)) x →
         ∃ item, entry (InjectMagicVars ruleDocS4 (Some ∅)) x item
                 ∧ ∀ k arg, assigns o k x arg
                            ↔ k = op item ∧ arg = argument item)
        ∧ (¬ mentions (InjectMagicVars ruleDocS4 (Some ∅)) x →
           mentions updateS4 x →
           ∃ item, entry updateS4 x item
                   ∧ ∀ k arg, assigns o k x arg
                              ↔ k = op item ∧ arg = argument item)
        ∧ (¬ mentions (InjectMagicVars ruleDocS4 (Some ∅)) x →
           ¬ mentions updateS4 x →
           ∀ k arg, ¬ assigns o k x arg).
Proof.
  apply (update_rules_override_caller (H := range_fwd) InjectMagicVars rulesS4
           tableRulesS4 updateS4 "t" "u1" "logged_in" (Some ∅)
           [None; Some {[ "$set" := VMap (Some {[ "role" := VStr "admin" ]}) ]};
            None]
           ruleDocS4).
  - reflexivity.
  - by eexists.
  - reflexivity.
  - by vm_compute.
  - right. apply map_Forall_singleton. left. split; [reflexivity|by eexists].
  - assert (InjectMagicVars ruleDocS4 (Some ∅) = ruleDocS4) as ->
      by (by vm_compute).
    right. apply map_Forall_singleton. left. split; [reflexivity|by eexists].
Defined.

(** ** The rule compiler: subject keys *)

(** A loop whose rounds succeed or not by the element alone succeeds exactly
    when every element makes its round succeed. *)
Lemma foldlM_ok_iff {A S : Type} (P : A → Prop) (f : S → A → outcome S)
    (l : list A) (s : S) :
  (∀ s a, (∃ s', f s a = Ok s') ↔ P a) →
  (∃ s', foldlM f l s = Ok s') ↔ Forall P l.
Proof.
  intros Hf. revert s. induction l as [|a l IH]; intros s.
  - split; [constructor|by eexists].
  - rewrite Forall_cons, <- (Hf s a). split.
    + intros [s' Hs']. apply foldlM_ok_cons in Hs' as (s1 & Ha & Hl).
      split; [by eauto|]. apply (IH s1). by eauto.
    + intros [[s1 Ha] Hl]. rewrite foldlM_cons, Ha. simpl. by apply IH.
Qed.

Section SubjectKeys.
Context `{RangeOrder} {U : UnicodeLower}.
Implicit Types (cfg : RulesConfig) (queryRules : QueryRules).

Lemma compileQueryEnforces_subject_ok cfg queryRules s fragment :
  (∃ queryRules',
     compileQueryEnforces_subject cfg queryRules (s, fragment) = Ok queryRules')
  ↔ validSubject cfg s = true.
Proof.
  unfold compileQueryEnforces_subject, validSubject.
  destruct (HasPrefix s "g:").
  { destruct (from2 s =? ""); simpl; [by split; [intros []|]|].
    destruct (Groups cfg !! from2 s) as [userNames|] eqn:Hg.
    - rewrite bool_decide_eq_true_2 by (by eexists). split; [done|by eexists].
    - rewrite bool_decide_eq_false_2 by (by intros []).
      by split; [intros []|]. }
  destruct (HasPrefix s "u:").
  { destruct (from2 s =? ""); simpl; [by split; [intros []|]|].
    split; [done|by eexists]. }
  destruct (HasPrefix s "s:").
  { destruct (isUserState _); [split; [done|by eexists]|].
    by split; [intros []|]. }
  destruct (s =? "default"); [split; [done|by eexists]|].
  by split; [intros []|].
Qed.

Lemma compileQueryEnforces_ok_valid cfg (enforces : queryEnforces) :
  (∃ queryRules, compileQueryEnforces cfg enforces = Ok queryRules)
  ↔ map_Forall (λ s _, validSubject cfg s = true) enforces.
Proof.
  unfold compileQueryEnforces.
  rewrite (foldlM_ok_iff (λ e, validSubject cfg e.1 = true)).
  - rewrite Forall_forall. split.
    + intros Hl s fragment Hs. by apply (Hl (s, fragment)), elem_of_range.
    + intros Hm [s fragment] Hs%elem_of_range. by apply (Hm s fragment).
  - intros queryRules [s fragment]. apply compileQueryEnforces_subject_ok.
Qed.

(** X9. [compileQueryEnforces] returns query rules exactly when every
    subject key of the section is valid; otherwise it returns an error. A
    state key is valid when [strings.ToLower] makes one of the five states
    of what follows [s:], whatever letters it lowers. *)
Theorem compileQueryEnforces_succeeds_iff_valid cfg (enforces : queryEnforces) :
  ((∃ queryRules, compileQueryEnforces cfg enforces = Ok queryRules)
   ↔ map_Forall (λ s _, validSubject cfg s = true) enforces)
  ∧ (¬ map_Forall (λ s _, validSubject cfg s = true) enforces →
     fails (compileQueryEnforces cfg enforces)).
Proof.
  split; [apply compileQueryEnforces_ok_valid|]. intros Hinvalid.
  destruct (compileQueryEnforces cfg enforces) as [queryRules|e|] eqn:Hrun.
  - destruct Hinvalid. apply compileQueryEnforces_ok_valid.
    exists queryRules. by rewrite <- Hrun.
  - by exists e.
  - by apply compileQueryEnforces_returns in Hrun.
Qed.

(** The keys of the compiled tables, after one round. *)
Lemma compileQueryEnforces_subject_keys cfg queryRules e queryRules' :
  compileQueryEnforces_subject cfg queryRules e = Ok queryRules' →
  (∀ g, is_Some (groupRules queryRules' !! g) →
        is_Some (groupRules queryRules !! g)
        ∨ (g ≠ "" ∧ is_Some (Groups cfg !! g)))
  ∧ (∀ u, is_Some (userRules queryRules' !! u) →
          is_Some (userRules queryRules !! u) ∨ u ≠ "")
  ∧ (∀ st, is_Some (userStateRules queryRules' !! st) →
           is_Some (userStateRules queryRules !! st) ∨ isUserState st = true).
Proof.
  destruct e as [s fragment]. unfold compileQueryEnforces_subject.
  destruct (HasPrefix s "g:").
  { destruct (from2 s =? "") eqn:Hempty; [done|].
    destruct (Groups cfg !! from2 s) as [userNames|] eqn:Hg; [|done].
    intros [= <-]. simpl. split_and!; [|by left..].
    intros g. destruct (decide (from2 s = g)) as [<-|Hne].
    - intros _. right. split; [|by eexists].
      by apply String.eqb_neq.
    - rewrite lookup_insert_ne by done. by left. }
  destruct (HasPrefix s "u:").
  { destruct (from2 s =? "") eqn:Hempty; [done|].
    intros [= <-]. simpl. split_and!; [by left| |by left].
    intros u. destruct (decide (from2 s = u)) as [<-|Hne].
    - intros _. right. by apply String.eqb_neq.
    - rewrite lookup_insert_ne by done. by left. }
  destruct (HasPrefix s "s:").
  { destruct (isUserState _) eqn:Hstate; [|done].
    intros [= <-]. simpl. split_and!; [by left..|].
    intros st. destruct (decide (ToLower (from2 s) = st)) as [<-|Hne].
    - intros _. by right.
    - rewrite lookup_insert_ne by done. by left. }
  destruct (s =? "default"); [|done].
  intros [= <-]. simpl. split_and!; by left.
Qed.

(** X10. In compiled query rules every group that has a rule is a group of
    the configuration with a non-empty name, every user that has a rule has
    a non-empty name, and every state that has a rule is one of the five
    user states, in lower case. *)
Theorem compiled_keys_valid cfg (enforces : queryEnforces) queryRules :
  compileQueryEnforces cfg enforces = Ok queryRules →
  (∀ g, is_Some (groupRules queryRules !! g) →
        g ≠ "" ∧ is_Some (Groups cfg !! g))
  ∧ (∀ u, is_Some (userRules queryRules !! u) → u ≠ "")
  ∧ (∀ st, is_Some (userStateRules queryRules !! st) →
           isUserState st = true ∧ ToLower st = st).
Proof.
  intros Hrun.
  assert ((∀ g, is_Some (groupRules queryRules !! g) →
                g ≠ "" ∧ is_Some (Groups cfg !! g))
          ∧ (∀ u, is_Some (userRules queryRules !! u) → u ≠ "")
          ∧ (∀ st, is_Some (userStateRules queryRules !! st) →
                   isUserState st = true)) as (Hg & Hu & Hst).
  { revert Hrun. unfold compileQueryEnforces.
    apply (foldlM_invariant
             (λ q, (∀ g, is_Some (groupRules q !! g) →
                         g ≠ "" ∧ is_Some (Groups cfg !! g))
                   ∧ (∀ u, is_Some (userRules q !! u) → u ≠ "")
                   ∧ (∀ st, is_Some (userStateRules q !! st) →
                            isUserState st = true))).
    - intros q e q' _ (Ig & Iu & Ist) He.
      apply compileQueryEnforces_subject_keys in He as (Hg & Hu & Hst).
      split_and!.
      + intros g [?|?]%Hg; by eauto.
      + intros u [?|?]%Hu; by eauto.
      + intros st [?|?]%Hst; by eauto.
    - simpl. split_and!; intros k [? Hk]; by rewrite lookup_empty in Hk. }
  split_and!; [done..|].
  intros st Hs%Hst. split; [done|].
  revert Hs. unfold isUserState. rewrite !orb_true_iff, !String.eqb_eq.
  intros [[[[->| ->]| ->]| ->]| ->]; reflexivity.
Qed.
End SubjectKeys.

(** ** The rule compiler: where the compiled fragments come from *)

Section CompiledFragments.
Context `{RangeOrder} {U : UnicodeLower}.
Implicit Types (cfg : RulesConfig) (queryRules : QueryRules).

Lemma compileQueryEnforces_subject_from (enforces : queryEnforces) cfg
    queryRules s fragment queryRules' :
  enforces !! s = Some fragment → fromSection enforces queryRules →
  compileQueryEnforces_subject cfg queryRules (s, fragment) = Ok queryRules' →
  fromSection enforces queryRules'.
Proof.
  intros Hs (Ig & Iu & Ist & Id). unfold compileQueryEnforces_subject.
  destruct (HasPrefix s "g:") eqn:Hpg.
  { destruct (from2 s =? ""); [done|].
    destruct (Groups cfg !! from2 s); [|done].
    intros [= <-]. split_and!; simpl; [|done..].
    intros g fragment'. destruct (decide (from2 s = g)) as [<-|Hne].
    - rewrite lookup_insert_eq. intros [= <-]. by exists s.
    - rewrite lookup_insert_ne by done. apply Ig. }
  destruct (HasPrefix s "u:") eqn:Hpu.
  { destruct (from2 s =? ""); [done|].
    intros [= <-]. split_and!; simpl; [done| |done..].
    intros u fragment'. destruct (decide (from2 s = u)) as [<-|Hne].
    - rewrite lookup_insert_eq. intros [= <-]. by exists s.
    - rewrite lookup_insert_ne by done. apply Iu. }
  destruct (HasPrefix s "s:") eqn:Hps.
  { destruct (isUserState _); [|done].
    intros [= <-]. split_and!; simpl; [done..| |done].
    intros st fragment'. destruct (decide (ToLower (from2 s) = st)) as [<-|Hne].
    - rewrite lookup_insert_eq. intros [= <-]. by exists s.
    - rewrite lookup_insert_ne by done. apply Ist. }
  destruct (s =? "default") eqn:Hd; [|done].
  apply String.eqb_eq in Hd as ->.
  intros [= <-]. split_and!; simpl; [done..|]. by right.
Qed.

Lemma compileQueryEnforces_from cfg (enforces : queryEnforces) queryRules :
  compileQueryEnforces cfg enforces = Ok queryRules →
  fromSection enforces queryRules.
Proof.
  unfold compileQueryEnforces. apply foldlM_invariant.
  - intros q [s fragment] q' Hin%elem_of_range.
    by apply compileQueryEnforces_subject_from.
  - split_and!; simpl; [by intros k fragment; rewrite lookup_empty..|by left].
Qed.

(** X11. The compiled query rules hold the section and nothing else. The
    compiler invents no rule: every fragment of the compiled rules is the
    fragment of a subject key of the section, of the tier the key names,
    and the default rule is the fragment of [default] or the empty
    document. And it loses none: the fragment of a subject key is in the
    place of the key, provided no other key of the section names the same
    state once lowered by [strings.ToLower]. *)
Theorem compiled_rules_from_section cfg (enforces : queryEnforces) queryRules :
  compileQueryEnforces cfg enforces = Ok queryRules →
  fromSection enforces queryRules
  ∧ ∀ s fragment,
      enforces !! s = Some fragment →
      (∀ s', is_Some (enforces !! s') → sameState s s' → s' = s) →
      stored queryRules s = Some fragment.
Proof.
  intros Hrun. split.
  - by apply (compileQueryEnforces_from cfg).
  - intros s fragment Hs Hstate.
    exact (compileQueryEnforces_stores cfg _ _ _ _ Hrun Hs Hstate).
Qed.
End CompiledFragments.

(** ** The rule compiler: validation of the update rules *)

Section UpdateRulesValidation.
Context `{RangeOrder}.
Implicit Types (r : Rules) (queryRules : QueryRules).

Lemma validateFragments_ok (m : gmap string enforceObject) :
  validateFragments m = Ok () ↔ map_Forall (λ _, wellFormed) m.
Proof.
  transitivity (∃ u, validateFragments m = Ok u).
  { split; [by eexists|by intros [[] ?]]. }
  unfold validateFragments.
  rewrite (foldlM_ok_iff (λ kv, wellFormed kv.2)).
  - rewrite Forall_forall. split.
    + intros Hl k d Hk. by apply (Hl (k, d)), elem_of_range.
    + intros Hm [k d] Hk%elem_of_range. by apply (Hm k d).
  - intros [] kv. split.
    + intros [u Hu].
      destruct (mergeUpdate [kv.2]) as [o| |] eqn:Ho; simpl in Hu; [|done..].
      apply mergeUpdate_ok_wf in Ho. by inversion Ho.
    + intros Hwf. rewrite mergeUpdate_wf; [by eexists|done|].
      by apply Forall_singleton.
Qed.

Lemma validateUpdateRules_ok queryRules :
  validateUpdateRules (Some queryRules) = Ok () ↔ allWellFormed queryRules.
Proof.
  unfold validateUpdateRules, allWellFormed.
  rewrite <- !validateFragments_ok. split.
  - destruct (mergeUpdate [defaultRules queryRules]) as [o| |] eqn:Ho;
      (destruct (validateFragments (userStateRules queryRules)) as [[]| |];
       simpl; [|done..]);
      (destruct (validateFragments (groupRules queryRules)) as [[]| |];
       simpl; [|done..]);
      (destruct (validateFragments (userRules queryRules)) as [[]| |];
       simpl; [|done..]); [|done..].
    intros _. split_and!; [done..|].
    apply mergeUpdate_ok_wf in Ho. by inversion Ho.
  - intros (-> & -> & -> & Hd).
    rewrite mergeUpdate_wf; [done|done|]. by apply Forall_singleton.
Qed.

(** X12. [validateUpdateRules] accepts compiled update rules exactly when
    every fragment of the three tiers and the default rule are well-formed;
    otherwise it returns an error. Nil rules are accepted. *)
Theorem validation_accepts_wellFormed queryRules :
  (validateUpdateRules (Some queryRules) = Ok () ↔ allWellFormed queryRules)
  ∧ (¬ allWellFormed queryRules → fails (validateUpdateRules (Some queryRules)))
  ∧ validateUpdateRules None = Ok ().
Proof.
  split_and!; [apply validateUpdateRules_ok| |done].
  intros Hno.
  destruct (validateUpdateRules (Some queryRules)) as [[]|e|] eqn:Hrun.
  - by apply validateUpdateRules_ok in Hrun.
  - by exists e.
  - by apply validateUpdateRules_returns in Hrun.
Qed.

(** What holds of the fragments of the group tier and of the slots the loop
    was given holds of the slots it returns. *)
Lemma findGroupRules_Forall (P : enforceObject → Prop) queryRules groups
    (resultRules l : list enforceObject) :
  map_Forall (λ _, P) (groupRules queryRules) → Forall P resultRules →
  findGroupRules queryRules groups resultRules = Ok l → Forall P l.
Proof.
  intros Hm. revert resultRules.
  induction groups as [|g groups IH]; simpl; intros resultRules Hacc.
  - by intros [= <-].
  - destruct (groupRules queryRules !! g) as [[rule|]|] eqn:Hg;
      [|done|by apply IH].
    apply IH. apply Forall_app. split; [done|].
    apply Forall_singleton. by apply (Hm g).
Qed.

Lemma tierRule_wellFormed (m : gmap string enforceObject) k deny rule :
  map_Forall (λ _, wellFormed) m → tierRule m k deny = Ok rule →
  wellFormed rule.
Proof.
  intros Hm. unfold tierRule.
  destruct (m !! k) as [[d|]|] eqn:Hk; [|done|by intros [= <-]].
  intros [= <-]. by apply (Hm k).
Qed.

(** The selection from well-formed rules is well-formed. *)
Lemma findRulesToApply_wellFormed r queryRules uid userState resultRules :
  allWellFormed queryRules →
  findRulesToApply (Some r) (Some queryRules) uid userState = Ok resultRules →
  Forall wellFormed resultRules.
Proof.
  intros (Hs & Hg & Hu & Hd). unfold findRulesToApply.
  destruct (tierRule (userStateRules queryRules) userState _)
    as [stateRule| |] eqn:Hstate; simpl; [|done..].
  destruct (findGroupRules queryRules _ _) as [l| |] eqn:Hl; simpl; [|done..].
  destruct (tierRule (userRules queryRules) uid _) as [rule| |] eqn:Hrule;
    simpl; [|done..].
  apply tierRule_wellFormed in Hstate; [|done].
  apply tierRule_wellFormed in Hrule; [|done].
  apply (findGroupRules_Forall wellFormed) in Hl;
    [|done|by apply Forall_singleton].
  assert (Forall wellFormed (l ++ [rule])) as Hall.
  { apply Forall_app. split; [done|by apply Forall_singleton]. }
  case_decide.
  - destruct (defaultRules queryRules) eqn:Hdef; [|done].
    intros [= <-]. apply Forall_app. split; [done|by apply Forall_singleton].
  - by intros [= <-].
Qed.
End UpdateRulesValidation.

(** ** The rule compiler: the tables of the compiled rules *)

Section CompiledTables.
Context `{RangeOrder} {U : UnicodeLower}.
Implicit Types (cfg : RulesConfig) (r : Rules) (te : tableEnforces).
Implicit Types (tr : TableRules).

Lemma compileTable_ok cfg r tableName te r' :
  compileTable cfg r (tableName, te) = Ok r' →
  ∃ tr, compiledTable cfg te tr
        ∧ rules r' = <[tableName := Some tr]> (rules r)
        ∧ groups r' = groups r.
Proof.
  unfold compileTable.
  destruct (compileQueryEnforces cfg (te_Find te)) as [find| |] eqn:Hfind;
    cbn -[validateUpdateRules]; [|done..].
  destruct (compileQueryEnforces cfg (te_Count te)) as [count| |] eqn:Hcount;
    cbn -[validateUpdateRules]; [|done..].
  destruct (compileQueryEnforces cfg (te_Remove te)) as [remove| |] eqn:Hremove;
    cbn -[validateUpdateRules]; [|done..].
  destruct (compileQueryEnforces cfg (te_Insert te)) as [insert| |] eqn:Hinsert;
    cbn -[validateUpdateRules]; [|done..].
  destruct (compileQueryEnforces cfg (uqe_Filter (te_Update te)))
    as [filter| |] eqn:Hfilter; cbn -[validateUpdateRules]; [|done..].
  destruct (compileQueryEnforces cfg (uqe_Update (te_Update te)))
    as [update| |] eqn:Hupdate; cbn -[validateUpdateRules]; [|done..].
  destruct (validateUpdateRules (Some update)) as [[]| |] eqn:Hvalid;
    cbn -[validateUpdateRules]; [|done..].
  intros [= <-]. eexists. split_and!; [|done..]. split.
  - intros qt. unfold sectionOf. cbn [table_rules].
    repeat case_decide; subst;
      [eexists; (split; [done|]); by vm_compute..|].
    rewrite !lookup_insert_ne by congruence. apply lookup_empty.
  - exists update. split_and!; [done..|]. by apply validateUpdateRules_ok.
Qed.

Lemma compileGroup_rules groupName userNames r :
  rules (compileGroup groupName userNames r) = rules r.
Proof.
  unfold compileGroup. revert r.
  induction userNames as [|u userNames IH]; intros r; simpl; [done|].
  by rewrite IH.
Qed.

Lemma compileGroups_rules cfg r : rules (compileGroups cfg r) = rules r.
Proof.
  unfold compileGroups. generalize (range (Groups cfg)). intros l. revert r.
  induction l as [|[g us] l IH]; intros r; simpl; [done|].
  by rewrite IH, compileGroup_rules.
Qed.

(** The loop over the tables binds each table of the list, whatever the
    order of the list, and no other table. *)
Lemma compileTables_rules cfg (l : list (string * tableEnforces)) r r' :
  NoDup l.*1 → foldlM (compileTable cfg) l r = Ok r' →
  ∀ table,
    (∀ te, (table, te) ∈ l →
           ∃ tr, compiledTable cfg te tr ∧ rules r' !! table = Some (Some tr))
    ∧ (table ∉ l.*1 → rules r' !! table = rules r !! table).
Proof.
  revert r. induction l as [|[tn0 te0] l IH]; intros r Hnd Hrun table.
  - injection Hrun as <-. split; [|done]. by intros te Hin%elem_of_nil.
  - apply foldlM_ok_cons in Hrun as (r1 & Hr1 & Hl).
    apply compileTable_ok in Hr1 as (tr0 & Htr0 & Hrules & _).
    rewrite fmap_cons in Hnd. apply NoDup_cons in Hnd as [Hfresh Hnd].
    destruct (IH r1 Hnd Hl table) as [IHin IHout]. split.
    + intros te [[= -> ->]|Hin]%elem_of_cons; [|by apply IHin].
      exists tr0. split; [done|].
      rewrite IHout, Hrules by done. apply lookup_insert_eq.
    + rewrite fmap_cons. intros [Hne Hnot]%not_elem_of_cons.
      rewrite IHout, Hrules by done. by rewrite lookup_insert_ne.
Qed.

Lemma CompileRawRules_tables cfg r :
  CompileRawRules (Some cfg) = Ok (Some r) →
  ∀ table,
    match cfg_Rules cfg !! table with
    | Some te =>
        ∃ tr, rules r !! table = Some (Some tr) ∧ compiledTable cfg te tr
    | None => rules r !! table = None
    end.
Proof.
  unfold CompileRawRules. destruct (validateStruct cfg); [|done].
  destruct (foldlM _ _ _) as [r'| |] eqn:Hr'; simpl; [|done..].
  intros [= <-] table.
  destruct (compileTables_rules _ _ _ _ (NoDup_fst_range _) Hr' table)
    as [Hin Hout].
  destruct (cfg_Rules cfg !! table) as [te|] eqn:Hte.
  - destruct (Hin te) as (tr & Htr & Hlookup); [by apply elem_of_range|].
    by exists tr.
  - rewrite Hout.
    + by rewrite compileGroups_rules.
    + intros ([tn te] & -> & Hin')%list_elem_of_fmap.
      apply elem_of_range in Hin'. simpl in Hte. congruence.
Qed.

(** X13. The compiled rules have exactly the tables of the configuration,
    whatever the order in which the tables were visited. For a table of the
    configuration [findUserRules] returns, for each of the five kinds of
    query, the compiled section of that kind (for [RuleQueryUpdate], the
    filter of the update rules) and nil for any other kind, and the
    [updateRules] of the table are the compiled update section, whose
    fragments are all well-formed. For any other table [findUserRules]
    returns nil. *)
Theorem compiled_tables_of_configuration cfg r :
  CompileRawRules (Some cfg) = Ok (Some r) →
  ∀ table,
    match cfg_Rules cfg !! table with
    | Some te =>
        (∀ qt, match sectionOf te qt with
               | Some enforces =>
                   ∃ queryRules,
                     findUserRules (Some r) table qt = Ok (Some queryRules)
                     ∧ compileQueryEnforces cfg enforces = Ok queryRules
               | None => findUserRules (Some r) table qt = Ok None
               end)
        ∧ ∃ tr update,
            rules r !! table = Some (Some tr) ∧ updateRules tr = Some update
            ∧ compileQueryEnforces cfg (uqe_Update (te_Update te)) = Ok update
            ∧ allWellFormed update
    | None =>
        rules r !! table = None
        ∧ ∀ qt, findUserRules (Some r) table qt = Ok None
    end.
Proof.
  intros Hr table. pose proof (CompileRawRules_tables cfg r Hr table) as Ht.
  destruct (cfg_Rules cfg !! table) as [te|] eqn:Hte.
  - destruct Ht as (tr & Htr & Hkinds & update & Hupdate & Hrules & Hwf).
    split; [|by exists tr, update].
    intros qt. specialize (Hkinds qt). unfold findUserRules. rewrite Htr.
    destruct (sectionOf te qt) as [enforces|].
    + destruct Hkinds as (queryRules & Hcompiled & Hlookup).
      exists queryRules. by rewrite Hlookup.
    + by rewrite Hkinds.
  - split; [done|]. intros qt. unfold findUserRules. by rewrite Ht.
Qed.

(** On a table of the configuration the compiled rules have query rules
    for each of the five kinds. *)
Lemma findUserRules_compiled cfg r table te qt enforces :
  CompileRawRules (Some cfg) = Ok (Some r) →
  cfg_Rules cfg !! table = Some te → sectionOf te qt = Some enforces →
  ∃ queryRules, findUserRules (Some r) table qt = Ok (Some queryRules)
                ∧ compileQueryEnforces cfg enforces = Ok queryRules.
Proof.
  intros Hr Hte Hqt. apply CompileRawRules_tables with (table := table) in Hr.
  rewrite Hte in Hr. destruct Hr as (tr & Htr & Hkinds & _).
  specialize (Hkinds qt). rewrite Hqt in Hkinds.
  destruct Hkinds as (queryRules & Hcompiled & Hlookup).
  exists queryRules. split; [|done].
  unfold findUserRules. by rewrite Htr, Hlookup.
Qed.

Lemma findUserRules_unconfigured cfg r table qt :
  CompileRawRules (Some cfg) = Ok (Some r) →
  cfg_Rules cfg !! table = None → findUserRules (Some r) table qt = Ok None.
Proof.
  intros Hr Hte. apply CompileRawRules_tables with (table := table) in Hr.
  rewrite Hte in Hr. unfold findUserRules. by rewrite Hr.
Qed.

(** The selector never panics on query rules that are there. *)
Lemma findRulesToApply_returns r queryRules uid userState :
  returns (findRulesToApply (Some r) (Some queryRules) uid userState).
Proof.
  unfold findRulesToApply.
  apply bind_returns.
  { unfold tierRule. by destruct (_ !! _) as [[?|]|]. }
  intros stateRule. apply bind_returns.
  { match goal with
    | |- context [findGroupRules queryRules ?gs ?acc] =>
        destruct (findGroupRules_cases queryRules gs acc)
          as [[_ [l ->]]|(g & _ & _ & ->)]
    end; done. }
  intros l. apply bind_returns.
  { unfold tierRule. by destruct (_ !! _) as [[?|]|]. }
  intros rule. case_decide; [|done].
  by destruct (defaultRules queryRules).
Qed.

Section Panics.
Variable inject : enforceObject → enforceObject → enforceObject.

(** X14. With compiled rules, [EnforceRulesOnFilter] and
    [EnforceRulesOnInsert] panic exactly for a table that the
    configuration does not have. *)
Theorem enforcers_panic_iff_unconfigured cfg r (q : enforceObject)
    (table uid userState : string) (vars : enforceObject)
    (qt : RuleQueryType) :
  CompileRawRules (Some cfg) = Ok (Some r) →
  (EnforceRulesOnFilter inject (Some r) q table uid userState vars qt = Panic
   ↔ cfg_Rules cfg !! table = None)
  ∧ (EnforceRulesOnInsert inject (Some r) q table uid userState vars = Panic
     ↔ cfg_Rules cfg !! table = None).
Proof.
  intros Hr. unfold EnforceRulesOnFilter, EnforceRulesOnInsert.
  destruct (cfg_Rules cfg !! table) as [te|] eqn:Hte.
  - destruct (findUserRules_compiled cfg r table te RuleQueryUpdate _ Hr Hte
                eq_refl) as (filter & -> & _).
    destruct (findUserRules_compiled cfg r table te RuleQueryInsert _ Hr Hte
                eq_refl) as (insert & -> & _).
    cbn [mbind outcome_bind].
    pose proof (findRulesToApply_returns r filter uid userState) as Hfilter.
    pose proof (findRulesToApply_returns r insert uid userState) as Hinsert.
    split.
    + destruct (findRulesToApply (Some r) (Some filter) uid userState)
        as [[|? ?]| |]; [| | |done]; simpl; by split.
    + destruct (findRulesToApply (Some r) (Some insert) uid userState)
        as [[|? ?]| |]; [| | |done]; simpl; by split.
  - rewrite !(findUserRules_unconfigured cfg r table _ Hr Hte). by split.
Qed.

(** X15. [EnforceRulesOnUpdate] panics exactly when its receiver is nil. On
    rules that are there it returns a document or an error, whatever the
    rules and the table, and for a table without rules it returns the
    caller's document. [EnforceRulesOnFilter] and [EnforceRulesOnInsert]
    panic on a nil receiver too. *)
Theorem EnforceRulesOnUpdate_panics_iff_nil (r : option Rules)
    (d : enforceObject) (table uid userState : string) (vars : enforceObject)
    (qt : RuleQueryType) :
  (EnforceRulesOnUpdate inject r d table uid userState vars = Panic
   ↔ r = None)
  ∧ (∀ r', r = Some r' → rules r' !! table = None →
           EnforceRulesOnUpdate inject r d table uid userState vars = Ok d)
  ∧ EnforceRulesOnFilter inject None d table uid userState vars qt = Panic
  ∧ EnforceRulesOnInsert inject None d table uid userState vars = Panic.
Proof.
  split_and!; [|by intros r' -> Htable; simpl; rewrite Htable|done..].
  destruct r as [r'|]; [|done]. split; [|done].
  intros Hpanic. exfalso. revert Hpanic. unfold EnforceRulesOnUpdate.
  destruct (rules r' !! table) as [[tr|]|]; [|done..].
  destruct (updateRules tr) as [update|]; [|done].
  apply bind_returns; [apply findRulesToApply_returns|intros resultRules].
  apply bind_returns; [apply mergeUpdate_returns|intros o].
  apply mergeUpdate_returns.
Qed.
End Panics.

(** X16. With compiled rules, the fragments that the selector selects from
    the update rules of a table always merge: the first [mergeUpdate] of
    [EnforceRulesOnUpdate] returns a document. *)
Theorem compiled_update_rules_merge cfg r table tr uid userState resultRules :
  CompileRawRules (Some cfg) = Ok (Some r) →
  rules r !! table = Some (Some tr) →
  findRulesToApply (Some r) (updateRules tr) uid userState = Ok resultRules →
  ∃ update, mergeUpdate resultRules = Ok (Some update).
Proof.
  intros Hr Htr Hsel. apply CompileRawRules_tables with (table := table) in Hr.
  destruct (cfg_Rules cfg !! table) as [te|]; [|congruence].
  destruct Hr as (tr' & Htr' & _ & update & _ & Hupdate & Hwf).
  assert (tr' = tr) as -> by congruence.
  rewrite Hupdate in Hsel.
  pose proof (findRulesToApply_length _ _ _ _ _ Hsel) as Hlen.
  apply findRulesToApply_wellFormed in Hsel; [|done].
  rewrite mergeUpdate_wf; [by eexists| |done].
  intros ->. simpl in Hlen. lia.
Qed.
End CompiledTables.

(** ** Denials of the configuration *)

Lemma state_key_tier (s : string) :
  HasPrefix s "s:" = true →
  HasPrefix s "g:" = false ∧ HasPrefix s "u:" = false.
Proof.
  unfold HasPrefix. destruct s as [|b s]; [done|]. cbn [String.prefix].
  match goal with
  | |- context [Ascii.ascii_dec ?a b] =>
      destruct (Ascii.ascii_dec a b) as [<-|]; [|done]
  end.
  intros _. split; reflexivity.
Qed.

Section ConfiguredDeny.
Context `{RangeOrder} {U : UnicodeLower}.
Variable inject : enforceObject → enforceObject → enforceObject.

Lemma compiled_state_denied cfg (enforces : queryEnforces) queryRules s :
  compileQueryEnforces cfg enforces = Ok queryRules →
  stateDenied enforces s →
  userStateRules queryRules !! ToLower (from2 s) = Some None.
Proof.
  intros Hrun (Hs & Hprefix & Hstate).
  pose proof (compileQueryEnforces_stores cfg _ _ _ _ Hrun Hs Hstate) as Hst.
  unfold stored in Hst.
  destruct (state_key_tier s Hprefix) as [Hg Hu].
  by rewrite Hg, Hu, Hprefix in Hst.
Qed.

Lemma findRulesToApply_state_denied r queryRules uid userState :
  userStateRules queryRules !! userState = Some None →
  findRulesToApply (Some r) (Some queryRules) uid userState
  = Err (EDenyState userState).
Proof. intros Hst. unfold findRulesToApply, tierRule. by rewrite Hst. Qed.

(** X17. A state key bound to [null] in the configuration reaches the
    caller: with the compiled rules, a principal in the state that
    [strings.ToLower] makes of the key is refused with the error of the
    state tier, provided no other key of the section is lowered to the
    same state. The key in the insert rules refuses inserts; the key in the
    filter of the update rules refuses every filter, whatever its kind of
    query; the key in the update of the update rules refuses updates. *)
Theorem configured_state_deny_enforced cfg r table te s (q : enforceObject)
    (uid : string) (vars : enforceObject) (qt : RuleQueryType) :
  CompileRawRules (Some cfg) = Ok (Some r) →
  cfg_Rules cfg !! table = Some te →
  (stateDenied (te_Insert te) s →
   EnforceRulesOnInsert inject (Some r) q table uid (ToLower (from2 s)) vars
   = Err (EDenyState (ToLower (from2 s))))
  ∧ (stateDenied (uqe_Filter (te_Update te)) s →
     EnforceRulesOnFilter inject (Some r) q table uid (ToLower (from2 s)) vars qt
     = Err (EDenyState (ToLower (from2 s))))
  ∧ (stateDenied (uqe_Update (te_Update te)) s →
     EnforceRulesOnUpdate inject (Some r) q table uid (ToLower (from2 s)) vars
     = Err (EDenyState (ToLower (from2 s)))).
Proof.
  intros Hr Hte. split_and!; intros Hdeny.
  - destruct (findUserRules_compiled cfg r table te RuleQueryInsert _ Hr Hte
                eq_refl) as (insert & Hfind & Hinsert).
    unfold EnforceRulesOnInsert. rewrite Hfind. cbn [mbind outcome_bind].
    by rewrite (findRulesToApply_state_denied _ _ _ _
                  (compiled_state_denied _ _ _ _ Hinsert Hdeny)).
  - destruct (findUserRules_compiled cfg r table te RuleQueryUpdate _ Hr Hte
                eq_refl) as (filter & Hfind & Hfilter).
    unfold EnforceRulesOnFilter. rewrite Hfind. cbn [mbind outcome_bind].
    by rewrite (findRulesToApply_state_denied _ _ _ _
                  (compiled_state_denied _ _ _ _ Hfilter Hdeny)).
  - apply CompileRawRules_tables with (table := table) in Hr.
    rewrite Hte in Hr.
    destruct Hr as (tr & Htr & _ & update & Hupdate & Hrules & _).
    unfold EnforceRulesOnUpdate. cbv beta iota. rewrite Htr, Hrules.
    by rewrite (findRulesToApply_state_denied _ _ _ _
                  (compiled_state_denied _ _ _ _ Hupdate Hdeny)).
Qed.
End ConfiguredDeny.

(** ** The groups of a user *)

(** X18. In the compiled rules the groups of a user are the groups of the
    configuration that list the user. *)
Theorem compiled_groups_of_user `{RangeOrder} {U : UnicodeLower}
    (cfg : RulesConfig) (r : Rules)
    (uid g : string) :
  CompileRawRules (Some cfg) = Ok (Some r) →
  g ∈ userGroups r !!! uid
  ↔ ∃ userNames, Groups cfg !! g = Some userNames ∧ uid ∈ userNames.
Proof.
  intros Hr. rewrite (CompileRawRules_userGroups cfg r uid Hr).
  unfold memberships. rewrite list_elem_of_bind. split.
  - intros ([g' userNames] & Hg & Hin%elem_of_range). simpl in Hg.
    apply list_elem_of_fmap in Hg as (u & -> & [-> Hu]%list_elem_of_filter).
    by exists userNames.
  - intros (userNames & Hg & Hu). exists (g, userNames).
    split; [|by apply elem_of_range]. simpl.
    apply list_elem_of_fmap. exists uid. split; [done|].
    by apply list_elem_of_filter.
Qed.

(** ** When a configuration compiles *)

Section CompileSucceeds.
Context `{RangeOrder} {U : UnicodeLower}.
Implicit Types (cfg : RulesConfig) (r : Rules) (te : tableEnforces).

Lemma compileTable_succeeds cfg r tableName te :
  (∃ r', compileTable cfg r (tableName, te) = Ok r') ↔ tableCompiles cfg te.
Proof.
  split.
  - intros [r' (tr & [Hkinds (update & Hupdate & _ & Hwf)] & _)%compileTable_ok].
    split.
    + unfold sections. rewrite !Forall_cons. split_and!; [..|done].
      * destruct (Hkinds RuleQueryFind) as (q & Hq & _).
        apply compileQueryEnforces_ok_valid. by exists q.
      * destruct (Hkinds RuleQueryCount) as (q & Hq & _).
        apply compileQueryEnforces_ok_valid. by exists q.
      * destruct (Hkinds RuleQueryRemove) as (q & Hq & _).
        apply compileQueryEnforces_ok_valid. by exists q.
      * destruct (Hkinds RuleQueryInsert) as (q & Hq & _).
        apply compileQueryEnforces_ok_valid. by exists q.
      * destruct (Hkinds RuleQueryUpdate) as (q & Hq & _).
        apply compileQueryEnforces_ok_valid. by exists q.
      * apply compileQueryEnforces_ok_valid. by exists update.
    + intros update' Hupdate'. congruence.
  - intros [Hvalid Hwf]. unfold sections in Hvalid.
    rewrite !Forall_cons in Hvalid.
    destruct Hvalid as (Hfind & Hcount & Hremove & Hinsert & Hfilter & Hupdate
                        & _).
    apply compileQueryEnforces_ok_valid in Hfind as [find Hfind].
    apply compileQueryEnforces_ok_valid in Hcount as [count Hcount].
    apply compileQueryEnforces_ok_valid in Hremove as [remove Hremove].
    apply compileQueryEnforces_ok_valid in Hinsert as [insert Hinsert].
    apply compileQueryEnforces_ok_valid in Hfilter as [filter Hfilter].
    apply compileQueryEnforces_ok_valid in Hupdate as [update Hupdate].
    specialize (Hwf update Hupdate). apply validateUpdateRules_ok in Hwf.
    unfold compileTable.
    rewrite Hfind, Hcount, Hremove, Hinsert, Hfilter, Hupdate.
    cbn -[validateUpdateRules]. rewrite Hwf. by eexists.
Qed.

(** X19. [CompileRawRules] compiles a configuration exactly when the
    validator accepts it and, for every table, every subject key of the six
    sections is valid and every fragment of the compiled update section is
    well-formed. *)
Theorem CompileRawRules_succeeds_iff cfg :
  (∃ r, CompileRawRules (Some cfg) = Ok (Some r))
  ↔ validateStruct cfg = true
    ∧ ∀ table te, cfg_Rules cfg !! table = Some te → tableCompiles cfg te.
Proof.
  unfold CompileRawRules.
  destruct (validateStruct cfg); [|by split; [intros []|intros []]].
  match goal with
  | |- context [foldlM (compileTable cfg) ?l ?r0] =>
      transitivity (∃ r', foldlM (compileTable cfg) l r0 = Ok r')
  end.
  { split.
    - intros [r Hr]. destruct (foldlM _ _ _) as [r'| |]; [|done..].
      by exists r'.
    - intros [r' ->]. by exists r'. }
  rewrite (foldlM_ok_iff (λ e, tableCompiles cfg e.2)).
  - rewrite Forall_forall. split.
    + intros Hl. split; [done|]. intros table te Hte.
      by apply (Hl (table, te)), elem_of_range.
    + intros [_ Hm] [table te] Hte%elem_of_range. by apply (Hm table te).
  - intros r [table te]. apply compileTable_succeeds.
Qed.
End CompileSucceeds.

(** ** The rules manager *)

(** X20. [Get] returns what the last [Set] of the database stored, and
    what it returned before for any other database; it returns nil for a
    database that was never set, as it does for one set to nil. *)
Theorem RulesManager_Get_Set (m : RulesManager) (dbID dbID' : string)
    (rules : option Rules) :
  RulesManager_Get (RulesManager_Set m dbID rules) dbID'
  = (if decide (dbID = dbID') then rules else RulesManager_Get m dbID')
  ∧ RulesManager_Get ∅ dbID = None
  ∧ RulesManager_Get (RulesManager_Set m dbID None) dbID
    = RulesManager_Get (delete dbID m) dbID.
Proof.
  unfold RulesManager_Get, RulesManager_Set. split_and!.
  - case_decide as Hdb.
    + subst. by rewrite lookup_insert_eq.
    + by rewrite lookup_insert_ne.
  - by rewrite lookup_empty.
  - by rewrite lookup_insert_eq, lookup_delete_eq.
Qed.

(** ** The properties of the compiler on [cfgDeny] *)

Lemma compileQueryEnforces_succeeds_iff_valid_witness :
  fails (compileQueryEnforces (H := range_fwd) (U := unicode_unchanged) cfgDeny
           enforcesInvalid).
Proof.
  apply (proj2 (compileQueryEnforces_succeeds_iff_valid (H := range_fwd)
           (U := unicode_unchanged)
                  cfgDeny enforcesInvalid)).
  intros Hall.
  assert (enforcesInvalid !! "everyone" = Some (Some ∅)) as Hkey
    by reflexivity.
  apply Hall in Hkey. vm_compute in Hkey. discriminate.
Defined.

Lemma compiled_keys_valid_witness :
  (∀ g, is_Some (groupRules queryRulesStaff !! g) →
        g ≠ "" ∧ is_Some (Groups cfgDeny !! g))
  ∧ (∀ u, is_Some (userRules queryRulesStaff !! u) → u ≠ "")
  ∧ (∀ st, is_Some (userStateRules queryRulesStaff !! st) →
           isUserState st = true
           ∧ ToLower (U := unicode_unchanged) st = st).
Proof.
  apply (compiled_keys_valid (H := range_fwd)
           (U := unicode_unchanged) cfgDeny enforcesStaff
           queryRulesStaff).
  by vm_compute.
Defined.

Lemma compiled_rules_from_section_witness :
  fromSection (U := unicode_unchanged) enforcesStaff queryRulesStaff
  ∧ ∀ s fragment,
      enforcesStaff !! s = Some fragment →
      (∀ s', is_Some (enforcesStaff !! s') →
             sameState (U := unicode_unchanged) s s' → s' = s) →
      stored (U := unicode_unchanged) queryRulesStaff s = Some fragment.
Proof.
  apply (compiled_rules_from_section (H := range_fwd)
           (U := unicode_unchanged) cfgDeny enforcesStaff
           queryRulesStaff).
  by vm_compute.
Defined.

Lemma compiled_tables_of_configuration_witness :
  (∀ qt, match sectionOf tableDeny qt with
         | Some enforces =>
             ∃ queryRules,
               findUserRules (Some rulesDenied) "t" qt = Ok (Some queryRules)
               ∧ compileQueryEnforces (H := range_fwd)
                   (U := unicode_unchanged) cfgDeny enforces
                 = Ok queryRules
         | None => findUserRules (Some rulesDenied) "t" qt = Ok None
         end)
  ∧ ∃ tr update,
      rules rulesDenied !! "t" = Some (Some tr) ∧ updateRules tr = Some update
      ∧ compileQueryEnforces (H := range_fwd) (U := unicode_unchanged) cfgDeny
          (uqe_Update (te_Update tableDeny)) = Ok update
      ∧ allWellFormed update.
Proof.
  assert (CompileRawRules (H := range_fwd) (U := unicode_unchanged) (Some cfgDeny)
          = Ok (Some rulesDenied)) as Hr by (by vm_compute).
  exact (compiled_tables_of_configuration (H := range_fwd)
           (U := unicode_unchanged) cfgDeny rulesDenied
           Hr "t").
Defined.

Lemma enforcers_panic_iff_unconfigured_witness :
  (EnforceRulesOnFilter InjectMagicVars (Some rulesDenied) filterS1
     "orders" "u1" "logged_in" (Some ∅) RuleQueryFind = Panic
   ↔ cfg_Rules cfgDeny !! "orders" = None)
  ∧ (EnforceRulesOnInsert (H := range_fwd) InjectMagicVars (Some rulesDenied) filterS1
       "orders" "u1" "logged_in" (Some ∅) = Panic
     ↔ cfg_Rules cfgDeny !! "orders" = None).
Proof.
  apply (enforcers_panic_iff_unconfigured (H := range_fwd)
           (U := unicode_unchanged) InjectMagicVars
           cfgDeny rulesDenied).
  by vm_compute.
Defined.

Lemma compiled_update_rules_merge_witness :
  ∃ update,
    mergeUpdate (H := range_fwd)
      [None; Some {[ "$set" := VMap (Some {[ "by" := VStr "u1" ]}) ]}]
    = Ok (Some update).
Proof.
  apply (compiled_update_rules_merge (H := range_fwd)
           (U := unicode_unchanged) cfgDeny rulesDenied "t"
           tableRulesDeny "u1" "logged_in").
  - by vm_compute.
  - reflexivity.
  - reflexivity.
Defined.

Lemma configured_state_deny_enforced_witness :
  EnforceRulesOnInsert (H := range_fwd) InjectMagicVars (Some rulesDenied) (Some ∅)
    "t" "u1" "disabled" (Some ∅) = Err (EDenyState "disabled")
  ∧ EnforceRulesOnFilter InjectMagicVars (Some rulesDenied) (Some ∅)
      "t" "u1" "disabled" (Some ∅) RuleQueryFind = Err (EDenyState "disabled")
  ∧ EnforceRulesOnUpdate (H := range_fwd) InjectMagicVars (Some rulesDenied) (Some ∅)
      "t" "u1" "disabled" (Some ∅) = Err (EDenyState "disabled").
Proof.
  assert (CompileRawRules (H := range_fwd) (U := unicode_unchanged) (Some cfgDeny)
          = Ok (Some rulesDenied)) as Hr by (by vm_compute).
  destruct (configured_state_deny_enforced (H := range_fwd)
           (U := unicode_unchanged) InjectMagicVars
              cfgDeny rulesDenied "t" tableDeny "s:Disabled" (Some ∅) "u1"
              (Some ∅) RuleQueryFind Hr eq_refl) as (Hinsert & _ & _).
  destruct (configured_state_deny_enforced (H := range_fwd)
           (U := unicode_unchanged) InjectMagicVars
              cfgDeny rulesDenied "t" tableDeny "s:disabled" (Some ∅) "u1"
              (Some ∅) RuleQueryFind Hr eq_refl) as (_ & Hfilter & Hupdate).
  split_and!.
  - apply Hinsert. split_and!; [reflexivity..|].
    unfold tableDeny. cbn [te_Insert].
    by intros s' [v [<- _]%lookup_singleton_Some] _.
  - apply Hfilter. split_and!; [reflexivity..|].
    unfold tableDeny. cbn [te_Update uqe_Filter].
    by intros s' [v [<- _]%lookup_singleton_Some] _.
  - apply Hupdate. split_and!; [reflexivity..|].
    unfold tableDeny. cbn [te_Update uqe_Update].
    intros s' [v Hs'] (_ & Hprefix & _).
    destruct (decide (s' = "s:disabled")) as [->|Hne]; [done|].
    rewrite lookup_insert_ne in Hs' by done.
    apply lookup_singleton_Some in Hs' as [<- _].
    vm_compute in Hprefix. discriminate.
Defined.

Lemma compiled_groups_of_user_witness :
  "staff" ∈ userGroups rulesDenied !!! "u2"
  ↔ ∃ userNames, Groups cfgDeny !! "staff" = Some userNames ∧ "u2" ∈ userNames.
Proof.
  apply (compiled_groups_of_user (H := range_fwd)
           (U := unicode_unchanged) cfgDeny rulesDenied "u2"
           "staff").
  by vm_compute.
Defined.

Lemma CompileRawRules_succeeds_iff_witness :
  validateStruct cfgDeny = true
  ∧ ∀ table te, cfg_Rules cfgDeny !! table = Some te →
                tableCompiles (H := range_fwd) (U := unicode_unchanged) cfgDeny te.
Proof.
  apply (proj1 (CompileRawRules_succeeds_iff (H := range_fwd)
           (U := unicode_unchanged) cfgDeny)).
  exists rulesDenied. by vm_compute.
Defined.

(** * The session pool *)

Lemma foldlE_cons {A S : Type} (f : S → A → effect S) (a : A) (l : list A)
    (s : S) :
  foldlE f (a :: l) s = f s a ≫= foldlE f l.
Proof. reflexivity. Qed.

Section PoolProperties.
Context `{RangeOrder}.
Variable n : nat.
Implicit Types (p : SessionPool) (s : Session) (shut : gset Conn).
Implicit Types (id : string) (conn : Conn).

(** A session of a kept pool is the session of its node with the
    connections it holds. *)
Lemma kept_session p id s :
  poolKept n p → sessions p !! id = Some s →
  s = session_with n id (buf (sess s)) ∧ (length (buf (sess s)) ≤ n)%nat.
Proof.
  intros Hp Hs. destruct (Hp id s Hs) as (Ht & Hc & Hn & Hl).
  split; [|done]. destruct s as [t [b c cl]]. simpl in *. by subst.
Qed.

Lemma kept_insert p id l :
  poolKept n p → (length l ≤ n)%nat →
  poolKept n {| sessions := <[id := session_with n id l]> (sessions p) |}.
Proof. intros Hp Hl. by apply map_Forall_insert_2. Qed.

Lemma pool_eta p id s :
  sessions p !! id = Some s → {| sessions := <[id := s]> (sessions p) |} = p.
Proof. intros Hs. rewrite insert_id by done. by destruct p. Qed.

(** *** [Get] *)

Lemma SessionPool_Get_pooled p id s c rest :
  poolKept n p → sessions p !! id = Some s → buf (sess s) = c :: rest →
  SessionPool_Get n p id
  = Returns (Pooled c,
             {| sessions := <[id := session_with n id rest]> (sessions p) |}).
Proof.
  intros Hp Hs Hb. destruct (kept_session p id s Hp Hs) as [Heq _].
  rewrite Hb in Heq. unfold SessionPool_Get, getSession. rewrite Hs.
  by rewrite Heq.
Qed.

Lemma SessionPool_Get_blocks p id :
  poolKept n p →
  sessions p !! id = None
  ∨ (∃ s, sessions p !! id = Some s ∧ buf (sess s) = []) →
  SessionPool_Get n p id = Blocks.
Proof.
  intros Hp [Hs|(s & Hs & Hb)]; unfold SessionPool_Get, getSession;
    rewrite Hs; [done|].
  destruct (kept_session p id s Hp Hs) as [Heq _].
  rewrite Hb in Heq. by rewrite Heq.
Qed.

(** *** [Put] *)

Lemma SessionPool_Put_room p id s conn shut :
  poolKept n p → sessions p !! id = Some s →
  (length (buf (sess s)) < n)%nat →
  SessionPool_Put p id conn shut
  = Returns (true,
             {| sessions :=
                  <[id := session_with n id (buf (sess s) ++ [conn])]>
                    (sessions p) |},
             shut).
Proof.
  intros Hp Hs Hroom. destruct (kept_session p id s Hp Hs) as [Heq _].
  unfold SessionPool_Put. rewrite Hs. rewrite Heq.
  unfold Session_put, trySend. simpl.
  by rewrite decide_True by done.
Qed.

Lemma SessionPool_Put_full p id s conn shut :
  poolKept n p → sessions p !! id = Some s →
  length (buf (sess s)) = n →
  SessionPool_Put p id conn shut = Returns (true, p, shut ∪ {[ conn ]}).
Proof.
  intros Hp Hs Hfull. destruct (kept_session p id s Hp Hs) as [Heq _].
  unfold SessionPool_Put. rewrite Hs.
  assert (Session_put s conn shut = Returns (false, s, shut ∪ {[ conn ]}))
    as ->.
  { rewrite Heq. unfold Session_put, trySend. simpl.
    by rewrite decide_False by lia. }
  simpl. by rewrite pool_eta.
Qed.

(** *** [Close] and [Remove] *)

Lemma Session_Close_open s shut :
  closed (sess s) = false →
  Session_Close s shut
  = Returns ({| target := target s;
                sess := {| buf := []; cap := cap (sess s); closed := true |} |},
             shut ∪ list_to_set (buf (sess s))).
Proof. intros Hs. unfold Session_Close, close. by rewrite Hs. Qed.

Lemma Close_loop (l : list (string * Session)) shut :
  Forall (λ kv, closed (sess kv.2) = false) l →
  ∃ shut',
    foldlE (λ shut kv, r ← Session_Close kv.2 shut; Returns r.2) l shut
    = Returns shut'
    ∧ ∀ c, c ∈ shut' ↔ c ∈ shut ∨ ∃ kv, kv ∈ l ∧ c ∈ buf (sess kv.2).
Proof.
  intros Hl. revert shut. induction Hl as [|kv l Hkv _ IH]; intros shut.
  - exists shut. split; [done|]. intros c. split; [by left|].
    by intros [?|(kv & Hin%elem_of_nil & _)].
  - rewrite foldlE_cons, Session_Close_open by done.
    destruct (IH (shut ∪ list_to_set (buf (sess kv.2))))
      as (shut' & Hrun & Hshut').
    exists shut'. split; [done|]. intros c.
    rewrite Hshut', elem_of_union, elem_of_list_to_set. split.
    + intros [[?|?]|(kv' & Hin & Hc)].
      * by left.
      * right. exists kv. split; [by left|done].
      * right. exists kv'. split; [by right|done].
    + intros [?|(kv' & [->|Hin]%elem_of_cons & Hc)].
      * by left; left.
      * by left; right.
      * right. by exists kv'.
Qed.

(** *** [Len] *)

Lemma Len_fold (l : list (string * Session)) (total : nat) :
  fold_left (λ total kv, (total + Session_Len kv.2)%nat) l total
  = (total + sum_list_with (λ kv, Session_Len kv.2) l)%nat.
Proof.
  revert total. induction l as [|kv l IH]; intros total; simpl; [lia|].
  rewrite IH. lia.
Qed.

Lemma SessionPool_Len_sum p :
  SessionPool_Len p
  = sum_list_with (λ kv, Session_Len kv.2) (map_to_list (sessions p)).
Proof.
  unfold SessionPool_Len. rewrite Len_fold. simpl.
  by rewrite (range_perm _ (sessions p)).
Qed.

Lemma SessionPool_Len_delete p id s :
  sessions p !! id = Some s →
  (SessionPool_Len {| sessions := delete id (sessions p) |} + Session_Len s
   = SessionPool_Len p)%nat.
Proof.
  intros Hs. rewrite !SessionPool_Len_sum. simpl.
  rewrite <- (map_to_list_delete (sessions p) id s Hs). simpl. lia.
Qed.

Lemma SessionPool_Len_insert p id s s' :
  sessions p !! id = Some s →
  (SessionPool_Len {| sessions := <[id := s']> (sessions p) |} + Session_Len s
   = SessionPool_Len p + Session_Len s')%nat.
Proof.
  intros Hs. rewrite <- (SessionPool_Len_delete p id s Hs).
  rewrite !SessionPool_Len_sum. simpl.
  rewrite <- insert_delete_eq.
  rewrite (map_to_list_insert (delete id (sessions p)) id s')
    by apply lookup_delete_eq.
  simpl. lia.
Qed.
End PoolProperties.

(** ** What the calls of the pool do *)

Section PoolCalls.
Context `{RangeOrder}.
Variable n : nat.
Implicit Types (p : SessionPool) (s : Session) (shut : gset Conn).
Implicit Types (id : string) (conn : Conn).

(** X21. The sessions of the pool stay open. A new pool is kept; a call of
    [Get] that returns leaves the pool kept; on a kept pool [Put],
    [Remove] and [Close] return, without blocking and without a panic,
    and leave the pool kept, [Close] leaving it empty. *)
Theorem pool_sessions_stay_open :
  poolKept n newSessionPool
  ∧ (∀ p id g p',
       poolKept n p → SessionPool_Get n p id = Returns (g, p') →
       poolKept n p')
  ∧ (∀ p id conn shut,
       poolKept n p →
       ∃ ok p' shut',
         SessionPool_Put p id conn shut = Returns (ok, p', shut')
         ∧ poolKept n p')
  ∧ (∀ p id shut,
       poolKept n p →
       ∃ p' shut',
         SessionPool_Remove p id shut = Returns (p', shut') ∧ poolKept n p')
  ∧ (∀ p shut,
       poolKept n p →
       ∃ shut', SessionPool_Close p shut = Returns (newSessionPool, shut')).
Proof.
  split_and!.
  - apply map_Forall_empty.
  - intros p id g p' Hp.
    destruct (sessions p !! id) as [s|] eqn:Hs.
    + destruct (kept_session n p id s Hp Hs) as [_ Hlen].
      destruct (buf (sess s)) as [|c rest] eqn:Hb.
      * rewrite SessionPool_Get_blocks; [done|done|].
        right. by exists s.
      * rewrite (SessionPool_Get_pooled n p id s c rest) by done.
        intros [= <- <-]. apply kept_insert; [done|]. simpl in Hlen. lia.
    + rewrite SessionPool_Get_blocks; [done|done|by left].
  - intros p id conn shut Hp.
    destruct (sessions p !! id) as [s|] eqn:Hs.
    + destruct (kept_session n p id s Hp Hs) as [_ Hlen].
      destruct (decide (length (buf (sess s)) < n)%nat) as [Hroom|Hfull].
      * rewrite (SessionPool_Put_room n p id s) by done.
        eexists _, _, _. split; [done|].
        apply kept_insert; [done|]. rewrite length_app. simpl. lia.
      * rewrite (SessionPool_Put_full n p id s) by (done || lia).
        by eexists _, _, _.
    + unfold SessionPool_Put. rewrite Hs. by eexists _, _, _.
  - intros p id shut Hp. unfold SessionPool_Remove.
    destruct (sessions p !! id) as [s|] eqn:Hs; [|by eexists _, _].
    destruct (Hp id s Hs) as (_ & Hopen & _).
    rewrite Session_Close_open by done.
    eexists _, _. split; [done|]. by apply map_Forall_delete.
  - intros p shut Hp. unfold SessionPool_Close.
    destruct (Close_loop (range (sessions p)) shut) as (shut' & -> & _).
    + apply Forall_forall. intros [id s] Hin%elem_of_range.
      by destruct (Hp id s Hin) as (_ & Hopen & _).
    + by exists shut'.
Qed.

(** X22. [Session.Get] dials exactly when the channel of the session is
    closed and empty. In a run of one goroutine the sessions of the pool
    are open when [SessionPool.Get] reads them, the pool being kept: [Get]
    then returns the oldest connection that the session of the node holds
    and takes it out of the session, or, when the node has no session or
    the session holds no connection, blocks at the receive; it does not
    return what [newSession] returns. It dials when the session that
    [getSession] returned is closed before [sess.Get()] runs, as a [Remove]
    or a [Close] of another goroutine does between the two: on the closed
    session [Session.Get] returns what [newSession] returns for the
    node. *)
Theorem pool_Get_dials_iff_closed p id :
  poolKept n p →
  (∀ s c rest,
     sessions p !! id = Some s → buf (sess s) = c :: rest →
     SessionPool_Get n p id
     = Returns (Pooled c,
                {| sessions :=
                     <[id := session_with n id rest]> (sessions p) |}))
  ∧ (sessions p !! id = None
     ∨ (∃ s, sessions p !! id = Some s ∧ buf (sess s) = []) →
     SessionPool_Get n p id = Blocks)
  ∧ (∀ g p', SessionPool_Get n p id = Returns (g, p') → ∃ c, g = Pooled c)
  ∧ (∀ shut,
       ∃ s' shut',
         Session_Close (getSession n p id).1.1 shut = Returns (s', shut')
         ∧ Session_Get s' = Returns (NewSession id, s'))
  ∧ (∀ s g s',
       Session_Get s = Returns (g, s') →
       (∃ t, g = NewSession t)
       ↔ closed (sess s) = true ∧ buf (sess s) = []).
Proof.
  intros Hp. split_and!.
  - intros s c rest. by apply SessionPool_Get_pooled.
  - by apply SessionPool_Get_blocks.
  - intros g p'. destruct (sessions p !! id) as [s|] eqn:Hs.
    + destruct (buf (sess s)) as [|c rest] eqn:Hb.
      * rewrite SessionPool_Get_blocks; [done|done|].
        right. by exists s.
      * rewrite (SessionPool_Get_pooled n p id s c rest) by done.
        intros [= <- _]. by exists c.
    + rewrite SessionPool_Get_blocks; [done|done|by left].
  - intros shut. unfold getSession.
    destruct (sessions p !! id) as [s|] eqn:Hs; simpl.
    + destruct (Hp id s Hs) as (Ht & Hopen & _).
      rewrite Session_Close_open by done. eexists _, _. split; [done|].
      unfold Session_Get, receive. simpl. by rewrite Ht.
    + by eexists _, _.
  - intros s g s'. unfold Session_Get, receive.
    destruct (buf (sess s)) as [|c rest]; [destruct (closed (sess s))|];
      simpl; [|done|].
    + intros [= <- _]. split; [done|]. intros _. by eexists.
    + intros [= <- _]. split; [by intros [t ?]|by intros [_ ?]].
Qed.

(** X23. A connection put into a session that has room comes back, after
    the connections that were there before it: [Put] returns true and
    closes nothing, and the next [Get] of the node returns the oldest
    connection of the session, which is the one that was put when the
    session was empty; the pool is then as it was before the two calls. *)
Theorem pool_Put_then_Get p id s conn shut :
  poolKept n p → sessions p !! id = Some s →
  (length (buf (sess s)) < n)%nat →
  ∃ p1,
    SessionPool_Put p id conn shut = Returns (true, p1, shut)
    ∧ SessionPool_Get n p1 id
      = Returns (Pooled (hd conn (buf (sess s))),
                 {| sessions :=
                      <[id := session_with n id (tl (buf (sess s) ++ [conn]))]>
                        (sessions p) |})
    ∧ (buf (sess s) = [] →
       SessionPool_Get n p1 id = Returns (Pooled conn, p)).
Proof.
  intros Hp Hs Hroom. eexists. split; [by apply SessionPool_Put_room|].
  assert (poolKept n
            {| sessions :=
                 <[id := session_with n id (buf (sess s) ++ [conn])]>
                   (sessions p) |}) as Hp1.
  { apply kept_insert; [done|]. rewrite length_app. simpl. lia. }
  assert (∀ c rest,
            buf (sess s) ++ [conn] = c :: rest →
            SessionPool_Get n
              {| sessions :=
                   <[id := session_with n id (buf (sess s) ++ [conn])]>
                     (sessions p) |} id
            = Returns (Pooled c,
                       {| sessions :=
                            <[id := session_with n id rest]> (sessions p) |}))
    as Hget.
  { intros c rest Hb.
    rewrite (SessionPool_Get_pooled n _ id
               (session_with n id (buf (sess s) ++ [conn])) c rest Hp1);
      [|apply lookup_insert_eq|done].
    simpl. by rewrite insert_insert_eq. }
  split.
  - destruct (buf (sess s)) as [|c rest]; by apply Hget.
  - intros Hb. destruct (kept_session n p id s Hp Hs) as [Heq _].
    rewrite Hb in *. rewrite (Hget conn []) by done.
    by rewrite <- Heq, pool_eta.
Qed.

(** X24. What [Put] does with a connection it cannot pool. For a node
    without a session it returns false and leaves the pool and the
    connection as they are: the connection is neither pooled nor closed.
    For a node whose session is full it closes the connection, leaves the
    pool as it is, and returns true all the same. *)
Theorem pool_Put_not_pooled p id conn shut :
  poolKept n p →
  (sessions p !! id = None →
   SessionPool_Put p id conn shut = Returns (false, p, shut))
  ∧ (∀ s, sessions p !! id = Some s → length (buf (sess s)) = n →
          SessionPool_Put p id conn shut
          = Returns (true, p, shut ∪ {[ conn ]})).
Proof.
  intros Hp. split.
  - intros Hs. unfold SessionPool_Put. by rewrite Hs.
  - intros s. by apply SessionPool_Put_full.
Qed.

(** X25. [Close] closes every connection that the pool holds and no other,
    and leaves the pool empty, whatever the order in which it visits the
    sessions. [Remove] closes the connections of the session of the node,
    takes the session out of the pool and leaves the other sessions as
    they are; for a node without a session it does nothing. *)
Theorem pool_Close_closes_pooled p shut :
  poolKept n p →
  (∃ shut',
     SessionPool_Close p shut = Returns (newSessionPool, shut')
     ∧ ∀ c, c ∈ shut' ↔ c ∈ shut ∨ pooled p c)
  ∧ (∀ id s,
       sessions p !! id = Some s →
       SessionPool_Remove p id shut
       = Returns ({| sessions := delete id (sessions p) |},
                  shut ∪ list_to_set (buf (sess s))))
  ∧ (∀ id, sessions p !! id = None →
           SessionPool_Remove p id shut = Returns (p, shut)).
Proof.
  intros Hp. split_and!.
  - unfold SessionPool_Close.
    destruct (Close_loop (range (sessions p)) shut) as (shut' & -> & Hshut').
    { apply Forall_forall. intros [id s] Hin%elem_of_range.
      by destruct (Hp id s Hin) as (_ & Hopen & _). }
    exists shut'. split; [done|]. intros c. rewrite Hshut'.
    unfold pooled. split.
    + intros [?|([id s] & Hin%elem_of_range & Hc)]; [by left|].
      right. by exists id, s.
    + intros [?|(id & s & Hs & Hc)]; [by left|].
      right. exists (id, s). split; [by apply elem_of_range|done].
  - intros id s Hs. unfold SessionPool_Remove. rewrite Hs.
    destruct (Hp id s Hs) as (_ & Hopen & _).
    by rewrite Session_Close_open.
  - intros id Hs. unfold SessionPool_Remove. by rewrite Hs.
Qed.

(** X26. [Len] counts the connections that the pool holds, whatever the
    order in which it visits the sessions: it is zero for a new pool, a
    [Put] into a session with room adds one, a [Put] that does not pool
    the connection adds nothing, a [Get] that returns takes one, and a
    [Remove] takes the connections of the session. *)
Theorem pool_Len_counts p id s :
  poolKept n p → sessions p !! id = Some s →
  SessionPool_Len newSessionPool = 0%nat
  ∧ (∀ conn shut ok p' shut',
       SessionPool_Put p id conn shut = Returns (ok, p', shut') →
       SessionPool_Len p'
       = if decide (length (buf (sess s)) < n)%nat
         then S (SessionPool_Len p) else SessionPool_Len p)
  ∧ (∀ g p', SessionPool_Get n p id = Returns (g, p') →
             S (SessionPool_Len p') = SessionPool_Len p)
  ∧ (∀ shut p' shut',
       SessionPool_Remove p id shut = Returns (p', shut') →
       (SessionPool_Len p' + length (buf (sess s)))%nat = SessionPool_Len p).
Proof.
  intros Hp Hs. destruct (kept_session n p id s Hp Hs) as [_ Hlen].
  split_and!.
  - unfold SessionPool_Len, newSessionPool. simpl. by rewrite range_empty.
  - intros conn shut ok p' shut'. case_decide as Hroom.
    + rewrite (SessionPool_Put_room n p id s) by done. intros [= _ <- _].
      pose proof (SessionPool_Len_insert p id s
                    (session_with n id (buf (sess s) ++ [conn])) Hs) as Hsum.
      unfold Session_Len in Hsum. simpl in Hsum.
      rewrite length_app in Hsum. simpl in Hsum. lia.
    + rewrite (SessionPool_Put_full n p id s) by (done || lia).
      by intros [= _ <- _].
  - intros g p'. destruct (buf (sess s)) as [|c rest] eqn:Hb.
    + rewrite SessionPool_Get_blocks; [done|done|].
      right. by exists s.
    + rewrite (SessionPool_Get_pooled n p id s c rest) by done.
      intros [= _ <-].
      pose proof (SessionPool_Len_insert p id s (session_with n id rest) Hs)
        as Hsum.
      unfold Session_Len in Hsum. simpl in Hsum. rewrite Hb in Hsum.
      simpl in Hsum. lia.
  - intros shut p' shut'. unfold SessionPool_Remove. rewrite Hs.
    destruct (Hp id s Hs) as (_ & Hopen & _).
    rewrite Session_Close_open by done. intros [= <- _].
    apply (SessionPool_Len_delete p id s Hs).
Qed.
End PoolCalls.

(** ** The calls of the pool on [poolTwo] *)

Lemma poolTwo_kept : poolKept 2 poolTwo.
Proof.
  unfold poolKept, poolTwo. simpl.
  apply map_Forall_insert_2; [by split_and!; simpl; [..|lia]|].
  apply map_Forall_singleton. by split_and!; simpl; [..|lia].
Qed.

Lemma pool_Get_dials_iff_closed_witness :
  SessionPool_Get 2 poolTwo "n1"
  = Returns (Pooled 7,
             {| sessions :=
                  <["n1" := session_with 2 "n1" [8]]> (sessions poolTwo) |})
  ∧ SessionPool_Get 2 poolTwo "n2" = Blocks
  ∧ SessionPool_Get 2 poolTwo "n3" = Blocks
  ∧ ∃ s' shut',
      Session_Close (getSession 2 poolTwo "n1").1.1 ∅ = Returns (s', shut')
      ∧ Session_Get s' = Returns (NewSession "n1", s').
Proof.
  destruct (pool_Get_dials_iff_closed 2 poolTwo "n1" poolTwo_kept)
    as (H1 & _ & _ & Hclosed & _).
  destruct (pool_Get_dials_iff_closed 2 poolTwo "n2" poolTwo_kept)
    as (_ & H2 & _).
  destruct (pool_Get_dials_iff_closed 2 poolTwo "n3" poolTwo_kept)
    as (_ & H3 & _).
  split_and!.
  - apply (H1 (session_with 2 "n1" [7; 8]) 7 [8]); reflexivity.
  - apply H2. right. exists (session_with 2 "n2" []). split; reflexivity.
  - apply H3. left. reflexivity.
  - apply (Hclosed ∅).
Defined.

Lemma pool_Put_then_Get_witness :
  ∃ p1,
    SessionPool_Put poolTwo "n2" 9 ∅ = Returns (true, p1, ∅)
    ∧ SessionPool_Get 2 p1 "n2"
      = Returns (Pooled 9,
                 {| sessions :=
                      <["n2" := session_with 2 "n2" []]> (sessions poolTwo) |})
    ∧ (buf (sess (session_with 2 "n2" [])) = [] →
       SessionPool_Get 2 p1 "n2" = Returns (Pooled 9, poolTwo)).
Proof.
  apply (pool_Put_then_Get 2 poolTwo "n2" (session_with 2 "n2" []) 9 ∅
           poolTwo_kept).
  - reflexivity.
  - simpl. lia.
Defined.

Lemma pool_Put_not_pooled_witness :
  SessionPool_Put poolTwo "n3" 9 ∅ = Returns (false, poolTwo, ∅)
  ∧ SessionPool_Put poolTwo "n1" 9 ∅ = Returns (true, poolTwo, ∅ ∪ {[ 9 ]}).
Proof.
  destruct (pool_Put_not_pooled 2 poolTwo "n3" 9 ∅ poolTwo_kept) as [H3 _].
  destruct (pool_Put_not_pooled 2 poolTwo "n1" 9 ∅ poolTwo_kept) as [_ H1].
  split.
  - apply H3. reflexivity.
  - apply (H1 (session_with 2 "n1" [7; 8])); reflexivity.
Defined.

Lemma pool_Close_closes_pooled_witness :
  (∃ shut',
     SessionPool_Close (H := range_fwd) poolTwo ∅
     = Returns (newSessionPool, shut')
     ∧ ∀ c, c ∈ shut' ↔ c ∈ (∅ : gset Conn) ∨ pooled poolTwo c)
  ∧ (∀ id s,
       sessions poolTwo !! id = Some s →
       SessionPool_Remove poolTwo id ∅
       = Returns ({| sessions := delete id (sessions poolTwo) |},
                  ∅ ∪ list_to_set (buf (sess s))))
  ∧ (∀ id, sessions poolTwo !! id = None →
           SessionPool_Remove poolTwo id ∅ = Returns (poolTwo, ∅)).
Proof.
  exact (pool_Close_closes_pooled (H := range_fwd) 2 poolTwo ∅ poolTwo_kept).
Defined.

Lemma pool_Len_counts_witness :
  (∀ conn shut ok p' shut',
     SessionPool_Put poolTwo "n2" conn shut = Returns (ok, p', shut') →
     SessionPool_Len (H := range_fwd) p'
     = S (SessionPool_Len (H := range_fwd) poolTwo))
  ∧ (∀ conn shut ok p' shut',
       SessionPool_Put poolTwo "n1" conn shut = Returns (ok, p', shut') →
       SessionPool_Len (H := range_fwd) p'
       = SessionPool_Len (H := range_fwd) poolTwo)
  ∧ (∀ g p', SessionPool_Get 2 poolTwo "n1" = Returns (g, p') →
             S (SessionPool_Len (H := range_fwd) p')
             = SessionPool_Len (H := range_fwd) poolTwo)
  ∧ (∀ shut p' shut',
       SessionPool_Remove poolTwo "n1" shut = Returns (p', shut') →
       (SessionPool_Len (H := range_fwd) p' + 2)%nat
       = SessionPool_Len (H := range_fwd) poolTwo).
Proof.
  destruct (pool_Len_counts (H := range_fwd) 2 poolTwo "n2"
              (session_with 2 "n2" []) poolTwo_kept eq_refl)
    as (_ & Hput2 & _ & _).
  destruct (pool_Len_counts (H := range_fwd) 2 poolTwo "n1"
              (session_with 2 "n1" [7; 8]) poolTwo_kept eq_refl)
    as (_ & Hput1 & Hget1 & Hremove1).
  split_and!.
  - exact Hput2.
  - exact Hput1.
  - exact Hget1.
  - exact Hremove1.
Defined.
